(** * The events plugin: event metadata, event store, calendar export

    A shallow embedding of [events/events.py] (the Pelican "events" plugin)
    and of the parts of the library of CPython 3 it calls: [str.split],
    [int], [datetime.strptime], [timedelta], [datetime + timedelta],
    [sorted].

    Conventions of the embedding.
    - A Python [str] is a Rocq [string]; a character is a code point below
      256.  Character classes ([\d], [\s], [str.split] separators) are the
      Unicode ones restricted to that range.
    - A Python [int] is a [Z].
    - An exception is a value of [exn]; a call that may raise returns a
      [result].  Code that mutates the module globals, the content objects
      or the file system runs in the monad [M], whose state survives an
      exception, as the interpreter's heap does.
    - Calls to [log] are left out: they change nothing the plugin reads.
      The arguments of a logging call are still evaluated, because a
      missing ['title'] raises [KeyError] there. *)

From Stdlib Require Import ZArith List Ascii String Bool Lia.
From Stdlib Require Import Sorting.Sorted Sorting.Permutation.
From stdpp Require Import base option list sorting gmap strings.

Local Open Scope Z_scope.

(* ================================================================== *)
(** * Characters and strings *)
(* ================================================================== *)

Module Chars.

Definition code (c : ascii) : Z := Z.of_N (N_of_ascii c).

(** [Py_UNICODE_ISSPACE] on code points below 256: HT LF VT FF CR,
    FS GS RS US, space, NEL and the no-break space. *)
Definition isspace (c : ascii) : bool :=
  let n := code c in
  ((9 <=? n) && (n <=? 13)) || ((28 <=? n) && (n <=? 32))
  || (n =? 133) || (n =? 160).

(** The whitespace [int] accepts around a number: the ASCII whitespace
    of C, and the Unicode whitespace above 127.  The separators FS, GS,
    RS and US are not among it. *)
Definition int_space (c : ascii) : bool :=
  let n := code c in
  ((9 <=? n) && (n <=? 13)) || (n =? 32) || (n =? 133) || (n =? 160).

(** The decimal value of a digit; below 256 the decimal digits are
    ['0'] to ['9']. *)
Definition digit_val (c : ascii) : option Z :=
  let n := code c in
  if (48 <=? n) && (n <=? 57) then Some (n - 48) else None.

Definition isdigit (c : ascii) : bool :=
  match digit_val c with Some _ => true | None => false end.

Definition in_range (lo hi c : ascii) : bool :=
  (code lo <=? code c) && (code c <=? code hi).

Definition eqb (a b : ascii) : bool := code a =? code b.

End Chars.

Abbreviation chars := (list ascii).

Definition chars_of (s : string) : chars := list_ascii_of_string s.
Definition str_of (l : chars) : string := string_of_list_ascii l.

(** The whitespace [int] skips at both ends of its argument. *)
Fixpoint lstrip (s : chars) : chars :=
  match s with
  | c :: s' => if Chars.int_space c then lstrip s' else s
  | [] => []
  end.

Definition strip (s : chars) : chars := rev (lstrip (rev (lstrip s))).

(** [str.split()] without argument: the maximal runs of characters that
    are not whitespace, in order; no empty string is produced. [cur] is
    the run being read, last character first. *)
Fixpoint split_from (cur : chars) (s : chars) : list chars :=
  match s with
  | [] => match cur with [] => [] | _ => [rev cur] end
  | c :: s' =>
      if Chars.isspace c
      then match cur with
           | [] => split_from [] s'
           | _ => rev cur :: split_from [] s'
           end
      else split_from (c :: cur) s'
  end.

Definition py_split (s : chars) : list chars := split_from [] s.

(** [int(s)] in base ten, as Python 3.6 and later read it: surrounding
    whitespace skipped, an optional sign, then decimal digits; a single
    underscore may separate two digits.  [None] stands for the
    [ValueError] of [int]. *)
Fixpoint int_digits (acc : Z) (after_digit : bool) (s : chars) : option Z :=
  match s with
  | [] => if after_digit then Some acc else None
  | c :: s' =>
      match Chars.digit_val c with
      | Some d => int_digits (acc * 10 + d) true s'
      | None =>
          if Chars.eqb c "_" && after_digit
          then int_digits acc false s'
          else None
      end
  end.

Definition int_literal (s : chars) : option Z :=
  match strip s with
  | c :: r =>
      if Chars.eqb c "-" then Z.opp <$> int_digits 0 false r
      else if Chars.eqb c "+" then int_digits 0 false r
      else int_digits 0 false (c :: r)
  | [] => None
  end.

(** The number of decimal digits in [s]; leading zeros count, the sign,
    underscores and whitespace do not. *)
Fixpoint digit_count (s : chars) : Z :=
  match s with
  | [] => 0
  | c :: s' => (if Chars.isdigit c then 1 else 0) + digit_count s'
  end.

(** [sys.int_max_str_digits], at its default. *)
Definition int_max_str_digits : Z := 4300.

(** [int(s)]: since Python 3.11, and the security releases of 3.7 to
    3.10, a literal of more than [int_max_str_digits] digits is refused
    with [ValueError], whatever its value. *)
Definition py_int (s : chars) : option Z :=
  if int_max_str_digits <? digit_count s then None else int_literal s.

(* ================================================================== *)
(** * Dates, times and durations *)
(* ================================================================== *)

(** A naive [datetime.datetime]. *)
Record datetime := mk_datetime {
  year : Z; month : Z; day : Z;
  hour : Z; minute : Z; second : Z; microsecond : Z
}.

(** A [datetime.timedelta], held normalised as Python holds it. *)
Record timedelta := mk_timedelta {
  days : Z; seconds : Z; microseconds : Z
}.

Global Instance datetime_eq_dec : EqDecision datetime.
Proof. solve_decision. Defined.

Global Instance timedelta_eq_dec : EqDecision timedelta.
Proof. solve_decision. Defined.

(** The calendar helpers of [datetime.py]. *)
Module Calendar.

Definition _MAXORDINAL : Z := 3652059.

Definition _DAYS_IN_MONTH (m : Z) : Z :=
  match m with
  | 1 => 31 | 2 => 28 | 3 => 31 | 4 => 30 | 5 => 31 | 6 => 30
  | 7 => 31 | 8 => 31 | 9 => 30 | 10 => 31 | 11 => 30 | 12 => 31
  | _ => -1
  end.

Definition _DAYS_BEFORE_MONTH (m : Z) : Z :=
  match m with
  | 1 => 0 | 2 => 31 | 3 => 59 | 4 => 90 | 5 => 120 | 6 => 151
  | 7 => 181 | 8 => 212 | 9 => 243 | 10 => 273 | 11 => 304 | 12 => 334
  | _ => -1
  end.

Definition _is_leap (y : Z) : bool :=
  (y mod 4 =? 0) && (negb (y mod 100 =? 0) || (y mod 400 =? 0)).

Definition _days_before_year (y : Z) : Z :=
  let y := y - 1 in y * 365 + y / 4 - y / 100 + y / 400.

Definition _days_in_month (y m : Z) : Z :=
  if (m =? 2) && _is_leap y then 29 else _DAYS_IN_MONTH m.

Definition _days_before_month (y m : Z) : Z :=
  _DAYS_BEFORE_MONTH m + (if (2 <? m) && _is_leap y then 1 else 0).

Definition _ymd2ord (y m d : Z) : Z :=
  _days_before_year y + _days_before_month y m + d.

Definition _DI400Y : Z := 146097.
Definition _DI100Y : Z := 36524.
Definition _DI4Y : Z := 1461.

Definition _ord2ymd (n : Z) : Z * Z * Z :=
  let n := n - 1 in
  let n400 := n / _DI400Y in
  let n := n mod _DI400Y in
  let year := n400 * 400 + 1 in
  let n100 := n / _DI100Y in
  let n := n mod _DI100Y in
  let n4 := n / _DI4Y in
  let n := n mod _DI4Y in
  let n1 := n / 365 in
  let n := n mod 365 in
  let year := year + n100 * 100 + n4 * 4 + n1 in
  if (n1 =? 4) || (n100 =? 4) then (year - 1, 12, 31)
  else
    let leapyear := (n1 =? 3) && (negb (n4 =? 24) || (n100 =? 3)) in
    let month := Z.shiftr (n + 50) 5 in
    let preceding :=
      _DAYS_BEFORE_MONTH month
      + (if (2 <? month) && leapyear then 1 else 0) in
    if n <? preceding then
      let month := month - 1 in
      let preceding :=
        preceding
        - (_DAYS_IN_MONTH month
           + (if (month =? 2) && leapyear then 1 else 0)) in
      (year, month, n - preceding + 1)
    else (year, month, n - preceding + 1).

(** [_check_date_fields]: what the [date] constructor accepts. *)
Definition valid_date (y m d : Z) : bool :=
  (1 <=? y) && (y <=? 9999) && (1 <=? m) && (m <=? 12)
  && (1 <=? d) && (d <=? _days_in_month y m).

End Calendar.

(* ================================================================== *)
(** * Values, exceptions, results *)
(* ================================================================== *)

(** The Python values the plugin meets in a metadata mapping or in the
    settings: [None], a [str], a [datetime], or some other object, which
    is known by its identity only. *)
Inductive pyval :=
| VNone
| VStr (s : string)
| VDatetime (d : datetime)
| VObj (id : nat).

Global Instance pyval_eq_dec : EqDecision pyval.
Proof. solve_decision. Defined.

(** Truth value of an object, as [not x] tests it. *)
Definition truthy (v : pyval) : bool :=
  match v with
  | VNone => false
  | VStr s => negb (bool_decide (s = ""))
  | VDatetime _ => true
  | VObj _ => true
  end.

(** The text of an exception, kept as the format and its arguments. *)
Inductive message :=
| time_data_does_not_match (data : string)
    (* "time data %r does not match format %r" *)
| unconverted_data_remains (rest : string)
    (* "unconverted data remains: %s" *)
| date_out_of_range
    (* "year %i is out of range", "day is out of range for month" *)
| unknown_time_multiplier (chunk : string)
    (* "Unknown time multiplier '%s'" % c *)
| unable_to_parse (chunk : string)
    (* "Unable to parse '%s'" % c *)
| bad_directive
    (* "'%s' is a bad directive in format '%s'" *)
| invalid_literal (s : string)
    (* "invalid literal for int() with base 10: %r" *)
| end_or_duration_must_be_specified (title : pyval)
    (* "Either 'event-end' or 'event-duration' must be speciefied in the
       event named '%s'" % metadata['title'] *).

Inductive exn :=
| KeyError (key : string)
| IndexError
| AttributeError (name : string)
| TypeError
| OverflowError
| ValueError (msg : message)
| RuntimeError (msg : message)
| HostError (name : string).

Inductive result (A : Type) :=
| Ok (a : A)
| Raise (e : exn).
Arguments Ok {A} a.
Arguments Raise {A} e.

Definition rbind {A B} (r : result A) (f : A -> result B) : result B :=
  match r with Ok a => f a | Raise e => Raise e end.

Declare Scope result_scope.
Delimit Scope result_scope with res.
Notation "x <- r ;; k" := (rbind r (fun x => k))
  (at level 100, r at next level, right associativity) : result_scope.

(** A [dict] with [str] keys, such as a metadata mapping. *)
Abbreviation dict := (gmap string pyval).

(** [d[key]] *)
Definition getitem (d : dict) (key : string) : result pyval :=
  match d !! key with
  | Some v => Ok v
  | None => Raise (KeyError key)
  end.

(** [key in d] *)
Definition contains (d : dict) (key : string) : bool :=
  bool_decide (is_Some (d !! key)).

(* ================================================================== *)
(** * [datetime.strptime] *)
(* ================================================================== *)

(** The regular expressions [_strptime.TimeRE] builds, and the
    backtracking matcher of [re]: alternatives are tried from the left,
    [+] is greedy, and the first way to match the whole pattern wins. *)
Module Re.

Inductive cls :=
| Lit (c : ascii)         (* the character itself *)
| Range (lo hi : ascii)   (* [lo-hi] *)
| D                       (* \d *)
| S.                      (* \s *)

Inductive regex :=
| Chr (p : cls)
| Seq (a b : regex)
| Alt (a b : regex)
| Plus (p : cls)                      (* p+ *)
| Group (name : string) (a : regex).  (* (?P<name>a) *)

Definition test (p : cls) (c : ascii) : bool :=
  match p with
  | Lit x => Chars.eqb c x
  | Range lo hi => Chars.in_range lo hi c
  | D => Chars.isdigit c
  | S => Chars.isspace c
  end.

Abbreviation groups := (list (string * chars)).

Section Matcher.
Context {R : Type}.

(** [p+] followed by [k]: the longest run first, then shorter ones. *)
Fixpoint plus (p : cls) (s : chars) (k : chars -> option R) : option R :=
  match s with
  | c :: s' =>
      if test p c
      then match plus p s' k with
           | Some r => Some r
           | None => k s'
           end
      else None
  | [] => None
  end.

(** [run r s g k]: match [r] at the head of [s], then hand the rest
    of the input and the groups read so far to [k]; where [k] fails
    the matcher backtracks into [r]. *)
Fixpoint run (r : regex) (s : chars) (g : groups)
    (k : chars -> groups -> option R) : option R :=
  match r with
  | Chr p =>
      match s with
      | c :: s' => if test p c then k s' g else None
      | [] => None
      end
  | Seq a b => run a s g (fun s1 g1 => run b s1 g1 k)
  | Alt a b =>
      match run a s g k with
      | Some x => Some x
      | None => run b s g k
      end
  | Plus p => plus p s (fun s1 => k s1 g)
  | Group name a =>
      run a s g (fun s1 g1 =>
        k s1 ((name, take (length s - length s1)%nat s) :: g1))
  end.
End Matcher.

(** [regex.match(s)]: the groups and the input left after the match
    (what [found.end()] does not cover). *)
Definition match_ (r : regex) (s : chars) : option (groups * chars) :=
  run r s [] (fun rest g => Some (g, rest)).

Fixpoint group (g : groups) (name : string) : option chars :=
  match g with
  | (n, v) :: g' => if bool_decide (n = name) then Some v else group g' name
  | [] => None
  end.

End Re.

Module Strptime.
Import Re.

Definition seq (l : list regex) (last : regex) : regex :=
  fold_right Seq last l.

Definition d2 (a b : cls) : regex := Seq (Chr a) (Chr b).

(** The entries of [TimeRE] for the directives of the format. *)
Definition directive (c : ascii) : option regex :=
  if Chars.eqb c "Y" then   (* (?P<Y>\d\d\d\d) *)
    Some (Group "Y" (seq [Chr D; Chr D; Chr D] (Chr D)))
  else if Chars.eqb c "m" then   (* (?P<m>1[0-2]|0[1-9]|[1-9]) *)
    Some (Group "m"
      (Alt (d2 (Lit "1") (Range "0" "2"))
      (Alt (d2 (Lit "0") (Range "1" "9"))
           (Chr (Range "1" "9")))))
  else if Chars.eqb c "d" then
    (* (?P<d>3[0-1]|[1-2]\d|0[1-9]|[1-9]| [1-9]) *)
    Some (Group "d"
      (Alt (d2 (Lit "3") (Range "0" "1"))
      (Alt (d2 (Range "1" "2") D)
      (Alt (d2 (Lit "0") (Range "1" "9"))
      (Alt (Chr (Range "1" "9"))
           (d2 (Lit " ") (Range "1" "9")))))))
  else if Chars.eqb c "H" then   (* (?P<H>2[0-3]|[0-1]\d|\d) *)
    Some (Group "H"
      (Alt (d2 (Lit "2") (Range "0" "3"))
      (Alt (d2 (Range "0" "1") D)
           (Chr D))))
  else if Chars.eqb c "M" then   (* (?P<M>[0-5]\d|\d) *)
    Some (Group "M"
      (Alt (d2 (Range "0" "5") D)
           (Chr D)))
  else None.

(** [TimeRE.pattern]: a directive becomes its entry, a run of
    whitespace becomes [\s+], another character stands for itself (the
    characters a regular expression reads otherwise are escaped first).
    The pieces are returned in order; [in_space] tells that the
    previous character was whitespace already turned into [\s+]. *)
Fixpoint pieces (in_space : bool) (fmt : chars) : option (list regex) :=
  match fmt with
  | [] => Some []
  | c :: fmt' =>
      if Chars.eqb c "%" then
        match fmt' with
        | x :: fmt'' =>
            match directive x, pieces false fmt'' with
            | Some r, Some rs => Some (r :: rs)
            | _, _ => None
            end
        | [] => None
        end
      else if Chars.isspace c then
        if in_space then pieces true fmt'
        else cons (Plus S) <$> pieces true fmt'
      else cons (Chr (Lit c)) <$> pieces false fmt'
  end.

Fixpoint concat (rs : list regex) : option regex :=
  match rs with
  | [] => None
  | [r] => Some r
  | r :: rs' => Seq r <$> concat rs'
  end.

Definition pattern (fmt : string) : option regex :=
  pieces false (chars_of fmt) ≫= concat.

Definition int_of (v : chars) : result Z :=
  match py_int v with
  | Some n => Ok n
  | None => Raise (ValueError (invalid_literal (str_of v)))
  end.

(** The value of a group, or the default where the format has no
    such directive. *)
Definition field (g : groups) (name : string) (default : Z) : result Z :=
  match group g name with
  | Some v => int_of v
  | None => Ok default
  end.

(** [_strptime._strptime] followed by the [datetime] constructor, for
    formats made of [%Y %m %d %H %M], whitespace and plain characters. *)
Definition _strptime (data_string format : string) : result datetime :=
  match pattern format with
  | None => Raise (ValueError bad_directive)
  | Some format_regex =>
      match match_ format_regex (chars_of data_string) with
      | None => Raise (ValueError (time_data_does_not_match data_string))
      | Some (found, rest) =>
          match rest with
          | _ :: _ =>
              Raise (ValueError (unconverted_data_remains (str_of rest)))
          | [] =>
              (month <- field found "m" 1 ;;
               day <- field found "d" 1 ;;
               hour <- field found "H" 0 ;;
               minute <- field found "M" 0 ;;
               year <- match group found "Y" with
                       | Some v => int_of v
                       | None =>
                           Ok (if (month =? 2) && (day =? 29)
                               then 1904 else 1900)
                       end ;;
               if Calendar.valid_date year month day
               then Ok (mk_datetime year month day hour minute 0 0)
               else Raise (ValueError date_out_of_range))%res
          end
      end
  end.

End Strptime.

(** [datetime.strptime(v, format)] *)
Definition strptime (v : pyval) (format : string) : result datetime :=
  match v with
  | VStr s => Strptime._strptime s format
  | _ => Raise TypeError
  end.

(* ================================================================== *)
(** * [timedelta] and [datetime + timedelta] *)
(* ================================================================== *)

(** [timedelta(days, seconds, microseconds, minutes=, hours=, weeks=)]
    on integers. *)
Definition timedelta_new
    (days seconds microseconds minutes hours weeks : Z) : result timedelta :=
  let days := days + weeks * 7 in
  let seconds := seconds + minutes * 60 + hours * 3600 in
  let d := days + seconds / 86400 in
  let s := seconds mod 86400 in
  let s := s + (microseconds / 1000000) mod 86400 in
  let d := d + (microseconds / 1000000) / 86400 in
  let us := microseconds mod 1000000 in
  let d := d + s / 86400 in
  let s := s mod 86400 in
  if 999999999 <? Z.abs d then Raise OverflowError
  else Ok (mk_timedelta d s us).

(** [datetime.toordinal] *)
Definition toordinal (t : datetime) : Z :=
  Calendar._ymd2ord (year t) (month t) (day t).

(** [datetime.__add__] *)
Definition datetime_add (t : datetime) (other : timedelta) : result datetime :=
  (self <- timedelta_new (toordinal t) (second t) (microsecond t)
                         (minute t) (hour t) 0 ;;
   delta <- timedelta_new (days self + days other)
                          (seconds self + seconds other)
                          (microseconds self + microseconds other) 0 0 0 ;;
   let hour := seconds delta / 3600 in
   let rem := seconds delta mod 3600 in
   let minute := rem / 60 in
   let second := rem mod 60 in
   if (0 <? days delta) && (days delta <=? Calendar._MAXORDINAL)
   then
     let '(y, m, d) := Calendar._ord2ymd (days delta) in
     Ok (mk_datetime y m d hour minute second (microseconds delta))
   else Raise OverflowError)%res.

(* ================================================================== *)
(** * The parsers of the plugin *)
(* ================================================================== *)

Definition TIME_MULTIPLIERS (c : ascii) : option string :=
  if Chars.eqb c "w" then Some "weeks"
  else if Chars.eqb c "d" then Some "days"
  else if Chars.eqb c "h" then Some "hours"
  else if Chars.eqb c "m" then Some "minutes"
  else if Chars.eqb c "s" then Some "seconds"
  else None.

(** [parse_tstamp(ev, field_name)].  The handler evaluates [ev['title']]
    for the log line before it re-raises. *)
Definition parse_tstamp (ev : dict) (field_name : string) : result datetime :=
  match (v <- getitem ev field_name ;; strptime v "%Y-%m-%d %H:%M")%res with
  | Ok t => Ok t
  | Raise e => (_ <- getitem ev "title" ;; Raise e)%res
  end.

(** [timedelta] called with the keyword arguments [tdargs]. *)
Definition timedelta_kwargs (tdargs : gmap string Z) : result timedelta :=
  let arg name := default 0 (tdargs !! name) in
  timedelta_new (arg "days") (arg "seconds") 0
                (arg "minutes") (arg "hours") (arg "weeks").

(** The body of the loop of [parse_timedelta] for one chunk [c]. *)
Definition parse_chunk (ev : dict) (tdargs : gmap string Z) (c : chars)
    : result (gmap string Z) :=
  match rev c with
  | [] => Raise IndexError
  | last :: front =>
      match TIME_MULTIPLIERS last with
      | None =>
          (_ <- getitem ev "title" ;;
           Raise (RuntimeError (unknown_time_multiplier (str_of c))))%res
      | Some m =>
          match py_int (rev front) with
          | None =>
              (_ <- getitem ev "title" ;;
               Raise (ValueError (unable_to_parse (str_of c))))%res
          | Some val => Ok (<[m := val]> tdargs)
          end
      end
  end.

Fixpoint parse_chunks (ev : dict) (tdargs : gmap string Z) (chunks : list chars)
    : result (gmap string Z) :=
  match chunks with
  | [] => Ok tdargs
  | c :: chunks' =>
      (tdargs' <- parse_chunk ev tdargs c ;; parse_chunks ev tdargs' chunks')%res
  end.

(** [parse_timedelta(ev)] *)
Definition parse_timedelta (ev : dict) : result timedelta :=
  (v <- getitem ev "event-duration" ;;
   chunks <- match v with
             | VStr s => Ok (py_split (chars_of s))
             | _ => Raise (AttributeError "split")
             end ;;
   tdargs <- parse_chunks ev ∅ chunks ;;
   timedelta_kwargs tdargs)%res.


(* ================================================================== *)
(** * Content objects, events, settings *)
(* ================================================================== *)

(** A content object of the host: its metadata mapping and the
    attributes the plugin attaches with [setattr].  The resolver is the
    only writer of these attributes, and it writes datetimes. *)
Record content := mk_content {
  content_metadata : dict;
  content_attrs : gmap string datetime
}.

Global Instance content_inhabited : Inhabited content :=
  populate (mk_content ∅ ∅).

(** [Event = namedtuple("Event", "dtstart dtend metadata article")].
    [article] is the content object itself, held by reference: a
    content object compares by identity.  [metadata] is the mapping of
    that object; the plugin never changes a metadata mapping, and the
    event holds it by its value.  Two events are equal when their four
    fields are, which is equality of tuples. *)
Record Event := mk_Event {
  dtstart : datetime;
  dtend : datetime;
  metadata : dict;
  article : nat
}.

Global Instance Event_eq_dec : EqDecision Event.
Proof. solve_decision. Defined.

Global Instance datetime_countable : Countable datetime.
Proof.
  refine (inj_countable'
    (fun t => (year t, month t, day t, hour t, minute t, second t,
               microsecond t))
    (fun '(y, mo, d, h, mi, s, us) => mk_datetime y mo d h mi s us) _).
  by intros [].
Defined.

Global Instance pyval_countable : Countable pyval.
Proof.
  refine (inj_countable'
    (fun v => match v with
              | VNone => inl ()
              | VStr s => inr (inl s)
              | VDatetime d => inr (inr (inl d))
              | VObj n => inr (inr (inr n))
              end)
    (fun x => match x with
              | inl _ => VNone
              | inr (inl s) => VStr s
              | inr (inr (inl d)) => VDatetime d
              | inr (inr (inr n)) => VObj n
              end) _).
  by intros [].
Defined.

(** The settings of the host the plugin reads; [None] is a key that the
    settings mapping does not have. *)
Record settings := mk_settings {
  PLUGIN_EVENTS : option dict;
  OUTPUT_PATH : option string;
  TIMEZONE : option string;
  SITEURL : option string;
  DEFAULT_LANG : option string;
  SITENAME : option string;
  PLUGINS : option (list pyval)
}.

(** [settings[key]] *)
Definition setting {A} (key : string) (v : option A) : result A :=
  match v with
  | Some a => Ok a
  | None => Raise (KeyError key)
  end.

(** The generator handed to the hooks: its settings and the values of
    [context["generated_content"]], in iteration order. *)
Record generator := mk_generator {
  gen_settings : settings;
  generated_content : list nat
}.

(** What [generate_events_list] stores under [context['events_list']]. *)
Inductive listing :=
| GlobalList (l : list Event)
| PerLanguage (m : gmap pyval (list Event)).

(** An [icalendar] component and calendar: the properties in the order
    they are added, and the sub-components. *)
Record component := mk_component {
  properties : list (string * pyval)
}.

Record calendar := mk_calendar {
  cal_properties : list (string * pyval);
  subcomponents : list component
}.

(** [os.path.join(a, b)] of [posixpath]. *)
Definition startswith_sep (b : string) : bool :=
  match chars_of b with c :: _ => Chars.eqb c "/" | [] => false end.

Definition endswith_sep (a : string) : bool :=
  match rev (chars_of a) with c :: _ => Chars.eqb c "/" | [] => false end.

Definition os_path_join (a b : string) : string :=
  if startswith_sep b then b
  else if bool_decide (a = "") || endswith_sep a then a +:+ b
  else a +:+ "/" +:+ b.

(* ================================================================== *)
(** * Ordering of events: [sorted(..., reverse=True, key=...)] *)
(* ================================================================== *)

Definition lex (c : comparison) (rest : comparison) : comparison :=
  match c with Eq => rest | _ => c end.

(** [datetime._cmp]: the fields compared in order. *)
Definition datetime_cmp (a b : datetime) : comparison :=
  lex (year a ?= year b)
  (lex (month a ?= month b)
  (lex (day a ?= day b)
  (lex (hour a ?= hour b)
  (lex (minute a ?= minute b)
  (lex (second a ?= second b)
       (microsecond a ?= microsecond b)))))).

(** The sort key [lambda ev: (ev.dtstart, ev.dtend)] and the comparison
    of two keys, a comparison of tuples. *)
Definition key (ev : Event) : datetime * datetime := (dtstart ev, dtend ev).

Definition key_cmp (a b : datetime * datetime) : comparison :=
  lex (datetime_cmp a.1 b.1) (datetime_cmp a.2 b.2).

Definition key_lt (a b : Event) : bool :=
  match key_cmp (key a) (key b) with Lt => true | _ => false end.

(** [list.sort] is a stable sort that only asks [<] of the keys; every
    stable sort returns the same list, here the one insertion builds.
    With [reverse=True] the list is reversed, sorted, and reversed
    again, so that equal keys keep their original order. *)
Fixpoint insort (x : Event) (l : list Event) : list Event :=
  match l with
  | [] => [x]
  | y :: l' => if key_lt y x then y :: insort x l' else x :: y :: l'
  end.

Definition sort_ascending (l : list Event) : list Event :=
  fold_right insort [] l.

Definition sorted_reverse (l : list Event) : list Event :=
  rev (sort_ascending (rev l)).

(* ================================================================== *)
(** * The host: libraries and operating system *)
(* ================================================================== *)

(** What the exporter asks of [pytz], [jinja2.Markup], [icalendar], the
    content object and the file system. *)
Class Host := {
  tzinfo : Type;
  (** [pytz.timezone(name)] *)
  pytz_timezone : string -> result tzinfo;
  (** [tz.localize(t).astimezone(pytz.utc)] *)
  localize_astimezone_utc : tzinfo -> datetime -> result datetime;
  (** [Markup(v).striptags()] *)
  striptags : pyval -> result string;
  (** [article.get_summary(siteurl)] *)
  get_summary : nat -> string -> result string;
  (** [icalendar.vDatetime(t).to_ical()] *)
  vDatetime_to_ical : datetime -> string;
  (** [ical.to_ical()] *)
  to_ical : calendar -> string;
  filesystem : Type;
  (** [os.path.exists(path)] *)
  os_path_exists : filesystem -> string -> bool;
  (** [os.makedirs(path)] *)
  os_makedirs : filesystem -> string -> filesystem * result unit;
  (** [with open(path, 'wb') as f: f.write(data)] *)
  write_binary : filesystem -> string -> string -> filesystem * result unit
}.

Section Plugin.
Context `{Host}.

(** The interpreter state the plugin works on: the content objects by
    address, the module globals [events] and [localized_events], the
    file system, and [generator.context['events_list']]. *)
Record world := mk_world {
  heap : gmap nat content;
  events : list Event;
  localized_events : gmap pyval (list Event);
  files : filesystem;
  events_list : option listing
}.

Definition M (A : Type) : Type := world -> world * result A.

Definition ret {A} (a : A) : M A := fun w => (w, Ok a).

Definition bind {A B} (m : M A) (f : A -> M B) : M B :=
  fun w => match m w with
           | (w', Ok a) => f a w'
           | (w', Raise e) => (w', Raise e)
           end.

Definition lift {A} (r : result A) : M A := fun w => (w, r).

Definition gets {A} (f : world -> A) : M A := fun w => (w, Ok (f w)).

Definition modify (f : world -> world) : M unit := fun w => (f w, Ok tt).

End Plugin.

Declare Scope M_scope.
Delimit Scope M_scope with M.
Notation "x <- m ;; k" := (bind m (fun x => k))
  (at level 100, m at next level, right associativity) : M_scope.
Notation "m ;; k" := (bind m (fun _ => k))
  (at level 100, right associativity) : M_scope.

(* ================================================================== *)
(** * The plugin *)
(* ================================================================== *)

Section Hooks.
Context `{Host}.
Local Open Scope M_scope.

(** [for x in l: body] *)
Fixpoint for_each {A} (l : list A) (body : A -> M unit) : M unit :=
  match l with
  | [] => ret tt
  | x :: l' => body x ;; for_each l' body
  end.

(** The object at an address.  Every address the hooks receive is the
    address of an object; an address the heap does not hold reads as
    an object with no metadata and no attribute. *)
Definition deref (w : world) (c : nat) : content := heap w !!! c.

(** [setattr(content, name, value)] *)
Definition setattr (c : nat) (name : string) (value : datetime) : M unit :=
  modify (fun w =>
    let o := deref w c in
    mk_world
      (<[c := mk_content (content_metadata o)
                         (<[name := value]> (content_attrs o))]> (heap w))
      (events w) (localized_events w) (files w) (events_list w)).

(** [parse_article(content)] *)
Definition parse_article (c : nat) : M unit :=
  metadata <- gets (fun w => content_metadata (deref w c)) ;;
  if negb (contains metadata "event-start") then ret tt
  else
    dtstart <- lift (parse_tstamp metadata "event-start") ;;
    dtend <-
      (if contains metadata "event-end" then
         lift (parse_tstamp metadata "event-end")
       else if contains metadata "event-duration" then
         dtdelta <- lift (parse_timedelta metadata) ;;
         lift (datetime_add dtstart dtdelta)
       else
         title <- lift (getitem metadata "title") ;;
         lift (Raise (ValueError (end_or_duration_must_be_specified title)))) ;;
    setattr c "event-start" dtstart ;;
    setattr c "event-end" dtend ;;
    setattr c "event_start" dtstart ;;
    setattr c "event_end" dtend.

(** [events.append(event)] *)
Definition events_append (event : Event) : M unit :=
  modify (fun w =>
    mk_world (heap w) (events w ++ [event]) (localized_events w)
             (files w) (events_list w)).

(** The loop of [generate_events] over the content objects [cs]. *)
Definition collect (cs : list nat) : M unit :=
  for_each cs (fun c =>
    o <- gets (fun w => deref w c) ;;
    match content_attrs o !! "event_start" with
    | None => ret tt
    | Some event_start =>
        event_end <-
          lift (match content_attrs o !! "event_end" with
                | Some t => Ok t
                | None => Raise (AttributeError "event_end")
                end) ;;
        let event := mk_Event event_start event_end (content_metadata o) c in
        present <- gets (fun w => bool_decide (event ∈ events w)) ;;
        if negb present then events_append event else ret tt
    end).

(** [localized_events[lang].append(e)] on the [defaultdict(list)] *)
Definition localized_append (lang : pyval) (e : Event) : M unit :=
  modify (fun w =>
    mk_world (heap w) (events w)
      (<[lang := default [] (localized_events w !! lang) ++ [e]]>
         (localized_events w))
      (files w) (events_list w)).

(** A call of the host that changes the file system. *)
Definition on_files (f : filesystem -> filesystem * result unit) : M unit :=
  fun w =>
    let '(fs, r) := f (files w) in
    (mk_world (heap w) (events w) (localized_events w) fs (events_list w), r).

(** [generate_localized_events(generator)] *)
Definition generate_localized_events (g : generator) : M unit :=
  plugins <- lift (setting "PLUGINS" (PLUGINS (gen_settings g))) ;;
  if bool_decide (VStr "i18n_subsites" ∈ plugins) then
    output_path <- lift (setting "OUTPUT_PATH" (OUTPUT_PATH (gen_settings g))) ;;
    there <- gets (fun w => os_path_exists (files w) output_path) ;;
    (if negb there then on_files (fun fs => os_makedirs fs output_path)
     else ret tt) ;;
    evs <- gets events ;;
    for_each evs (fun e =>
      match metadata e !! "lang" with
      | Some lang => localized_append lang e
      | None => _ <- lift (getitem (metadata e) "title") ;; ret tt
      end)
  else ret tt.

(** The body of the loop of [generate_ical_file]: the component for
    one event. *)
Definition ical_event (g : generator) (local_tz : tzinfo) (siteurl : string)
    (e : Event) : result component :=
  (dtstart_utc <- localize_astimezone_utc local_tz (dtstart e) ;;
   dtend_utc <- localize_astimezone_utc local_tz (dtend e) ;;
   date <- getitem (metadata e) "date" ;;
   dtstamp_utc <- match date with
                  | VDatetime t => localize_astimezone_utc local_tz t
                  | _ => Raise (AttributeError "tzinfo")
                  end ;;
   title <- getitem (metadata e) "title" ;;
   summary <- striptags title ;;
   slug <- getitem (metadata e) "slug" ;;
   slug_at <- match slug with
              | VStr s => Ok (s +:+ "@")
              | _ => Raise TypeError
              end ;;
   sitename <- setting "SITENAME" (SITENAME (gen_settings g)) ;;
   let uid := slug_at +:+ sitename in
   text <- get_summary (article e) siteurl ;;
   description <- striptags (VStr text) ;;
   let location :=
     match metadata e !! "event-location" with
     | Some v => [("location", v)]
     | None =>
         match metadata e !! "location" with
         | Some v => [("location", v)]
         | None => []
         end
     end in
   Ok (mk_component
         ([("summary", VStr summary);
           ("dtstart", VStr (vDatetime_to_ical dtstart_utc));
           ("dtend", VStr (vDatetime_to_ical dtend_utc));
           ("dtstamp", VStr (vDatetime_to_ical dtstamp_utc));
           ("uid", VStr uid);
           ("CLASS", VStr "PUBLIC");
           ("DESCRIPTION", VStr description)] ++ location)))%res.

(** The components of the events [l], in order; the first exception
    ends the loop. *)
Fixpoint ical_events (g : generator) (local_tz : tzinfo) (siteurl : string)
    (l : list Event) : result (list component) :=
  match l with
  | [] => Ok []
  | e :: l' =>
      (ie <- ical_event g local_tz siteurl e ;;
       rest <- ical_events g local_tz siteurl l' ;;
       Ok (ie :: rest))%res
  end.

(** [events if not localized_events else localized_events[DEFAULT_LANG]]:
    reading a missing key of the [defaultdict] stores an empty list
    under it. *)
Definition curr_events (default_lang : string) : M (list Event) :=
  fun w =>
    if bool_decide (localized_events w = ∅) then (w, Ok (events w))
    else
      match localized_events w !! VStr default_lang with
      | Some l => (w, Ok l)
      | None =>
          (mk_world (heap w) (events w)
             (<[VStr default_lang := []]> (localized_events w))
             (files w) (events_list w),
           Ok [])
      end.

Definition ical_header : list (string * pyval) :=
  [("prodid", VStr "-//pelican/events//mxm.dk//EN");
   ("version", VStr "2.0");
   ("METHOD", VStr "PUBLISH")].

(** [generate_ical_file(generator)] *)
Definition generate_ical_file (g : generator) : M unit :=
  let s := gen_settings g in
  plugin_events <- lift (setting "PLUGIN_EVENTS" (PLUGIN_EVENTS s)) ;;
  ics_fname <- lift (getitem plugin_events "ics_fname") ;;
  if negb (truthy ics_fname) then ret tt
  else
    output_path <- lift (setting "OUTPUT_PATH" (OUTPUT_PATH s)) ;;
    ics_fname <- lift (match ics_fname with
                       | VStr f => Ok (os_path_join output_path f)
                       | _ => Raise TypeError
                       end) ;;
    tzname <- lift (setting "TIMEZONE" (TIMEZONE s)) ;;
    local_tz <- lift (pytz_timezone tzname) ;;
    siteurl <- lift (setting "SITEURL" (SITEURL s)) ;;
    default_lang <- lift (setting "DEFAULT_LANG" (DEFAULT_LANG s)) ;;
    evs <- curr_events default_lang ;;
    comps <- lift (ical_events g local_tz siteurl evs) ;;
    on_files (fun fs =>
      write_binary fs ics_fname (to_ical (mk_calendar ical_header comps))).

(** [generate_events_list(generator)] *)
Definition generate_events_list (g : generator) : M unit :=
  modify (fun w =>
    mk_world (heap w) (events w) (localized_events w) (files w)
      (Some (if bool_decide (localized_events w = ∅)
             then GlobalList (sorted_reverse (events w))
             else PerLanguage (sorted_reverse <$> localized_events w)))).

(** [generate_events(generator)] *)
Definition generate_events (g : generator) : M unit :=
  collect (generated_content g) ;;
  generate_localized_events g ;;
  generate_ical_file g ;;
  generate_events_list g.

(** [initialize_events(article_generator)] *)
Definition initialize_events (g : generator) : M unit :=
  modify (fun w =>
    mk_world (heap w) [] ∅ (files w) (events_list w)).

End Hooks.

(* ================================================================== *)
(** * A small host, for running the plugin on concrete inputs *)
(* ================================================================== *)

(** The only time zone it knows is UTC; markup is left as it is; a file
    system is the mapping from the paths written to their contents, and
    a calendar is written as its own properties, each with its value,
    followed by the uids of its components. *)
Module SmallHost.

Definition uid_of (ie : component) : string :=
  match list_find (fun p => p.1 = "uid") (properties ie) with
  | Some (_, (_, VStr u)) => u
  | _ => ""
  end.

Definition show_property (p : string * pyval) : string :=
  p.1 +:+ "=" +:+ match p.2 with VStr s => s | _ => "" end.

Definition show_calendar (cal : calendar) : string :=
  "VCALENDAR("
  +:+ fold_right (fun p acc => show_property p +:+ ";" +:+ acc) "|"
        (cal_properties cal)
  +:+ fold_right (fun ie acc => uid_of ie +:+ ";" +:+ acc) ")"
        (subcomponents cal).

Global Instance host : Host := {|
  tzinfo := unit;
  pytz_timezone name :=
    if bool_decide (name = "UTC") then Ok tt
    else Raise (HostError "UnknownTimeZoneError");
  localize_astimezone_utc _ t := Ok t;
  striptags v := match v with VStr s => Ok s | _ => Ok "" end;
  get_summary _ _ := Ok "";
  vDatetime_to_ical _ := "";
  to_ical := show_calendar;
  filesystem := gmap string string;
  os_path_exists fs path := bool_decide (is_Some (fs !! path));
  os_makedirs fs path := (<[path := ""]> fs, Ok tt);
  write_binary fs path data := (<[path := data]> fs, Ok tt)
|}.

Definition empty_world : world := mk_world ∅ [] ∅ ∅ None.

(** A world holding the content objects [objs], at addresses 0, 1, ... *)
Definition world_of (objs : list dict) : world :=
  mk_world
    (list_to_map (imap (fun i md => (i, mk_content md ∅)) objs))
    [] ∅ ∅ None.

End SmallHost.

(* ================================================================== *)
(** * Equations of the monad *)
(* ================================================================== *)

Section MonadLaws.
Context `{Host}.

Lemma bind_lift {A B} (r : result A) (f : A -> M B) (w : world) :
  bind (lift r) f w
  = match r with Ok a => f a w | Raise e => (w, Raise e) end.
Proof. by destruct r. Qed.

Lemma bind_gets {A B} (g : world -> A) (f : A -> M B) (w : world) :
  bind (gets g) f w = f (g w) w.
Proof. done. Qed.

Lemma bind_ret {A B} (a : A) (f : A -> M B) (w : world) :
  bind (ret a) f w = f a w.
Proof. done. Qed.

Lemma bind_modify {B} (g : world -> world) (f : unit -> M B) (w : world) :
  bind (modify g) f w = f tt (g w).
Proof. done. Qed.

Lemma bind_assoc {A B C} (m : M A) (f : A -> M B) (k : B -> M C) (w : world) :
  bind (bind m f) k w = bind m (fun a => bind (f a) k) w.
Proof.
  unfold bind. destruct (m w) as [w' [a|e]]; done.
Qed.

Lemma bind_bind_unit {A B} (m : M A) (f : A -> M B) (w : world) :
  bind m f w
  = match m w with
    | (w', Ok a) => f a w'
    | (w', Raise e) => (w', Raise e)
    end.
Proof. done. Qed.

End MonadLaws.

(* ================================================================== *)
(** * Calendar arithmetic *)
(* ================================================================== *)

Section CalendarFacts.
Import Calendar.

(** The month and the day of the month for the day [n] of a year, counted
    from 0: the last steps of [_ord2ymd]. *)
Definition month_day (n : Z) (leapyear : bool) : Z * Z :=
      let month := Z.shiftr (n + 50) 5 in
      let preceding :=
        _DAYS_BEFORE_MONTH month
        + (if (2 <? month) && leapyear then 1 else 0) in
      if n <? preceding then
        let month := month - 1 in
        let preceding :=
          preceding
          - (_DAYS_IN_MONTH month
             + (if (month =? 2) && leapyear then 1 else 0)) in
        (month, n - preceding + 1)
      else (month, n - preceding + 1).

Definition month_day_ok (leap : bool) (n : Z) : bool :=
  let '(m, d) := month_day n leap in
  (1 <=? m) && (m <=? 12) && (1 <=? d)
  && (d <=? (if (m =? 2) && leap then 29 else _DAYS_IN_MONTH m))
  && (_DAYS_BEFORE_MONTH m + (if (2 <? m) && leap then 1 else 0) + d =? n + 1).

Lemma month_day_table leap n :
  0 <= n < 365 -> month_day_ok leap n = true.
Proof.
  intros Hn.
  assert (forallb (month_day_ok leap) (seqZ 0 365) = true) as Hall
    by (destruct leap; vm_compute; reflexivity).
  rewrite forallb_forall in Hall. apply Hall.
  apply list_elem_of_In, elem_of_seqZ. lia.
Qed.

Lemma is_leap_decomp a b c d :
  0 <= a -> 0 <= b <= 3 -> 0 <= c <= 24 -> 0 <= d <= 3 ->
  _is_leap (a * 400 + 1 + b * 100 + c * 4 + d)
  = (d =? 3) && (negb (c =? 24) || (b =? 3)).
Proof.
  intros. unfold _is_leap.
  apply eq_true_iff_eq.
  rewrite !andb_true_iff, !orb_true_iff, !negb_true_iff, !Z.eqb_eq, !Z.eqb_neq.
  Z.div_mod_to_equations. lia.
Qed.

Lemma days_before_year_decomp a b c d :
  0 <= a -> 0 <= b <= 3 -> 0 <= c <= 24 -> 0 <= d <= 3 ->
  _days_before_year (a * 400 + 1 + b * 100 + c * 4 + d)
  = a * 146097 + b * 36524 + c * 1461 + d * 365.
Proof.
  intros. unfold _days_before_year. Z.div_mod_to_equations. lia.
Qed.

Lemma ord2ymd_month_day n :
  _ord2ymd n =
    let n0 := n - 1 in
    let a := n0 / 146097 in
    let r400 := n0 mod 146097 in
    let b := r400 / 36524 in
    let r100 := r400 mod 36524 in
    let c := r100 / 1461 in
    let r4 := r100 mod 1461 in
    let d := r4 / 365 in
    let r := r4 mod 365 in
    let year := a * 400 + 1 + b * 100 + c * 4 + d in
    if (d =? 4) || (b =? 4) then (year - 1, 12, 31)
    else
      let '(m, dd) :=
        month_day r ((d =? 3) && (negb (c =? 24) || (b =? 3))) in
      (year, m, dd).
Proof.
  unfold _ord2ymd, month_day, _DI400Y, _DI100Y, _DI4Y. cbv zeta.
  destruct ((_ =? 4) || (_ =? 4)); [done|].
  by destruct (_ <? _).
Qed.

(** [_ord2ymd] returns a date, the one whose ordinal is [n]. *)
Lemma ord2ymd_ymd2ord n :
  1 <= n <= _MAXORDINAL ->
  let '(y, m, d) := _ord2ymd n in
  _ymd2ord y m d = n ∧ valid_date y m d = true.
Proof.
  intros Hn. rewrite ord2ymd_month_day. cbv zeta.
  unfold _MAXORDINAL in Hn.
  set (n0 := n - 1).
  set (a := n0 / 146097). set (r400 := n0 mod 146097).
  set (b := r400 / 36524). set (r100 := r400 mod 36524).
  set (c := r100 / 1461). set (r4 := r100 mod 1461).
  set (d := r4 / 365). set (r := r4 mod 365).
  assert (Hdiv : n0 = 146097 * a + r400 ∧ 0 <= r400 < 146097
          ∧ r400 = 36524 * b + r100 ∧ 0 <= r100 < 36524
          ∧ r100 = 1461 * c + r4 ∧ 0 <= r4 < 1461
          ∧ r4 = 365 * d + r ∧ 0 <= r < 365).
  { unfold a, r400, b, r100, c, r4, d, r. Z.div_mod_to_equations. lia. }
  destruct Hdiv as (Hn0 & Hr400 & Hb & Hr100 & Hc & Hr4 & Hd & Hr).
  assert (0 <= a <= 24 ∧ 0 <= b <= 4 ∧ 0 <= c <= 24 ∧ 0 <= d <= 4) as Hbounds
    by (unfold n0 in *; lia).
  clearbody a r400 b r100 c r4 d r. unfold n0 in *. clear n0.
  destruct ((d =? 4) || (b =? 4)) eqn:Hcase.
  - apply orb_true_iff in Hcase. rewrite !Z.eqb_eq in Hcase.
    assert (exists b' c', 0 <= b' <= 3 ∧ 0 <= c' <= 24
              ∧ a * 400 + 1 + b * 100 + c * 4 + d - 1
                = a * 400 + 1 + b' * 100 + c' * 4 + 3
              ∧ (c' <> 24 ∨ b' = 3)
              ∧ n - 1 = a * 146097 + b' * 36524 + c' * 1461 + 3 * 365 + 365)
      as (b' & c' & Hb' & Hc' & -> & Hleap & Hord).
    { destruct Hcase as [Hd4|Hb4].
      - exists b, c. lia.
      - exists 3, 24. lia. }
    unfold _ymd2ord, valid_date, _days_in_month, _days_before_month.
    rewrite days_before_year_decomp, is_leap_decomp by lia.
    replace ((3 =? 3) && (negb (c' =? 24) || (b' =? 3))) with true by lia.
    simpl. split; lia.
  - apply orb_false_iff in Hcase. rewrite !Z.eqb_neq in Hcase.
    pose proof (month_day_table ((d =? 3) && (negb (c =? 24) || (b =? 3))) r Hr)
      as Htable.
    unfold month_day_ok in Htable.
    destruct (month_day r _) as [m dd].
    unfold _ymd2ord, valid_date, _days_in_month, _days_before_month.
    rewrite days_before_year_decomp, is_leap_decomp by lia.
    split; lia.
Qed.

Lemma days_before_year_bound y :
  1 <= y <= 10000 -> 0 <= _days_before_year y <= 3652059.
Proof.
  intros Hy. unfold _days_before_year. Z.div_mod_to_equations. lia.
Qed.

Lemma days_before_year_succ y :
  _days_before_year (y + 1)
  = _days_before_year y + 365 + (if _is_leap y then 1 else 0).
Proof.
  unfold _days_before_year, _is_leap.
  replace (y + 1 - 1) with y by lia.
  destruct ((y mod 4 =? 0) && (negb (y mod 100 =? 0) || (y mod 400 =? 0))) eqn:E.
  - apply andb_true_iff in E as [E1 E2]. apply orb_true_iff in E2.
    rewrite negb_true_iff, !Z.eqb_eq, ?Z.eqb_neq in *.
    Z.div_mod_to_equations. lia.
  - apply andb_false_iff in E. rewrite orb_false_iff, negb_false_iff in E.
    rewrite !Z.eqb_eq, !Z.eqb_neq in E.
    Z.div_mod_to_equations. lia.
Qed.

Lemma ymd2ord_range y m d :
  valid_date y m d = true -> 1 <= _ymd2ord y m d <= _MAXORDINAL.
Proof.
  unfold valid_date. intros Hv.
  assert (1 <= y <= 9999 ∧ 1 <= m <= 12 ∧ 1 <= d <= _days_in_month y m)
    as (Hy & Hm & Hd) by lia.
  clear Hv. unfold _ymd2ord, _MAXORDINAL.
  pose proof (days_before_year_bound y ltac:(lia)).
  pose proof (days_before_year_bound (y + 1) ltac:(lia)).
  pose proof (days_before_year_succ y).
  unfold _days_before_month, _days_in_month in *.
  destruct (_is_leap y);
    assert (m = 1 ∨ m = 2 ∨ m = 3 ∨ m = 4 ∨ m = 5 ∨ m = 6 ∨ m = 7 ∨ m = 8
            ∨ m = 9 ∨ m = 10 ∨ m = 11 ∨ m = 12) as Hcases by lia;
    repeat (destruct Hcases as [->|Hcases]); try subst m; simpl in *; lia.
Qed.


(** ** Datetimes on the time line *)

(** What the [datetime] constructor accepts. *)
Definition valid_datetime (t : datetime) : Prop :=
  valid_date (year t) (month t) (day t) = true
  ∧ 0 <= hour t < 24 ∧ 0 <= minute t < 60 ∧ 0 <= second t < 60
  ∧ 0 <= microsecond t < 1000000.

(** Microseconds from the start of day 0 of the proleptic calendar. *)
Definition instant (t : datetime) : Z :=
  (((toordinal t * 24 + hour t) * 60 + minute t) * 60 + second t) * 1000000
  + microsecond t.

(** [d / timedelta(microseconds=1)] *)
Definition span_microseconds (d : timedelta) : Z :=
  (days d * 86400 + seconds d) * 1000000 + microseconds d.

(** The ordinal of the day an instant falls on. *)
Definition day_of (us : Z) : Z := us / 86400000000.

(** The constructor carries seconds into days and microseconds into
    seconds. *)
Lemma timedelta_new_total d h m s us :
  let total := ((((d * 24 + h) * 60 + m) * 60) + s) * 1000000 + us in
  timedelta_new d s us m h 0 =
    if 999999999 <? Z.abs (day_of total) then Raise OverflowError
    else Ok (mk_timedelta (day_of total) ((total / 1000000) mod 86400)
                          (total mod 1000000)).
Proof.
  intros total. unfold timedelta_new, day_of.
  replace (d + 0 * 7 + (s + m * 60 + h * 3600) / 86400
           + us / 1000000 / 86400
           + ((s + m * 60 + h * 3600) mod 86400
              + (us / 1000000) mod 86400) / 86400)
    with (total / 86400000000)
    by (unfold total; Z.div_mod_to_equations; lia).
  replace (((s + m * 60 + h * 3600) mod 86400
            + (us / 1000000) mod 86400) mod 86400)
    with ((total / 1000000) mod 86400)
    by (unfold total; Z.div_mod_to_equations; lia).
  replace (us mod 1000000) with (total mod 1000000)
    by (unfold total; Z.div_mod_to_equations; lia).
  done.
Qed.

(** [t + d] is the datetime [d] later on the time line; it raises
    [OverflowError] exactly when that instant is outside the years 1 to
    9999. *)
Lemma datetime_add_instant t d :
  valid_datetime t ->
  match datetime_add t d with
  | Ok t' =>
      instant t' = instant t + span_microseconds d ∧ valid_datetime t'
  | Raise e =>
      e = OverflowError
      ∧ ~ (1 <= day_of (instant t + span_microseconds d) <= _MAXORDINAL)
  end.
Proof.
  intros (Hdate & Hh & Hm & Hs & Hus).
  pose proof (ymd2ord_range _ _ _ Hdate) as Hord. fold (toordinal t) in Hord.
  unfold datetime_add. unfold _MAXORDINAL in *. rewrite timedelta_new_total. fold (instant t).
  assert (day_of (instant t) = toordinal t
          ∧ (instant t / 1000000) mod 86400
            = hour t * 3600 + minute t * 60 + second t
          ∧ instant t mod 1000000 = microsecond t) as (-> & Hsec & Hmic).
  { unfold instant, day_of. Z.div_mod_to_equations. lia. }
  replace (999999999 <? Z.abs (toordinal t)) with false by lia.
  cbn [rbind days seconds microseconds].
  rewrite Hsec, Hmic.
  pose proof (timedelta_new_total (toordinal t + days d) 0 0
                (hour t * 3600 + minute t * 60 + second t + seconds d)
                (microsecond t + microseconds d)) as Hnew.
  cbv zeta in Hnew. rewrite Hnew. clear Hnew.
  replace (((((toordinal t + days d) * 24 + 0) * 60 + 0) * 60
            + (hour t * 3600 + minute t * 60 + second t + seconds d))
           * 1000000 + (microsecond t + microseconds d))
    with (instant t + span_microseconds d)
    by (unfold instant, span_microseconds; lia).
  set (total := instant t + span_microseconds d).
  destruct (999999999 <? Z.abs (day_of total)) eqn:Hover.
  { simpl. split; [done|]. lia. }
  cbn [rbind days seconds microseconds].
  destruct ((0 <? day_of total) && (day_of total <=? 3652059)) eqn:Hin.
  2:{ split; [done|lia]. }
  pose proof (ord2ymd_ymd2ord (day_of total) ltac:(unfold _MAXORDINAL; lia))
    as Hround.
  destruct (_ord2ymd (day_of total)) as [[y m] dd].
  destruct Hround as [Hround Hvalid].
  unfold instant at 1, valid_datetime, toordinal. simpl.
  rewrite Hround. unfold day_of.
  repeat split; try done; Z.div_mod_to_equations; lia.
Qed.

End CalendarFacts.

(* ================================================================== *)
(** * The timestamp parser *)
(* ================================================================== *)

Section CharacterClasses.

Lemma code_inj a b : Chars.code a = Chars.code b -> a = b.
Proof.
  unfold Chars.code. intros Heq. apply N2Z.inj in Heq.
  rewrite <- (ascii_N_embedding a), <- (ascii_N_embedding b). by rewrite Heq.
Qed.

Lemma eqb_eq a b : Chars.eqb a b = true <-> a = b.
Proof.
  unfold Chars.eqb. rewrite Z.eqb_eq. split; [apply code_inj | by intros ->].
Qed.

Lemma isdigit_digit_val c :
  Chars.isdigit c = true <-> exists x, Chars.digit_val c = Some x.
Proof.
  unfold Chars.isdigit. destruct (Chars.digit_val c); split; try done.
  - by eexists.
  - by intros [? ?].
Qed.

Lemma digit_count_length s : 0 <= digit_count s <= Z.of_nat (length s).
Proof.
  induction s as [|c s IH]; simpl digit_count; simpl length; [lia|].
  destruct (Chars.isdigit c); lia.
Qed.

(** The limit on the digits does not bear on a short string. *)
Lemma py_int_short s :
  Z.of_nat (length s) <= int_max_str_digits -> py_int s = int_literal s.
Proof.
  intros Hlen. unfold py_int. pose proof (digit_count_length s).
  by replace (int_max_str_digits <? digit_count s) with false by lia.
Qed.

End CharacterClasses.

(** Goals about character classes become arithmetic on character
    codes. *)
Ltac code_consts :=
  repeat match goal with
  | |- context [Chars.code (Ascii ?a ?b ?c ?d ?e ?f ?g ?h)] =>
      let v := eval vm_compute in (Chars.code (Ascii a b c d e f g h)) in
      change (Chars.code (Ascii a b c d e f g h)) with v
  | H : context [Chars.code (Ascii ?a ?b ?c ?d ?e ?f ?g ?h)] |- _ =>
      let v := eval vm_compute in (Chars.code (Ascii a b c d e f g h)) in
      change (Chars.code (Ascii a b c d e f g h)) with v in H
  end.

Ltac chr :=
  unfold Re.test, Chars.eqb, Chars.in_range, Chars.isdigit, Chars.digit_val,
    Chars.isspace, Chars.int_space in *;
  code_consts;
  repeat match goal with
  | H : (if ?b then Some _ else None) = Some _ |- _ =>
      let E := fresh "E" in
      destruct b eqn:E; [injection H as H | discriminate H]
  | H : (if ?b then Some _ else None) = None |- _ =>
      let E := fresh "E" in
      destruct b eqn:E; [discriminate H | clear H]
  | H : match (if ?b then Some _ else None) with Some _ => true | None => false end = _ |- _ =>
      let E := fresh "E" in
      destruct b eqn:E; simpl in H
  | |- context [if ?b then Some _ else None] =>
      let E := fresh "E" in
      destruct b eqn:E; simpl
  end;
  try discriminate; try done; try lia.

Section RegexSemantics.
Import Re.

(** What a regular expression can match, and the groups it binds, the
    innermost last. *)
Inductive derives : regex -> chars -> groups -> Prop :=
| derives_chr p c : test p c = true -> derives (Chr p) [c] []
| derives_seq a b m1 m2 g1 g2 :
    derives a m1 g1 -> derives b m2 g2 ->
    derives (Seq a b) (m1 ++ m2) (g2 ++ g1)
| derives_alt_l a b m g : derives a m g -> derives (Alt a b) m g
| derives_alt_r a b m g : derives b m g -> derives (Alt a b) m g
| derives_plus p m :
    m <> [] -> Forall (fun c => test p c = true) m -> derives (Plus p) m []
| derives_group name a m g :
    derives a m g -> derives (Group name a) m ((name, m) :: g).

Lemma take_matched (m rest : chars) :
  take (length (m ++ rest) - length rest) (m ++ rest) = m.
Proof.
  rewrite length_app.
  replace (length m + length rest - length rest)%nat with (length m) by lia.
  by rewrite take_app_length.
Qed.

Lemma plus_sound {R} p s (k : chars -> option R) x :
  plus p s k = Some x ->
  exists m s', s = m ++ s' ∧ m <> [] ∧ Forall (fun c => test p c = true) m
               ∧ k s' = Some x.
Proof.
  revert x. induction s as [|c s IH]; intros x; simpl; [done|].
  destruct (test p c) eqn:Hc; [|done].
  destruct (plus p s k) as [y|] eqn:Hp.
  - intros [= <-]. destruct (IH y eq_refl) as (m & s' & -> & _ & Hm & Hk).
    exists (c :: m), s'. repeat split; try done. by constructor.
  - intros Hk. exists [c], s. repeat split; try done. by repeat constructor.
Qed.

(** Whatever the matcher returns comes from a match of the pattern
    followed by a success of the continuation. *)
Lemma run_sound {R} r s g (k : chars -> groups -> option R) x :
  run r s g k = Some x ->
  exists m s' g', s = m ++ s' ∧ derives r m g' ∧ k s' (g' ++ g) = Some x.
Proof.
  revert s g k x. induction r as [p|a IHa b IHb|a IHa b IHb|p|name a IHa];
    intros s g k x; simpl.
  - destruct s as [|c s]; [done|]. destruct (test p c) eqn:Hc; [|done].
    intros Hk. exists [c], s, []. repeat split; try done. by constructor.
  - intros Hrun. apply IHa in Hrun as (m1 & s1 & g1 & -> & Ha & Hrun).
    apply IHb in Hrun as (m2 & s2 & g2 & -> & Hb & Hk).
    exists (m1 ++ m2), s2, (g2 ++ g1). rewrite <- !app_assoc.
    repeat split; try done. by constructor.
  - destruct (run a s g k) as [y|] eqn:Ha.
    + intros [= <-]. apply IHa in Ha as (m & s' & g' & -> & Ha & Hk).
      exists m, s', g'. repeat split; try done. by apply derives_alt_l.
    + intros Hb. apply IHb in Hb as (m & s' & g' & -> & Hb & Hk).
      exists m, s', g'. repeat split; try done. by apply derives_alt_r.
  - intros Hp. apply plus_sound in Hp as (m & s' & -> & Hne & Hm & Hk).
    exists m, s', []. repeat split; try done. by constructor.
  - intros Hrun. apply IHa in Hrun as (m & s' & g' & -> & Ha & Hk).
    rewrite take_matched in Hk.
    exists m, s', ((name, m) :: g'). repeat split; try done. by constructor.
Qed.

End RegexSemantics.

Section TimestampFormat.
Import Re Strptime.

Local Arguments Chars.isspace : simpl never.
Local Arguments Chars.int_space : simpl never.
Local Arguments Chars.digit_val : simpl never.
Local Arguments Chars.isdigit : simpl never.
Local Arguments Chars.eqb : simpl never.
Local Arguments Chars.in_range : simpl never.
Local Arguments test : simpl never.

(** ** The pattern of the format *)

Definition Y_re : regex :=
  Group "Y" (Seq (Chr D) (Seq (Chr D) (Seq (Chr D) (Chr D)))).

Definition m_re : regex :=
  Group "m"
    (Alt (d2 (Lit "1") (Range "0" "2"))
    (Alt (d2 (Lit "0") (Range "1" "9"))
         (Chr (Range "1" "9")))).

Definition d_re : regex :=
  Group "d"
    (Alt (d2 (Lit "3") (Range "0" "1"))
    (Alt (d2 (Range "1" "2") D)
    (Alt (d2 (Lit "0") (Range "1" "9"))
    (Alt (Chr (Range "1" "9"))
         (d2 (Lit " ") (Range "1" "9")))))).

Definition H_re : regex :=
  Group "H"
    (Alt (d2 (Lit "2") (Range "0" "3"))
    (Alt (d2 (Range "0" "1") D)
         (Chr D))).

Definition M_re : regex :=
  Group "M" (Alt (d2 (Range "0" "5") D) (Chr D)).

Definition format_regex : regex :=
  Seq Y_re (Seq (Chr (Lit "-")) (Seq m_re (Seq (Chr (Lit "-"))
    (Seq d_re (Seq (Plus S) (Seq H_re (Seq (Chr (Lit ":")) M_re))))))).

Lemma pattern_format : pattern "%Y-%m-%d %H:%M" = Some format_regex.
Proof. reflexivity. Qed.

(** ** The strings the format accepts, in words *)

(** One or two decimal digits and the number they write. *)
Inductive numeral : chars -> Z -> Prop :=
| numeral_1 a x : Chars.digit_val a = Some x -> numeral [a] x
| numeral_2 a b x y :
    Chars.digit_val a = Some x -> Chars.digit_val b = Some y ->
    numeral [a; b] (10 * x + y).

(** Four decimal digits and the number they write. *)
Inductive numeral4 : chars -> Z -> Prop :=
| numeral4_intro a b c d x y z u :
    Chars.digit_val a = Some x -> Chars.digit_val b = Some y ->
    Chars.digit_val c = Some z -> Chars.digit_val d = Some u ->
    numeral4 [a; b; c; d] (1000 * x + 100 * y + 10 * z + u).

(** The day: a numeral from 1 to 31, or a space and a digit from 1 to 9. *)
Inductive day_field : chars -> Z -> Prop :=
| day_numeral s v : numeral s v -> 1 <= v <= 31 -> day_field s v
| day_padded a x :
    Chars.digit_val a = Some x -> 1 <= x -> day_field [" "%char; a] x.

(** What [strptime] accepts for ["%Y-%m-%d %H:%M"], and the datetime it
    returns: a year of four digits, a month from 1 to 12 and a day from
    1 to 31 of one or two digits, one or more whitespace characters, an
    hour from 0 to 23 and a minute from 0 to 59 of one or two digits;
    and the date exists, in a year from 1 on. *)
Definition accepted (s : chars) (t : datetime) : Prop :=
  exists sY sm sd ws sH sM,
    s = sY ++ "-"%char :: sm ++ "-"%char :: sd ++ ws ++ sH ++ ":"%char :: sM
    ∧ numeral4 sY (year t)
    ∧ (numeral sm (month t) ∧ 1 <= month t <= 12)
    ∧ day_field sd (day t)
    ∧ (ws <> [] ∧ Forall (fun c => Chars.isspace c = true) ws)
    ∧ (numeral sH (hour t) ∧ 0 <= hour t <= 23)
    ∧ (numeral sM (minute t) ∧ 0 <= minute t <= 59)
    ∧ second t = 0 ∧ microsecond t = 0
    ∧ Calendar.valid_date (year t) (month t) (day t) = true.


(** ** Reading the digits *)

Lemma digit_not_space a x :
  Chars.digit_val a = Some x -> Chars.isspace a = false.
Proof. intros. chr. Qed.

Lemma digit_not_int_space a x :
  Chars.digit_val a = Some x -> Chars.int_space a = false.
Proof. intros. chr. Qed.

Lemma digit_not_sign a x :
  Chars.digit_val a = Some x ->
  Chars.eqb a "-" = false ∧ Chars.eqb a "+" = false.
Proof. intros. split; chr. Qed.

Lemma digit_val_bounds a x : Chars.digit_val a = Some x -> 0 <= x <= 9.
Proof. intros. chr. Qed.

Lemma py_int_numeral s v : numeral s v -> py_int s = Some v.
Proof.
  intros [a x Ha|a b x y Ha Hb];
    rewrite py_int_short by (unfold int_max_str_digits; simpl; lia);
    unfold int_literal, strip.
  - simpl. rewrite (digit_not_int_space a x Ha). simpl.
    rewrite (digit_not_int_space a x Ha). simpl.
    destruct (digit_not_sign a x Ha) as [-> ->]. simpl. by rewrite Ha.
  - simpl. rewrite (digit_not_int_space a x Ha). simpl.
    rewrite (digit_not_int_space b y Hb). simpl.
    destruct (digit_not_sign a x Ha) as [-> ->]. simpl.
    rewrite Ha, Hb. simpl. f_equal. lia.
Qed.

Lemma py_int_numeral4 s v : numeral4 s v -> py_int s = Some v.
Proof.
  intros [a b c d x y z u Ha Hb Hc Hd].
  rewrite py_int_short by (unfold int_max_str_digits; simpl; lia).
  unfold int_literal, strip.
  simpl. rewrite (digit_not_int_space a x Ha). simpl.
  rewrite (digit_not_int_space d u Hd). simpl.
  destruct (digit_not_sign a x Ha) as [-> ->]. simpl.
  rewrite Ha, Hb, Hc, Hd. simpl. f_equal. lia.
Qed.

Lemma py_int_day s v : day_field s v -> py_int s = Some v.
Proof.
  intros [s' v' Hn _|a x Ha _]; [by apply py_int_numeral|].
  rewrite py_int_short by (unfold int_max_str_digits; simpl; lia).
  unfold int_literal, strip. simpl.
  replace (Chars.int_space " ") with true by done. simpl.
  rewrite (digit_not_int_space a x Ha). simpl.
  rewrite (digit_not_int_space a x Ha). simpl.
  destruct (digit_not_sign a x Ha) as [-> ->]. simpl. by rewrite Ha.
Qed.

(** ** From a match to the words *)

Lemma digit_val_spec c :
  48 <= Chars.code c <= 57 -> Chars.digit_val c = Some (Chars.code c - 48).
Proof.
  intros Hc. unfold Chars.digit_val.
  by replace ((48 <=? Chars.code c) && (Chars.code c <=? 57)) with true by lia.
Qed.

Ltac inv_derives :=
  repeat match goal with
  | H : derives (Chr _) _ _ |- _ => inversion H; subst; clear H
  | H : derives (Seq _ _) _ _ |- _ => inversion H; subst; clear H
  | H : derives (Alt _ _) _ _ |- _ => inversion H; subst; clear H
  | H : derives (Group _ _) _ _ |- _ => inversion H; subst; clear H
  | H : derives (Plus _) _ _ |- _ => inversion H; subst; clear H
  | H : derives (d2 _ _) _ _ |- _ => unfold d2 in H
  end.

Ltac digits_goal :=
  first [ eapply numeral_2 | eapply numeral_1 | eapply numeral4_intro ];
  apply digit_val_spec; chr.

Lemma derives_Y m g :
  derives Y_re m g -> exists v, numeral4 m v ∧ g = [("Y", m)].
Proof.
  unfold Y_re. intros Hd. inv_derives. simpl.
  eexists. split; [digits_goal | done].
Qed.

Lemma derives_m m g :
  derives m_re m g -> exists v, numeral m v ∧ 1 <= v <= 12 ∧ g = [("m", m)].
Proof.
  unfold m_re. intros Hd. inv_derives; simpl;
    (eexists; split; [digits_goal | split; [chr | done]]).
Qed.

Lemma derives_d m g :
  derives d_re m g -> exists v, day_field m v ∧ g = [("d", m)].
Proof.
  unfold d_re. intros Hd. inv_derives; simpl.
  1-4: eexists; split; [|done]; (eapply day_numeral; [digits_goal | chr]).
  match goal with
  | H : test (Lit " ") ?c = true |- _ =>
      apply eqb_eq in H; subst c
  end.
  eexists; split; [|done]. eapply day_padded; [apply digit_val_spec|]; chr.
Qed.

Lemma derives_H m g :
  derives H_re m g -> exists v, numeral m v ∧ 0 <= v <= 23 ∧ g = [("H", m)].
Proof.
  unfold H_re. intros Hd. inv_derives; simpl;
    (eexists; split; [digits_goal | split; [chr | done]]).
Qed.

Lemma derives_M m g :
  derives M_re m g -> exists v, numeral m v ∧ 0 <= v <= 59 ∧ g = [("M", m)].
Proof.
  unfold M_re. intros Hd. inv_derives; simpl;
    (eexists; split; [digits_goal | split; [chr | done]]).
Qed.

Lemma derives_lit c m g : derives (Chr (Lit c)) m g -> m = [c] ∧ g = [].
Proof.
  intros Hd. inv_derives.
  match goal with H : test _ _ = true |- _ => apply eqb_eq in H; by subst end.
Qed.

(** ** From the words to a match *)

(** The input after a field does not go on with a digit. *)
Definition no_digit_ahead (rest : chars) : Prop :=
  match rest with
  | [] => True
  | c :: _ => Chars.isdigit c = false
  end.

Lemma run_seq {R} a b s g (k : chars -> groups -> option R) :
  run (Seq a b) s g k = run a s g (fun s1 g1 => run b s1 g1 k).
Proof. done. Qed.

Lemma run_group_fwd {R} name a m rest g (k : chars -> groups -> option R) x :
  (forall k' : chars -> groups -> option R,
     k' rest g = Some x -> run a (m ++ rest) g k' = Some x) ->
  k rest ((name, m) :: g) = Some x ->
  run (Group name a) (m ++ rest) g k = Some x.
Proof. intros Ha Hk. simpl. apply Ha. by rewrite take_matched. Qed.

Ltac use_continuation :=
  try match goal with
      | H : ?f ?r ?g = Some _ |- context [?f ?r ?g] => rewrite H
      end.

Ltac step_tests :=
  repeat (simpl; use_continuation;
    match goal with
    | |- context [test ?p ?c] =>
        let E := fresh "E" in destruct (test p c) eqn:E
    end);
  simpl; use_continuation; try done; exfalso; chr.

Lemma run_Y_fwd {R} m v rest g (k : chars -> groups -> option R) x :
  numeral4 m v ->
  k rest (("Y", m) :: g) = Some x -> run Y_re (m ++ rest) g k = Some x.
Proof.
  intros [a b c d xa xb xc xd Ha Hb Hc Hd] Hk.
  apply run_group_fwd; [|done]. intros k' Hk'. step_tests.
Qed.

Lemma run_lit_fwd {R} c rest g (k : chars -> groups -> option R) x :
  k rest g = Some x -> run (Chr (Lit c)) (c :: rest) g k = Some x.
Proof.
  intros Hk. simpl. replace (test (Lit c) c) with true; [done|].
  symmetry. by apply eqb_eq.
Qed.

Lemma run_m_fwd {R} m v rest g (k : chars -> groups -> option R) x :
  numeral m v -> 1 <= v <= 12 -> no_digit_ahead rest ->
  k rest (("m", m) :: g) = Some x -> run m_re (m ++ rest) g k = Some x.
Proof.
  intros Hn Hv Hrest Hk. apply run_group_fwd; [|done]. intros k' Hk'.
  destruct Hn as [a xa Ha|a b xa xb Ha Hb].
  - pose proof (digit_val_bounds a xa Ha).
    destruct rest as [|c rest]; unfold no_digit_ahead in Hrest; step_tests.
  - pose proof (digit_val_bounds a xa Ha).
    pose proof (digit_val_bounds b xb Hb). step_tests.
Qed.

Lemma run_d_fwd {R} m v rest g (k : chars -> groups -> option R) x :
  day_field m v -> no_digit_ahead rest ->
  k rest (("d", m) :: g) = Some x -> run d_re (m ++ rest) g k = Some x.
Proof.
  intros Hn Hrest Hk. apply run_group_fwd; [|done]. intros k' Hk'.
  destruct Hn as [s v' [a xa Ha|a b xa xb Ha Hb] Hv|a xa Ha Hv].
  - pose proof (digit_val_bounds a xa Ha).
    destruct rest as [|c rest]; unfold no_digit_ahead in Hrest; step_tests.
  - pose proof (digit_val_bounds a xa Ha).
    pose proof (digit_val_bounds b xb Hb). step_tests.
  - pose proof (digit_val_bounds a xa Ha). step_tests.
Qed.

Lemma run_H_fwd {R} m v rest g (k : chars -> groups -> option R) x :
  numeral m v -> 0 <= v <= 23 -> no_digit_ahead rest ->
  k rest (("H", m) :: g) = Some x -> run H_re (m ++ rest) g k = Some x.
Proof.
  intros Hn Hv Hrest Hk. apply run_group_fwd; [|done]. intros k' Hk'.
  destruct Hn as [a xa Ha|a b xa xb Ha Hb].
  - pose proof (digit_val_bounds a xa Ha).
    destruct rest as [|c rest]; unfold no_digit_ahead in Hrest; step_tests.
  - pose proof (digit_val_bounds a xa Ha).
    pose proof (digit_val_bounds b xb Hb). step_tests.
Qed.

Lemma run_M_fwd {R} m v rest g (k : chars -> groups -> option R) x :
  numeral m v -> 0 <= v <= 59 -> no_digit_ahead rest ->
  k rest (("M", m) :: g) = Some x -> run M_re (m ++ rest) g k = Some x.
Proof.
  intros Hn Hv Hrest Hk. apply run_group_fwd; [|done]. intros k' Hk'.
  destruct Hn as [a xa Ha|a b xa xb Ha Hb].
  - pose proof (digit_val_bounds a xa Ha).
    destruct rest as [|c rest]; unfold no_digit_ahead in Hrest; step_tests.
  - pose proof (digit_val_bounds a xa Ha).
    pose proof (digit_val_bounds b xb Hb). step_tests.
Qed.

Lemma plus_space_fwd {R} ws c rest (k : chars -> option R) x :
  ws <> [] -> Forall (fun c => Chars.isspace c = true) ws ->
  Chars.isspace c = false ->
  k (c :: rest) = Some x -> plus S (ws ++ c :: rest) k = Some x.
Proof.
  intros Hne Hws Hc Hk. induction Hws as [|a ws Ha Hws IH]; [done|].
  simpl. replace (test S a) with true by done.
  destruct ws as [|b ws'].
  - simpl. replace (test S c) with false by done. done.
  - by rewrite IH.
Qed.

(** ** [strptime] against the words *)

(** The [ValueError]s of [strptime]: the spec's MalformedTimestamp. *)
Definition MalformedTimestamp (e : exn) : Prop :=
  (exists data, e = ValueError (time_data_does_not_match data))
  ∨ (exists rest, e = ValueError (unconverted_data_remains rest))
  ∨ e = ValueError date_out_of_range.

Definition the_format : string := "%Y-%m-%d %H:%M".

Lemma strptime_sound s :
  match _strptime s the_format with
  | Ok t => accepted (chars_of s) t
  | Raise e => MalformedTimestamp e
  end.
Proof.
  unfold _strptime, the_format. rewrite pattern_format.
  destruct (match_ format_regex (chars_of s)) as [[found rest]|] eqn:Hm;
    [|left; by eexists].
  destruct rest as [|c rest]; [|right; left; by eexists].
  unfold match_ in Hm.
  apply run_sound in Hm as (m & s' & g' & Hs & Hd & [= <- ->]).
  rewrite app_nil_r in Hs. unfold format_regex in Hd.
  repeat match goal with
  | H : derives (Seq _ _) _ _ |- _ => inversion H; subst; clear H
  end.
  repeat match goal with
  | H : derives (Chr (Lit _)) _ _ |- _ =>
      apply derives_lit in H as [-> ->]
  | H : derives (Plus _) _ _ |- _ => inversion H; subst; clear H
  end.
  match goal with H : derives Y_re _ _ |- _ =>
    apply derives_Y in H as (vY & HY & ->) end.
  match goal with H : derives m_re _ _ |- _ =>
    apply derives_m in H as (vm & Hmo & Hmr & ->) end.
  match goal with H : derives d_re _ _ |- _ =>
    apply derives_d in H as (vd & Hda & ->) end.
  match goal with H : derives H_re _ _ |- _ =>
    apply derives_H in H as (vH & Hho & Hhr & ->) end.
  match goal with H : derives M_re _ _ |- _ =>
    apply derives_M in H as (vM & Hmi & Hmir & ->) end.
  unfold field, int_of. simpl.
  rewrite (py_int_numeral _ _ Hmo), (py_int_day _ _ Hda),
    (py_int_numeral _ _ Hho), (py_int_numeral _ _ Hmi),
    (py_int_numeral4 _ _ HY). simpl.
  destruct (Calendar.valid_date vY vm vd) eqn:Hvalid; [|by right; right].
  unfold accepted. simpl.
  match goal with
  | H : ?a ++ [?c1] ++ ?b ++ [?c2] ++ ?c ++ ?d ++ ?e ++ [?c3] ++ ?f = chars_of s |- _ =>
      exists a, b, c, d, e, f; rewrite <- H
  end.
  repeat split; try done; try lia.
Qed.

Lemma strptime_complete s t :
  accepted (chars_of s) t -> _strptime s the_format = Ok t.
Proof.
  intros (sY & sm & sd & ws & sH & sM & Hs & HY & [Hmo Hmr] & Hda
          & [Hne Hws] & [Hho Hhr] & [Hmi Hmir] & Hsec & Hus & Hvalid).
  unfold _strptime, the_format. rewrite pattern_format, Hs.
  assert (match_ format_regex
            (sY ++ "-"%char :: sm ++ "-"%char :: sd ++ ws ++ sH
                ++ ":"%char :: sM)
          = Some ([("M", sM); ("H", sH); ("d", sd); ("m", sm); ("Y", sY)], []))
    as ->.
  { unfold match_, format_regex.
    rewrite run_seq. apply (run_Y_fwd sY (year t)); [done|].
    rewrite run_seq. apply run_lit_fwd.
    rewrite run_seq. apply (run_m_fwd sm (month t)); [done|done|done|].
    rewrite run_seq. apply run_lit_fwd.
    rewrite run_seq. apply (run_d_fwd sd (day t)); [done| |].
    { destruct Hws as [|c ws' Hc _]; [done|]. simpl. chr. }
    assert (exists c rest, sH = c :: rest ∧ Chars.isspace c = false)
      as (c & rest & -> & Hc).
    { destruct Hho as [a x Ha|a b x y Ha Hb]; eexists _, _;
        (split; [done|]); by eapply digit_not_space. }
    rewrite run_seq. simpl app. apply plus_space_fwd; [done|done|done|].
    change (c :: rest ++ ":"%char :: sM) with ((c :: rest) ++ ":"%char :: sM).
    rewrite run_seq.
    apply (run_H_fwd (c :: rest) (hour t)); [done|done|done|].
    rewrite run_seq. apply run_lit_fwd.
    rewrite <- (app_nil_r sM) at 1.
    by apply (run_M_fwd sM (minute t)). }
  unfold field, int_of. simpl.
  rewrite (py_int_numeral _ _ Hmo), (py_int_day _ _ Hda),
    (py_int_numeral _ _ Hho), (py_int_numeral _ _ Hmi),
    (py_int_numeral4 _ _ HY). simpl.
  rewrite Hvalid. destruct t; simpl in *. by subst.
Qed.

Lemma accepted_valid s t : accepted s t -> valid_datetime t.
Proof.
  intros (sY & sm & sd & ws & sH & sM & _ & _ & _ & _ & _ & [_ Hh] & [_ Hm]
          & Hsec & Hus & Hvalid).
  unfold valid_datetime. rewrite Hsec, Hus. repeat split; try done; lia.
Qed.

Lemma parse_tstamp_valid (ev : dict) field_name t :
  parse_tstamp ev field_name = Ok t -> valid_datetime t.
Proof.
  unfold parse_tstamp, getitem.
  destruct (ev !! field_name) as [[| s | |]|]; simpl;
    try (destruct (ev !! "title"); done).
  change "%Y-%m-%d %H:%M" with the_format.
  pose proof (strptime_sound s) as Hsound.
  destruct (_strptime s the_format) as [t'|e].
  - intros [= <-]. by apply (accepted_valid (chars_of s)).
  - by destruct (ev !! "title").
Qed.


End TimestampFormat.

(* ================================================================== *)
(** * The duration parser *)
(* ================================================================== *)

Section DurationParser.

(** ** The contract, in its own words *)

Inductive time_unit := Weeks | Days | Hours | Minutes | Seconds.

Global Instance time_unit_eq_dec : EqDecision time_unit.
Proof. solve_decision. Defined.

Definition suffix (u : time_unit) : ascii :=
  match u with
  | Weeks => "w" | Days => "d" | Hours => "h" | Minutes => "m"
  | Seconds => "s"
  end.

Definition unit_name (u : time_unit) : string :=
  match u with
  | Weeks => "weeks" | Days => "days" | Hours => "hours"
  | Minutes => "minutes" | Seconds => "seconds"
  end.

Definition unit_seconds (u : time_unit) : Z :=
  match u with
  | Weeks => 604800 | Days => 86400 | Hours => 3600 | Minutes => 60
  | Seconds => 1
  end.

(** A chunk [<int><unit>] and the count and unit it stands for: the
    count is what [int] reads, so of no more than
    [int_max_str_digits] digits. *)
Definition chunk_denotes (c : chars) (item : Z * time_unit) : Prop :=
  exists front, c = front ++ [suffix item.2] ∧ py_int front = Some item.1.

(** The count of unit [u]: that of its last mention, if any. *)
Fixpoint last_count (u : time_unit) (items : list (Z * time_unit))
    : option Z :=
  match items with
  | [] => None
  | (n, u') :: rest =>
      match last_count u rest with
      | Some m => Some m
      | None => if bool_decide (u' = u) then Some n else None
      end
  end.

(** The span a duration stands for, in seconds. *)
Definition span (items : list (Z * time_unit)) : Z :=
  let count u := default 0 (last_count u items) in
  count Weeks * 604800 + count Days * 86400 + count Hours * 3600
  + count Minutes * 60 + count Seconds.

(** The [timedelta] of a duration: one keyword argument per unit
    mentioned. *)
Definition timedelta_of (items : list (Z * time_unit)) : result timedelta :=
  let count u := default 0 (last_count u items) in
  timedelta_new (count Days) (count Seconds) 0
                (count Minutes) (count Hours) (count Weeks).

(** ** The loop against the contract *)

Definition store_item (tdargs : gmap string Z) (item : Z * time_unit)
    : gmap string Z :=
  <[unit_name item.2 := item.1]> tdargs.

Lemma TIME_MULTIPLIERS_suffix u : TIME_MULTIPLIERS (suffix u) = Some (unit_name u).
Proof. by destruct u. Qed.

Lemma parse_chunk_denotes ev tdargs c item :
  chunk_denotes c item -> parse_chunk ev tdargs c = Ok (store_item tdargs item).
Proof.
  intros (front & -> & Hint). unfold parse_chunk.
  rewrite rev_app_distr. simpl.
  by rewrite TIME_MULTIPLIERS_suffix, rev_involutive, Hint.
Qed.

Lemma parse_chunks_denote ev tdargs chunks items :
  Forall2 chunk_denotes chunks items ->
  parse_chunks ev tdargs chunks = Ok (fold_left store_item items tdargs).
Proof.
  intros Hall. revert tdargs.
  induction Hall as [|c item chunks items Hc _ IH]; intros tdargs; simpl.
  - done.
  - rewrite (parse_chunk_denotes ev tdargs c item Hc). simpl. apply IH.
Qed.

Lemma unit_name_inj u u' : unit_name u = unit_name u' -> u = u'.
Proof. by destruct u, u'. Qed.

Lemma fold_store_lookup items tdargs u :
  fold_left store_item items tdargs !! unit_name u
  = match last_count u items with
    | Some n => Some n
    | None => tdargs !! unit_name u
    end.
Proof.
  revert tdargs. induction items as [|[n u'] items IH]; intros tdargs; simpl.
  - done.
  - rewrite IH. destruct (last_count u items); [done|].
    unfold store_item. simpl. case_bool_decide as Hu.
    + subst. by rewrite lookup_insert_eq.
    + rewrite lookup_insert_ne; [done|].
      intros Hn. by apply unit_name_inj in Hn.
Qed.

Lemma timedelta_kwargs_fold items :
  timedelta_kwargs (fold_left store_item items ∅) = timedelta_of items.
Proof.
  unfold timedelta_kwargs, timedelta_of.
  change "days" with (unit_name Days).
  change "seconds" with (unit_name Seconds).
  change "minutes" with (unit_name Minutes).
  change "hours" with (unit_name Hours).
  change "weeks" with (unit_name Weeks).
  rewrite !fold_store_lookup, !lookup_empty.
  by destruct (last_count Days items), (last_count Seconds items),
    (last_count Minutes items), (last_count Hours items),
    (last_count Weeks items).
Qed.

Lemma parse_timedelta_denotes (ev : dict) s items :
  ev !! "event-duration" = Some (VStr s) ->
  Forall2 chunk_denotes (py_split (chars_of s)) items ->
  parse_timedelta ev = timedelta_of items.
Proof.
  intros Hs Hall. unfold parse_timedelta, getitem. rewrite Hs. simpl.
  rewrite (parse_chunks_denote ev ∅ _ items Hall). simpl.
  apply timedelta_kwargs_fold.
Qed.

(** Units mentioned once each: the order of the mentions is
    immaterial. *)
Lemma last_count_None u items :
  last_count u items = None <-> u ∉ items.*2.
Proof.
  induction items as [|[n u'] items IH]; simpl.
  - split; [intros _; apply not_elem_of_nil | done].
  - rewrite not_elem_of_cons, <- IH.
    destruct (last_count u items).
    + split; [done | by intros [_ ?]].
    + case_bool_decide as Hu.
      * split; [done | intros [Hne _]; by subst].
      * split; [|done]. intros _. split; [congruence|done].
Qed.

Lemma last_count_distinct u items n :
  NoDup items.*2 -> (n, u) ∈ items -> last_count u items = Some n.
Proof.
  induction items as [|[m u'] items IH]; simpl; intros Hnd Hin.
  - by apply elem_of_nil in Hin.
  - apply NoDup_cons in Hnd as [Hu' Hnd].
    apply elem_of_cons in Hin as [[= <- <-]|Hin].
    + apply last_count_None in Hu'. rewrite Hu'.
      by rewrite bool_decide_eq_true_2.
    + by rewrite (IH Hnd Hin).
Qed.

Lemma last_count_Permutation u items items' :
  NoDup items.*2 -> items ≡ₚ items' ->
  last_count u items' = last_count u items.
Proof.
  intros Hnd Hperm.
  assert (NoDup items'.*2) as Hnd' by (by rewrite <- Hperm).
  destruct (last_count u items) as [n|] eqn:Hl.
  - apply (last_count_distinct u items' n Hnd'). rewrite <- Hperm.
    clear -Hl. induction items as [|[m u'] items IH]; simpl in *; [done|].
    destruct (last_count u items) as [k|] eqn:Hk.
    + injection Hl as ->. apply elem_of_cons; right. by apply IH.
    + case_bool_decide; [|done]. injection Hl as ->. subst.
      by apply elem_of_cons; left.
  - apply last_count_None. apply last_count_None in Hl.
    by rewrite <- Hperm.
Qed.

(** What the [timedelta] constructor returns inside its range. *)
Lemma timedelta_of_in_range items :
  Z.abs (span items / 86400) <= 999999999 ->
  timedelta_of items
  = Ok (mk_timedelta (span items / 86400) (span items mod 86400) 0).
Proof.
  unfold timedelta_of, timedelta_new, span.
  set (w := default 0 (last_count Weeks items)).
  set (d := default 0 (last_count Days items)).
  set (h := default 0 (last_count Hours items)).
  set (m := default 0 (last_count Minutes items)).
  set (sec := default 0 (last_count Seconds items)).
  intros Hr.
  replace (0 / 1000000) with 0 by done.
  replace (0 mod 1000000) with 0 by done.
  replace (0 mod 86400) with 0 by done.
  replace (0 / 86400) with 0 by done.
  rewrite !Z.add_0_r.
  set (s1 := sec + m * 60 + h * 3600).
  replace (w * 604800 + d * 86400 + h * 3600 + m * 60 + sec)
    with (s1 + (d + w * 7) * 86400) in * by (unfold s1; lia).
  rewrite Z.div_add in * by done. rewrite Z.mod_add by done.
  rewrite (Z.div_small (s1 mod 86400)) by (apply Z.mod_pos_bound; lia).
  rewrite Z.mod_mod by done. rewrite Z.add_0_r.
  replace (d + w * 7 + s1 / 86400) with (s1 / 86400 + (d + w * 7)) by lia.
  destruct (999999999 <? Z.abs (s1 / 86400 + (d + w * 7))) eqn:Hlt; [|done].
  apply Z.ltb_lt in Hlt. lia.
Qed.

(** C3 (as the code has it). A duration string whose chunks are
    [<int><unit>], each count being one that [int] reads (of no more
    than 4300 digits), is parsed to the [timedelta] of the counts of the
    units it mentions, the last mention of a unit giving its count.
    When that span stays inside the range of [timedelta] (no more
    than 999999999 days either way) the parser returns it: as many
    whole days and remaining seconds as the counts add up to.  A
    string that mentions each unit once and the same counts in
    another order is parsed to the same result. *)
Theorem duration_counts (ev : dict) (s : string) (items : list (Z * time_unit)) :
  ev !! "event-duration" = Some (VStr s) ->
  Forall2 chunk_denotes (py_split (chars_of s)) items ->
  Z.abs (span items / 86400) <= 999999999 ->
  parse_timedelta ev
    = Ok (mk_timedelta (span items / 86400) (span items mod 86400) 0)
  ∧ (forall (ev' : dict) s' items',
       ev' !! "event-duration" = Some (VStr s') ->
       Forall2 chunk_denotes (py_split (chars_of s')) items' ->
       NoDup items.*2 -> items ≡ₚ items' ->
       parse_timedelta ev' = parse_timedelta ev).
Proof.
  intros Hs Hall Hr. split.
  - rewrite (parse_timedelta_denotes ev s items Hs Hall).
    by apply timedelta_of_in_range.
  - intros ev' s' items' Hs' Hall' Hnd Hperm.
    rewrite (parse_timedelta_denotes ev s items Hs Hall).
    rewrite (parse_timedelta_denotes ev' s' items' Hs' Hall').
    unfold timedelta_of.
    by rewrite !(last_count_Permutation _ items items' Hnd Hperm).
Qed.

End DurationParser.

(* ================================================================== *)
(** * The resolver *)
(* ================================================================== *)

Section Resolver.
Context `{Host}.

(** The annotation [name] the resolver left on the object at [c]. *)
Definition annotation (w : world) (c : nat) (name : string)
    : option datetime :=
  content_attrs (deref w c) !! name.

(** The two timestamps [parse_article] computes from a metadata
    mapping that has an ['event-start']. *)
Definition resolve (md : dict) : result (datetime * datetime) :=
  (dtstart <- parse_tstamp md "event-start" ;;
   dtend <-
     (if contains md "event-end" then parse_tstamp md "event-end"
      else if contains md "event-duration" then
        (dtdelta <- parse_timedelta md ;; datetime_add dtstart dtdelta)
      else
        (title <- getitem md "title" ;;
         Raise (ValueError (end_or_duration_must_be_specified title)))) ;;
   Ok (dtstart, dtend))%res.

(** The world after the four [setattr] calls. *)
Definition attach (c : nat) (dtstart dtend : datetime) (w : world) : world :=
  let o := deref w c in
  mk_world
    (<[c := mk_content (content_metadata o)
        (<["event_end" := dtend]> (<["event_start" := dtstart]>
           (<["event-end" := dtend]> (<["event-start" := dtstart]>
              (content_attrs o)))))]> (heap w))
    (events w) (localized_events w) (files w) (events_list w).

Lemma deref_insert (h : gmap nat content) c o ev loc fs el :
  deref (mk_world (<[c := o]> h) ev loc fs el) c = o.
Proof. unfold deref; simpl. by rewrite lookup_total_insert_eq. Qed.

Lemma setattr_four c s e (w : world) :
  (setattr c "event-start" s ;; setattr c "event-end" e ;;
   setattr c "event_start" s ;; setattr c "event_end" e)%M w
  = (attach c s e w, Ok tt).
Proof.
  unfold bind, setattr, modify, attach; simpl.
  rewrite !deref_insert; simpl.
  by rewrite !insert_insert_eq.
Qed.

Lemma parse_article_resolve c (w : world) :
  let md := content_metadata (deref w c) in
  parse_article c w =
    if contains md "event-start" then
      match resolve md with
      | Ok (s, e) => (attach c s e w, Ok tt)
      | Raise x => (w, Raise x)
      end
    else (w, Ok tt).
Proof.
  intros md. unfold parse_article.
  rewrite bind_gets. fold md.
  destruct (contains md "event-start"); simpl; [|done].
  unfold resolve. rewrite bind_lift.
  destruct (parse_tstamp md "event-start") as [s|x]; simpl; [|done].
  destruct (contains md "event-end").
  - rewrite bind_lift.
    destruct (parse_tstamp md "event-end") as [e|x]; simpl; [|done].
    apply setattr_four.
  - destruct (contains md "event-duration").
    + rewrite bind_assoc, bind_lift.
      destruct (parse_timedelta md) as [d|x]; simpl; [|done].
      rewrite bind_lift.
      destruct (datetime_add s d) as [e|x]; simpl; [|done].
      apply setattr_four.
    + rewrite bind_assoc, bind_lift.
      destruct (getitem md "title") as [t|x]; simpl; [|done].
      by rewrite bind_lift.
Qed.

Lemma attach_metadata c s e (w : world) :
  content_metadata (deref (attach c s e w) c) = content_metadata (deref w c).
Proof. unfold attach. by rewrite deref_insert. Qed.

Lemma attach_annotations c s e (w : world) :
  annotation (attach c s e w) c "event-start" = Some s
  ∧ annotation (attach c s e w) c "event-end" = Some e
  ∧ annotation (attach c s e w) c "event_start" = Some s
  ∧ annotation (attach c s e w) c "event_end" = Some e.
Proof.
  unfold annotation, attach. rewrite deref_insert; simpl.
  repeat split; by simplify_map_eq.
Qed.

Lemma attach_twice c s e (w : world) :
  attach c s e (attach c s e w) = attach c s e w.
Proof.
  unfold attach at 1. rewrite attach_metadata.
  unfold attach at 2 3 4 5 6. simpl.
  unfold attach at 2. simpl.
  unfold attach. rewrite deref_insert; simpl.
  rewrite insert_insert_eq. do 2 f_equal. f_equal.
  apply map_eq; intros k.
  destruct (decide (k = "event_end")) as [->|]; [by simplify_map_eq|].
  destruct (decide (k = "event_start")) as [->|]; [by simplify_map_eq|].
  destruct (decide (k = "event-end")) as [->|]; [by simplify_map_eq|].
  destruct (decide (k = "event-start")) as [->|]; by simplify_map_eq.
Qed.

(** The annotations under both spellings. *)
Definition resolved (w : world) (c : nat) (s e : datetime) : Prop :=
  annotation w c "event-start" = Some s
  ∧ annotation w c "event-end" = Some e
  ∧ annotation w c "event_start" = Some s
  ∧ annotation w c "event_end" = Some e.

(** C1. For a content object whose ['event-start'] parses to [s], the
    end is chosen in this order.  With an ['event-end'], the end is
    what that field parses to, and a failure to parse it is the
    failure of the resolver.  Without it but with an
    ['event-duration'], the end is [s] plus the parsed duration, the
    datetime that much later on the time line; a duration that does
    not parse, or a sum beyond the year 9999, is the failure of the
    resolver.  With neither, the resolver raises the [ValueError] whose
    text names the title of the event. *)
Theorem end_precedence (w : world) (c : nat) (s : datetime) :
  let md := content_metadata (deref w c) in
  parse_tstamp md "event-start" = Ok s ->
  (is_Some (md !! "event-end") ->
     match parse_tstamp md "event-end" with
     | Ok e => exists w', parse_article c w = (w', Ok tt) ∧ resolved w' c s e
     | Raise x => parse_article c w = (w, Raise x)
     end)
  ∧ (md !! "event-end" = None -> is_Some (md !! "event-duration") ->
     match parse_timedelta md with
     | Ok d =>
         match datetime_add s d with
         | Ok e =>
             (exists w', parse_article c w = (w', Ok tt) ∧ resolved w' c s e)
             ∧ instant e = instant s + span_microseconds d
         | Raise x => x = OverflowError ∧ parse_article c w = (w, Raise x)
         end
     | Raise x => parse_article c w = (w, Raise x)
     end)
  ∧ (md !! "event-end" = None -> md !! "event-duration" = None ->
     forall title, md !! "title" = Some title ->
     parse_article c w
     = (w, Raise (ValueError (end_or_duration_must_be_specified title)))).
Proof.
  intros md Hs.
  assert (Hstart : contains md "event-start" = true).
  { apply bool_decide_eq_true. unfold parse_tstamp, getitem in Hs.
    destruct (md !! "event-start"); [by eexists|].
    simpl in Hs. by destruct (md !! "title"). }
  pose proof (parse_article_resolve c w) as Hp. simpl in Hp. fold md in Hp.
  rewrite Hstart in Hp. unfold resolve in Hp. rewrite Hs in Hp. simpl in Hp.
  split; [|split].
  - intros He.
    assert (contains md "event-end" = true) as Hc
      by (by apply bool_decide_eq_true).
    rewrite Hc in Hp.
    destruct (parse_tstamp md "event-end") as [e|x]; simpl in Hp; [|done].
    eexists; split; [done|]. apply attach_annotations.
  - intros He Hd.
    assert (contains md "event-end" = false) as Hc.
    { apply bool_decide_eq_false. rewrite He. by intros [? ?]. }
    assert (contains md "event-duration" = true) as Hc'
      by (by apply bool_decide_eq_true).
    rewrite Hc, Hc' in Hp.
    destruct (parse_timedelta md) as [d|x]; simpl in Hp; [|done].
    pose proof (datetime_add_instant s d (parse_tstamp_valid _ _ _ Hs)) as Hadd.
    destruct (datetime_add s d) as [e|x]; simpl in Hp.
    + split; [|by destruct Hadd].
      eexists; split; [done|]. apply attach_annotations.
    + by destruct Hadd as [-> _].
  - intros He Hd title Ht.
    assert (contains md "event-end" = false) as Hc.
    { apply bool_decide_eq_false. rewrite He. by intros [? ?]. }
    assert (contains md "event-duration" = false) as Hc'.
    { apply bool_decide_eq_false. rewrite Hd. by intros [? ?]. }
    rewrite Hc, Hc' in Hp. unfold getitem in Hp. rewrite Ht in Hp.
    done.
Qed.

(** C9. Where the resolver has returned normally, a second call on
    the same content object returns normally too and leaves the world
    as the first call left it: every annotation, under the hyphenated
    and the underscored spelling, keeps its value. *)
Theorem resolver_idempotent (w w' : world) (c : nat) :
  parse_article c w = (w', Ok tt) ->
  parse_article c w' = (w', Ok tt).
Proof.
  rewrite (parse_article_resolve c w). simpl.
  destruct (contains (content_metadata (deref w c)) "event-start") eqn:Hc.
  - destruct (resolve (content_metadata (deref w c))) as [[s e]|x] eqn:Hr;
      [|done].
    intros [= <-].
    rewrite parse_article_resolve. simpl.
    rewrite attach_metadata, Hc, Hr. by rewrite attach_twice.
  - intros [= <-]. rewrite parse_article_resolve. simpl. by rewrite Hc.
Qed.

End Resolver.

(* ================================================================== *)
(** * The event store *)
(* ================================================================== *)

Section Store.
Context `{Host}.

(** ** Steps that leave the content objects and [events] alone *)

Definition keeps_events {A} (m : M A) : Prop :=
  forall w, heap (m w).1 = heap w ∧ events (m w).1 = events w.

Lemma keeps_ret {A} (a : A) : keeps_events (ret a).
Proof. by intros w. Qed.

Lemma keeps_lift {A} (r : result A) : keeps_events (lift r).
Proof. by intros w. Qed.

Lemma keeps_gets {A} (f : world -> A) : keeps_events (gets f).
Proof. by intros w. Qed.

Lemma keeps_bind {A B} (m : M A) (f : A -> M B) :
  keeps_events m -> (forall a, keeps_events (f a)) -> keeps_events (bind m f).
Proof.
  intros Hm Hf w. unfold bind. specialize (Hm w).
  destruct (m w) as [w1 [a|e]]; simpl in *; [|done].
  destruct (Hf a w1) as [-> ->]. done.
Qed.

Lemma keeps_for_each {A} (l : list A) (body : A -> M unit) :
  (forall a, keeps_events (body a)) -> keeps_events (for_each l body).
Proof.
  intros Hb. induction l as [|a l IH]; simpl.
  - apply keeps_ret.
  - apply keeps_bind; [apply Hb | by intros _].
Qed.

Lemma keeps_on_files f : keeps_events (on_files f).
Proof. intros w. unfold on_files. by destruct (f (files w)). Qed.

Lemma keeps_localized_append k e : keeps_events (localized_append k e).
Proof. by intros w. Qed.

Lemma keeps_generate_localized_events g :
  keeps_events (generate_localized_events g).
Proof.
  unfold generate_localized_events.
  apply keeps_bind; [apply keeps_lift|]. intros plugins.
  case_bool_decide; [|apply keeps_ret].
  apply keeps_bind; [apply keeps_lift|]. intros out.
  apply keeps_bind; [apply keeps_gets|]. intros there.
  apply keeps_bind.
  { destruct there; simpl; [apply keeps_ret | apply keeps_on_files]. }
  intros _. apply keeps_bind; [apply keeps_gets|]. intros evs.
  apply keeps_for_each. intros e.
  destruct (metadata e !! "lang").
  - apply keeps_localized_append.
  - apply keeps_bind; [apply keeps_lift | intros; apply keeps_ret].
Qed.

Lemma keeps_curr_events lang : keeps_events (curr_events lang).
Proof.
  intros w. unfold curr_events. case_bool_decide; [done|].
  by destruct (localized_events w !! VStr lang).
Qed.

Lemma keeps_generate_ical_file g : keeps_events (generate_ical_file g).
Proof.
  unfold generate_ical_file.
  apply keeps_bind; [apply keeps_lift|]. intros pe.
  apply keeps_bind; [apply keeps_lift|]. intros f.
  destruct (negb (truthy f)); [apply keeps_ret|].
  repeat (apply keeps_bind; [apply keeps_lift|]; intros ?).
  apply keeps_bind; [apply keeps_curr_events|]. intros evs.
  apply keeps_bind; [apply keeps_lift|]. intros comps.
  apply keeps_on_files.
Qed.

Lemma keeps_generate_events_list g : keeps_events (generate_events_list g).
Proof. by intros w. Qed.

(** ** The collecting loop *)

(** The event [collect] builds for the object at [c]. *)
Definition event_of (h : gmap nat content) (c : nat) : option Event :=
  let o := h !!! c in
  match content_attrs o !! "event_start", content_attrs o !! "event_end" with
  | Some s, Some e => Some (mk_Event s e (content_metadata o) c)
  | _, _ => None
  end.

(** [events] after the loop over [cs], and how the loop ends. *)
Fixpoint collected (h : gmap nat content) (evs : list Event) (cs : list nat)
    : list Event * result unit :=
  match cs with
  | [] => (evs, Ok tt)
  | c :: cs' =>
      let o := h !!! c in
      match content_attrs o !! "event_start" with
      | None => collected h evs cs'
      | Some s =>
          match content_attrs o !! "event_end" with
          | None => (evs, Raise (AttributeError "event_end"))
          | Some e =>
              let event := mk_Event s e (content_metadata o) c in
              collected h
                (if bool_decide (event ∈ evs) then evs else evs ++ [event])
                cs'
          end
      end
  end.

Lemma collect_collected cs (w : world) :
  collect cs w
  = (mk_world (heap w) (collected (heap w) (events w) cs).1
              (localized_events w) (files w) (events_list w),
     (collected (heap w) (events w) cs).2).
Proof.
  unfold collect. revert w.
  induction cs as [|c cs IH]; intros w; simpl.
  - by destruct w.
  - rewrite bind_assoc, bind_gets. unfold deref.
    destruct (content_attrs (heap w !!! c) !! "event_start") as [s|];
      [|by rewrite bind_ret, IH].
    rewrite bind_assoc, bind_lift.
    destruct (content_attrs (heap w !!! c) !! "event_end") as [e|];
      [|by destruct w].
    rewrite bind_assoc, bind_gets.
    case_bool_decide; simpl.
    + by rewrite bind_ret, IH.
    + unfold events_append. by rewrite bind_modify, IH.
Qed.

Lemma collected_incl h evs cs e :
  e ∈ evs -> e ∈ (collected h evs cs).1.
Proof.
  revert evs. induction cs as [|c cs IH]; intros evs He; simpl; [done|].
  repeat case_match; simpl; auto.
  apply IH. case_bool_decide; [done|]. set_solver.
Qed.

Lemma collected_NoDup h evs cs :
  NoDup evs -> NoDup (collected h evs cs).1.
Proof.
  revert evs. induction cs as [|c cs IH]; intros evs Hn; simpl; [done|].
  repeat case_match; simpl; auto.
  apply IH. case_bool_decide; [done|].
  apply NoDup_app. repeat split; [done| |apply NoDup_singleton].
  intros x Hx Hx'. apply list_elem_of_singleton in Hx'. by subst.
Qed.

Lemma collected_origin h evs cs e :
  e ∈ (collected h evs cs).1 ->
  e ∈ evs ∨ exists c, c ∈ cs ∧ event_of h c = Some e.
Proof.
  revert evs. induction cs as [|c cs IH]; intros evs He; simpl in *; [auto|].
  destruct (content_attrs (h !!! c) !! "event_start") as [s|] eqn:Hs.
  - destruct (content_attrs (h !!! c) !! "event_end") as [t|] eqn:Ht;
      [|auto].
    apply IH in He as [He|(c' & Hc' & He)].
    + case_bool_decide; [auto|].
      apply elem_of_app in He as [He|He]; [auto|].
      apply list_elem_of_singleton in He as ->. right. exists c.
      split; [set_solver|]. unfold event_of. by rewrite Hs, Ht.
    + right. exists c'. split; [set_solver|done].
  - apply IH in He as [He|(c' & Hc' & He)]; [auto|].
    right. exists c'. split; [set_solver|done].
Qed.

Lemma collected_complete h evs cs :
  (forall c, c ∈ cs ->
     is_Some (content_attrs (h !!! c) !! "event_start") ->
     is_Some (content_attrs (h !!! c) !! "event_end")) ->
  (collected h evs cs).2 = Ok tt
  ∧ forall c e, c ∈ cs -> event_of h c = Some e ->
      e ∈ (collected h evs cs).1.
Proof.
  revert evs. induction cs as [|c cs IH]; intros evs Hp; simpl.
  - split; [done|]. intros c e Hc. by apply elem_of_nil in Hc.
  - assert (Hp' : forall c', c' ∈ cs ->
       is_Some (content_attrs (h !!! c') !! "event_start") ->
       is_Some (content_attrs (h !!! c') !! "event_end")).
    { intros c' Hc'. apply Hp. by apply elem_of_cons; right. }
    destruct (content_attrs (h !!! c) !! "event_start") as [s|] eqn:Hs.
    + destruct (Hp c) as [t Ht];
        [by apply elem_of_cons; left | by eexists |].
      rewrite Ht.
      set (evs' := if bool_decide _ then evs else _).
      destruct (IH evs' Hp') as [Hok Hin]. split; [done|].
      intros c' e Hc' He. apply elem_of_cons in Hc' as [->|Hc'].
      * unfold event_of in He. rewrite Hs, Ht in He. injection He as <-.
        apply collected_incl. unfold evs'.
        case_bool_decide; [done|].
        apply elem_of_app; right. by apply list_elem_of_singleton.
      * by apply (Hin c').
    + destruct (IH evs Hp') as [Hok Hin]. split; [done|].
      intros c' e Hc' He. apply elem_of_cons in Hc' as [->|Hc'].
      * unfold event_of in He. by rewrite Hs in He.
      * by apply (Hin c').
Qed.

(** [events] and the heap after [generate_events], whether or not a
    later step of it raises. *)
Lemma generate_events_events g (w : world) :
  heap (generate_events g w).1 = heap w
  ∧ events (generate_events g w).1
    = (collected (heap w) (events w) (generated_content g)).1.
Proof.
  unfold generate_events.
  rewrite (bind_bind_unit (collect _)), collect_collected.
  destruct (collected (heap w) (events w) (generated_content g))
    as [evs [[]|x]]; simpl; [|done].
  set (w1 := mk_world _ _ _ _ _).
  assert (keeps_events
    (generate_localized_events g ;; generate_ical_file g ;;
     generate_events_list g)%M) as Hk.
  { apply keeps_bind; [apply keeps_generate_localized_events|]. intros _.
    apply keeps_bind; [apply keeps_generate_ical_file|]. intros _.
    apply keeps_generate_events_list. }
  by destruct (Hk w1) as [-> ->].
Qed.

(** ** Invariants of the store *)

(** The owner of every stored event carries both timestamps. *)
Definition owners_resolved (w : world) : Prop :=
  forall e, e ∈ events w ->
    is_Some (annotation w (article e) "event_start")
    ∧ is_Some (annotation w (article e) "event_end").

(** Every event of a language's list is in [events]. *)
Definition partitions_within (w : world) : Prop :=
  forall k l e, localized_events w !! k = Some l -> e ∈ l -> e ∈ events w.

(** Every event of a language's list carries that language. *)
Definition partitions_tagged (w : world) : Prop :=
  forall k l e, localized_events w !! k = Some l -> e ∈ l ->
    metadata e !! "lang" = Some k.

Definition store_inv (w : world) : Prop :=
  owners_resolved w ∧ partitions_within w ∧ partitions_tagged w.

(** A content object with a start annotation has an end annotation;
    the resolver writes them together. *)
Definition paired (w : world) (c : nat) : Prop :=
  is_Some (annotation w c "event_start") ->
  is_Some (annotation w c "event_end").

(** The partitions are sound for a fixed heap [h] and list [evs]. *)
Definition partitions_of (h : gmap nat content) (evs : list Event)
    (w : world) : Prop :=
  heap w = h ∧ events w = evs ∧ partitions_within w ∧ partitions_tagged w.

Definition keeps_partitions {A} h evs (m : M A) : Prop :=
  forall w, partitions_of h evs w -> partitions_of h evs (m w).1.

Lemma kp_ret {A} h evs (a : A) : keeps_partitions h evs (ret a).
Proof. by intros w. Qed.

Lemma kp_lift {A} h evs (r : result A) : keeps_partitions h evs (lift r).
Proof. by intros w. Qed.

Lemma kp_gets {A} h evs (f : world -> A) : keeps_partitions h evs (gets f).
Proof. by intros w. Qed.

Lemma kp_bind {A B} h evs (m : M A) (f : A -> M B) :
  keeps_partitions h evs m -> (forall a, keeps_partitions h evs (f a)) ->
  keeps_partitions h evs (bind m f).
Proof.
  intros Hm Hf w Hw. unfold bind. specialize (Hm w Hw).
  destruct (m w) as [w1 [a|e]]; simpl in *; [|done]. by apply Hf.
Qed.

Lemma kp_for_each {A} h evs (l : list A) (body : A -> M unit) :
  (forall a, a ∈ l -> keeps_partitions h evs (body a)) ->
  keeps_partitions h evs (for_each l body).
Proof.
  induction l as [|a l IH]; intros Hb; simpl; [apply kp_ret|].
  apply kp_bind; [apply Hb; by apply elem_of_cons; left|].
  intros _. apply IH. intros b Hb'. apply Hb. by apply elem_of_cons; right.
Qed.

Lemma kp_on_files h evs f : keeps_partitions h evs (on_files f).
Proof. intros w Hw. unfold on_files. by destruct (f (files w)). Qed.

Lemma kp_localized_append h evs k e :
  e ∈ evs -> metadata e !! "lang" = Some k ->
  keeps_partitions h evs (localized_append k e).
Proof.
  intros He Hk w (Hh & Hev & Hin & Htag).
  unfold localized_append, modify; simpl.
  split; [done|]. split; [done|]. split.
  - intros k' l e'. simpl. rewrite lookup_insert.
    case_decide as Hkk.
    + intros [= <-] Hl. apply elem_of_app in Hl as [Hl|Hl].
      * destruct (localized_events w !! k) as [l0|] eqn:Hl0; simpl in Hl.
        -- subst k'. by apply (Hin k l0).
        -- by apply elem_of_nil in Hl.
      * apply list_elem_of_singleton in Hl as ->. by rewrite Hev.
    + apply Hin.
  - intros k' l e'. simpl. rewrite lookup_insert.
    case_decide as Hkk.
    + intros [= <-] Hl. subst k'. apply elem_of_app in Hl as [Hl|Hl].
      * destruct (localized_events w !! k) as [l0|] eqn:Hl0; simpl in Hl.
        -- by apply (Htag k l0).
        -- by apply elem_of_nil in Hl.
      * by apply list_elem_of_singleton in Hl as ->.
    + apply Htag.
Qed.

Lemma kp_generate_localized_events h evs g :
  keeps_partitions h evs (generate_localized_events g).
Proof.
  unfold generate_localized_events.
  apply kp_bind; [apply kp_lift|]. intros plugins.
  case_bool_decide; [|apply kp_ret].
  apply kp_bind; [apply kp_lift|]. intros out.
  apply kp_bind; [apply kp_gets|]. intros there.
  apply kp_bind.
  { destruct there; simpl; [apply kp_ret | apply kp_on_files]. }
  intros _ w Hw. rewrite bind_gets.
  destruct Hw as (Hh & Hev & Hrest). rewrite Hev.
  apply kp_for_each; [|done].
  intros e He. destruct (metadata e !! "lang") as [k|] eqn:Hk.
  - by apply kp_localized_append.
  - apply kp_bind; [apply kp_lift | intros; apply kp_ret].
Qed.

Lemma kp_curr_events h evs lang : keeps_partitions h evs (curr_events lang).
Proof.
  intros w Hw. unfold curr_events. case_bool_decide; [done|].
  destruct (localized_events w !! VStr lang) eqn:Hl; [done|]. simpl.
  destruct Hw as (Hh & Hev & Hin & Htag).
  split; [done|]. split; [done|]. split.
  - intros k l e. simpl. rewrite lookup_insert. case_decide.
    + intros [= <-] He. by apply elem_of_nil in He.
    + apply Hin.
  - intros k l e. simpl. rewrite lookup_insert. case_decide.
    + intros [= <-] He. by apply elem_of_nil in He.
    + apply Htag.
Qed.

Lemma kp_generate_ical_file h evs g :
  keeps_partitions h evs (generate_ical_file g).
Proof.
  unfold generate_ical_file.
  apply kp_bind; [apply kp_lift|]. intros pe.
  apply kp_bind; [apply kp_lift|]. intros f.
  destruct (negb (truthy f)); [apply kp_ret|].
  repeat (apply kp_bind; [apply kp_lift|]; intros ?).
  apply kp_bind; [apply kp_curr_events|]. intros evs'.
  apply kp_bind; [apply kp_lift|]. intros comps.
  apply kp_on_files.
Qed.

Lemma kp_generate_events_list h evs g :
  keeps_partitions h evs (generate_events_list g).
Proof. by intros w Hw. Qed.

Lemma generate_events_partitions g (w : world) :
  partitions_within w -> partitions_tagged w ->
  partitions_within (generate_events g w).1
  ∧ partitions_tagged (generate_events g w).1.
Proof.
  intros Hin Htag. unfold generate_events.
  rewrite (bind_bind_unit (collect _)), collect_collected.
  set (evs := (collected (heap w) (events w) (generated_content g)).1).
  set (w1 := mk_world _ _ _ _ _).
  assert (partitions_of (heap w) evs w1) as Hw1.
  { split; [done|]. split; [done|]. split; [|done].
    intros k l e Hl He. simpl. apply collected_incl. by apply (Hin k l). }
  destruct ((collected _ _ _).2) as [[]|x]; simpl.
  - assert (keeps_partitions (heap w) evs
      (generate_localized_events g ;; generate_ical_file g ;;
       generate_events_list g)%M) as Hk.
    { apply kp_bind; [apply kp_generate_localized_events|]. intros _.
      apply kp_bind; [apply kp_generate_ical_file|]. intros _.
      apply kp_generate_events_list. }
    by destruct (Hk w1 Hw1) as (_ & _ & ? & ?).
  - by destruct Hw1 as (_ & _ & ? & ?).
Qed.

(** The language mapping is sound where [generate_events] calls the
    exporter: after the collecting loop and [generate_localized_events]. *)
Lemma partitions_before_export g (w : world) :
  partitions_within w -> partitions_tagged w ->
  let w1 := ((collect (generated_content g) ;;
              generate_localized_events g)%M w).1 in
  partitions_within w1 ∧ partitions_tagged w1.
Proof.
  intros Hin Htag. rewrite (bind_bind_unit (collect _)), collect_collected.
  set (evs := (collected (heap w) (events w) (generated_content g)).1).
  set (w1 := mk_world _ _ _ _ _).
  assert (partitions_of (heap w) evs w1) as Hw1.
  { split; [done|]. split; [done|]. split; [|done].
    intros k l e Hl He. simpl. apply collected_incl. by apply (Hin k l). }
  destruct ((collected _ _ _).2) as [[]|x]; simpl.
  - by destruct (kp_generate_localized_events (heap w) evs g w1 Hw1)
      as (_ & _ & ? & ?).
  - by destruct Hw1 as (_ & _ & ? & ?).
Qed.

(** The reset and the resolver keep the invariant. *)
Lemma store_inv_initialize_events g (w : world) :
  store_inv (initialize_events g w).1.
Proof.
  split; [|split].
  - intros e He. by apply elem_of_nil in He.
  - intros k l e Hl. simpl in Hl. by rewrite lookup_empty in Hl.
  - intros k l e Hl. simpl in Hl. by rewrite lookup_empty in Hl.
Qed.

Lemma attach_annotation_mono c s e (w : world) c' name :
  is_Some (annotation w c' name) ->
  is_Some (annotation (attach c s e w) c' name).
Proof.
  unfold annotation, attach, deref; simpl. intros Hsome.
  destruct (decide (c' = c)) as [->|Hne].
  - rewrite lookup_total_insert_eq; simpl.
    rewrite !lookup_insert. repeat case_decide; done.
  - by rewrite lookup_total_insert_ne.
Qed.

Lemma store_inv_parse_article c (w : world) :
  store_inv w -> store_inv (parse_article c w).1.
Proof.
  intros Hw. rewrite parse_article_resolve. simpl.
  destruct (contains _ _); [|done].
  destruct (resolve _) as [[s e]|x]; [|done]. simpl.
  destruct Hw as (Ho & Hin & Htag). split; [|done].
  intros ev Hev. destruct (Ho ev Hev) as [Hs He].
  split; by apply attach_annotation_mono.
Qed.

Lemma paired_parse_article c (w : world) :
  (forall c', paired w c') -> forall c', paired (parse_article c w).1 c'.
Proof.
  intros Hw c'. rewrite parse_article_resolve. simpl.
  destruct (contains _ _); [|apply Hw].
  destruct (resolve _) as [[s e]|x]; [|apply Hw]. simpl.
  unfold paired. destruct (decide (c' = c)) as [->|Hne].
  - intros _. destruct (attach_annotations c s e w) as (_ & _ & _ & ->).
    by eexists.
  - unfold annotation, attach, deref; simpl.
    rewrite lookup_total_insert_ne; [|done]. apply Hw.
Qed.

(** C8. After [generate_events], the owner of every stored event
    carries both timestamps, an offered content object has an event in
    the store exactly when it carries both timestamps, and every event
    of a language's list is in the unordered list.  The store is
    assumed sound before the call, as it is after a reset, and the
    offered objects carry their two timestamps together, as the
    resolver leaves them. *)
Theorem store_invariant (w : world) (g : generator) :
  store_inv w ->
  (forall c, c ∈ generated_content g -> paired w c) ->
  let w' := (generate_events g w).1 in
  owners_resolved w'
  ∧ (forall c, c ∈ generated_content g ->
       (exists e, e ∈ events w' ∧ article e = c)
       <-> (is_Some (annotation w' c "event_start")
            ∧ is_Some (annotation w' c "event_end")))
  ∧ (forall k l e, localized_events w' !! k = Some l -> e ∈ l ->
       e ∈ events w').
Proof.
  intros (Ho & Hin & Htag) Hp w'.
  destruct (generate_events_events g w) as [Hheap Hev]. fold w' in Hheap, Hev.
  assert (Hann : forall c n, annotation w' c n = annotation w c n).
  { intros c n. unfold annotation, deref. by rewrite Hheap. }
  assert (Horigin : forall e, e ∈ events w' ->
            is_Some (annotation w (article e) "event_start")
            ∧ is_Some (annotation w (article e) "event_end")).
  { intros e He. rewrite Hev in He.
    apply collected_origin in He as [He|(c & Hc & He)]; [by apply Ho|].
    unfold event_of in He. unfold annotation, deref.
    destruct (content_attrs (heap w !!! c) !! "event_start") eqn:Hs;
      [|done].
    destruct (content_attrs (heap w !!! c) !! "event_end") eqn:Ht; [|done].
    injection He as <-. simpl. rewrite Hs, Ht. split; by eexists. }
  split; [|split].
  - intros e He. rewrite !Hann. by apply Horigin.
  - intros c Hc. rewrite !Hann. split.
    + intros (e & He & <-). by apply Horigin.
    + intros [[s Hs] [t Ht]].
      exists (mk_Event s t (content_metadata (heap w !!! c)) c).
      split; [|done]. rewrite Hev.
      apply (collected_complete (heap w) (events w) (generated_content g))
        with (c := c); [|done|].
      * intros c' Hc'. apply (Hp c' Hc').
      * unfold event_of. unfold annotation, deref in Hs, Ht.
        by rewrite Hs, Ht.
  - by apply generate_events_partitions.
Qed.

(** C4. Offering the same content object to two calls of
    [generate_events] with no reset between them leaves one event for
    it in [events], and [events] holds no event twice.  After
    [initialize_events] the list and the language mapping are empty,
    and the next call collects into the empty list. *)
Theorem collect_dedup_reset (w : world) (g : generator) (c : nat) (ev : Event) :
  NoDup (events w) ->
  (forall c', c' ∈ generated_content g -> paired w c') ->
  c ∈ generated_content g ->
  event_of (heap w) c = Some ev ->
  let w2 := (generate_events g (generate_events g w).1).1 in
  let w0 := (initialize_events g w2).1 in
  count_occ Event_eq_dec (events w2) ev = 1%nat
  ∧ NoDup (events w2)
  ∧ events w0 = [] ∧ localized_events w0 = ∅
  ∧ events (generate_events g w0).1
    = (collected (heap w) [] (generated_content g)).1.
Proof.
  intros Hnd Hp Hc Hev w2 w0.
  destruct (generate_events_events g w) as [Hh1 He1].
  destruct (generate_events_events g (generate_events g w).1) as [Hh2 He2].
  fold w2 in Hh2, He2. rewrite Hh1 in Hh2, He2.
  assert (NoDup (events w2)) as Hnd2.
  { rewrite He2. apply collected_NoDup. rewrite He1.
    by apply collected_NoDup. }
  assert (ev ∈ events w2) as Hin.
  { rewrite He2.
    apply (collected_complete (heap w) _ (generated_content g))
      with (c := c); [|done|done].
    intros c' Hc'. apply (Hp c' Hc'). }
  split; [|split; [done|]].
  - apply NoDup_count_occ'; [by apply NoDup_ListNoDup|].
    by apply list_elem_of_In.
  - split; [done|]. split; [done|].
    destruct (generate_events_events g w0) as [_ ->]. simpl.
    by rewrite Hh2.
Qed.

End Store.

(* ================================================================== *)
(** * The published listing *)
(* ================================================================== *)

Section Comparisons.

(** A three-way comparison that is an order: swapping the arguments
    flips the answer, [Eq] can be replaced on either side, and [Lt]
    is transitive. *)
Record order_cmp {A} (f : A -> A -> comparison) : Prop := {
  cmp_opp a b : f b a = CompOpp (f a b);
  cmp_eq_l a b c : f a b = Eq -> f a c = f b c;
  cmp_lt_trans a b c : f a b = Lt -> f b c = Lt -> f a c = Lt
}.

Lemma cmp_eq_r {A} (f : A -> A -> comparison) :
  order_cmp f -> forall a b c, f b c = Eq -> f a b = f a c.
Proof.
  intros Hf a b c Hbc.
  rewrite (cmp_opp f Hf b a), (cmp_opp f Hf c a). f_equal.
  by apply (cmp_eq_l f Hf).
Qed.

Lemma order_cmp_Z {A} (p : A -> Z) : order_cmp (fun a b => p a ?= p b).
Proof.
  split.
  - intros a b. apply Z.compare_antisym.
  - intros a b c Hab. apply Z.compare_eq in Hab. by rewrite Hab.
  - intros a b c. rewrite !Z.compare_lt_iff. lia.
Qed.

Lemma order_cmp_lex {A} (f g : A -> A -> comparison) :
  order_cmp f -> order_cmp g -> order_cmp (fun a b => lex (f a b) (g a b)).
Proof.
  intros Hf Hg. split.
  - intros a b. rewrite (cmp_opp f Hf a b), (cmp_opp g Hg a b).
    by destruct (f a b), (g a b).
  - intros a b c. unfold lex.
    destruct (f a b) eqn:Hab; try done. intros Hg'.
    rewrite (cmp_eq_l f Hf a b c Hab).
    by rewrite (cmp_eq_l g Hg a b c Hg').
  - intros a b c. unfold lex.
    destruct (f a b) eqn:Hab; try done.
    + rewrite (cmp_eq_l f Hf a b c Hab).
      destruct (f b c); try done. apply (cmp_lt_trans g Hg).
    + intros _. destruct (f b c) eqn:Hbc; try done.
      * by rewrite <- (cmp_eq_r f Hf a b c Hbc), Hab.
      * by rewrite (cmp_lt_trans f Hf a b c Hab Hbc).
Qed.

Lemma order_cmp_on {A B} (p : A -> B) (f : B -> B -> comparison) :
  order_cmp f -> order_cmp (fun a b => f (p a) (p b)).
Proof.
  intros Hf. split; intros; by eauto using cmp_opp, cmp_eq_l, cmp_lt_trans.
Qed.

Lemma datetime_cmp_order : order_cmp datetime_cmp.
Proof.
  unfold datetime_cmp.
  repeat (apply (order_cmp_lex (fun a b => _ a ?= _ b));
          [apply (order_cmp_Z _)|]).
  apply (order_cmp_Z microsecond).
Qed.

Lemma datetime_cmp_eq a b : datetime_cmp a b = Eq <-> a = b.
Proof.
  split.
  - unfold datetime_cmp, lex. destruct a, b; simpl.
    repeat (match goal with
            | |- context [?x ?= ?y] =>
                destruct (Z.compare_spec x y); subst; try done
            end).
  - intros ->. unfold datetime_cmp. by rewrite !Z.compare_refl.
Qed.

Lemma key_cmp_order : order_cmp (fun a b : Event => key_cmp (key a) (key b)).
Proof.
  unfold key_cmp, key. simpl.
  apply (order_cmp_lex (fun a b => datetime_cmp (dtstart a) (dtstart b))
                       (fun a b => datetime_cmp (dtend a) (dtend b)));
    apply order_cmp_on, datetime_cmp_order.
Qed.

End Comparisons.

Section Sorting.

(** [a] may stand before [b] in a list that descends: the key of [a]
    is not below the key of [b]. *)
Definition not_below (a b : Event) : Prop := key_lt a b = false.

(** The same in the words of the rule: [a] starts later than [b], or
    they start together and [a] does not end before [b]. *)
Definition later_or_equal (a b : Event) : Prop :=
  datetime_cmp (dtstart a) (dtstart b) = Gt
  ∨ (dtstart a = dtstart b ∧ datetime_cmp (dtend a) (dtend b) <> Lt).

Lemma not_below_later_or_equal a b : not_below a b <-> later_or_equal a b.
Proof.
  unfold not_below, later_or_equal, key_lt, key_cmp, key, lex. simpl.
  destruct (datetime_cmp (dtstart a) (dtstart b)) eqn:Hs.
  - apply datetime_cmp_eq in Hs.
    destruct (datetime_cmp (dtend a) (dtend b));
      intuition (try congruence).
  - split; [done|]. intros [?|[Heq _]]; [done|].
    apply datetime_cmp_eq in Heq. congruence.
  - split; [by left | done].
Qed.

Definition descending (l : list Event) : Prop := StronglySorted not_below l.
Definition ascending (l : list Event) : Prop :=
  StronglySorted (flip not_below) l.

Lemma key_lt_asym a b : key_lt a b = true -> key_lt b a = false.
Proof.
  unfold key_lt. rewrite (cmp_opp _ key_cmp_order a b).
  by destruct (key_cmp (key a) (key b)).
Qed.

Lemma not_below_trans a b c : not_below a b -> not_below b c -> not_below a c.
Proof.
  unfold not_below, key_lt. intros Hab Hbc.
  destruct (key_cmp (key a) (key c)) eqn:Hac; try done.
  destruct (key_cmp (key a) (key b)) eqn:Hab'; try done.
  - by rewrite <- (cmp_eq_l _ key_cmp_order a b c Hab'), Hac in Hbc.
  - assert (key_cmp (key b) (key a) = Lt) as Hba
      by (by rewrite (cmp_opp _ key_cmp_order a b), Hab').
    by rewrite (cmp_lt_trans _ key_cmp_order b a c Hba Hac) in Hbc.
Qed.

Lemma insort_Permutation x l : insort x l ≡ₚ x :: l.
Proof.
  induction l as [|y l IH]; simpl; [done|].
  destruct (key_lt y x); [|done].
  by rewrite IH, Permutation_swap.
Qed.

Lemma insort_ascending x l : ascending l -> ascending (insort x l).
Proof.
  unfold ascending. induction l as [|y l IH]; intros Hl; simpl.
  - repeat constructor.
  - apply StronglySorted_cons in Hl as [Hy Hl].
    destruct (key_lt y x) eqn:Hyx.
    + apply StronglySorted_cons. split; [|by apply IH].
      rewrite insort_Permutation. constructor; [|done].
      by apply key_lt_asym.
    + apply StronglySorted_cons. split.
      * constructor; [done|].
        eapply Forall_impl; [exact Hy|]. intros z Hz.
        unfold flip in *. by apply (not_below_trans z y x).
      * by apply StronglySorted_cons.
Qed.

Lemma sort_ascending_Permutation l : sort_ascending l ≡ₚ l.
Proof.
  induction l as [|x l IH]; simpl; [done|].
  by rewrite insort_Permutation, IH.
Qed.

Lemma sort_ascending_ascending l : ascending (sort_ascending l).
Proof.
  induction l as [|x l IH]; simpl; [constructor|].
  by apply insort_ascending.
Qed.

(** A stable sort leaves a sorted list as it is. *)
Lemma sort_ascending_fixed l : ascending l -> sort_ascending l = l.
Proof.
  unfold ascending. induction l as [|x l IH]; intros Hl; simpl; [done|].
  apply StronglySorted_cons in Hl as [Hx Hl]. rewrite (IH Hl).
  destruct l as [|y l']; simpl; [done|].
  apply Forall_cons in Hx as [Hy _]. unfold flip, not_below in Hy.
  by rewrite Hy.
Qed.

Lemma StronglySorted_rev {A} (R : relation A) l :
  StronglySorted R l -> StronglySorted (flip R) (rev l).
Proof.
  induction l as [|x l IH]; intros Hl; simpl; [constructor|].
  apply StronglySorted_cons in Hl as [Hx Hl].
  apply StronglySorted_app. split; [|split].
  - intros a b Ha Hb. apply list_elem_of_singleton in Hb as ->.
    unfold flip. rewrite Forall_forall in Hx. apply Hx.
    apply list_elem_of_In, in_rev, list_elem_of_In in Ha. done.
  - by apply IH.
  - repeat constructor.
Qed.

Lemma sorted_reverse_descending l : descending (sorted_reverse l).
Proof.
  unfold descending, sorted_reverse.
  apply (StronglySorted_rev (flip not_below)), sort_ascending_ascending.
Qed.

Lemma sorted_reverse_Permutation l : sorted_reverse l ≡ₚ l.
Proof.
  unfold sorted_reverse.
  rewrite <- Permutation_rev, sort_ascending_Permutation.
  by rewrite <- Permutation_rev.
Qed.

Lemma sorted_reverse_fixed l : descending l -> sorted_reverse l = l.
Proof.
  intros Hl. unfold sorted_reverse.
  rewrite sort_ascending_fixed; [apply rev_involutive|].
  by apply StronglySorted_rev.
Qed.

End Sorting.

Section Publisher.
Context `{Host}.

(** C5. The listing [generate_events_list] publishes is the single
    list when no language has a list, and one list per language
    otherwise.  Each published list holds the events it was made from,
    descends in (start, end): an event never stands before one that
    starts later, or that starts at the same time and ends later; and
    sorting it again gives the same list. *)
Theorem listing_sorted (w : world) (g : generator) :
  match events_list (generate_events_list g w).1 with
  | Some (GlobalList l) =>
      localized_events w = ∅
      ∧ l ≡ₚ events w
      ∧ StronglySorted later_or_equal l
      ∧ sorted_reverse l = l
  | Some (PerLanguage m) =>
      localized_events w <> ∅
      ∧ dom m = dom (localized_events w)
      ∧ forall k l, m !! k = Some l ->
          (exists l0, localized_events w !! k = Some l0 ∧ l ≡ₚ l0)
          ∧ StronglySorted later_or_equal l
          ∧ sorted_reverse l = l
  | None => False
  end.
Proof.
  assert (Hdesc : forall l, StronglySorted later_or_equal (sorted_reverse l)).
  { intros l. pose proof (sorted_reverse_descending l) as Hd.
    unfold descending in Hd.
    induction Hd as [|a l' Hl' IH Ha]; constructor; [done|].
    eapply Forall_impl; [exact Ha|]. intros b.
    apply not_below_later_or_equal. }
  simpl. case_bool_decide as Hloc.
  - split; [done|]. split; [apply sorted_reverse_Permutation|].
    split; [apply Hdesc|].
    apply sorted_reverse_fixed, sorted_reverse_descending.
  - split; [done|]. split; [apply dom_fmap_L|].
    intros k l. rewrite lookup_fmap.
    destruct (localized_events w !! k) as [l0|] eqn:Hk; [|done].
    intros [= <-]. split; [|split].
    + exists l0. split; [done|]. apply sorted_reverse_Permutation.
    + apply Hdesc.
    + apply sorted_reverse_fixed, sorted_reverse_descending.
Qed.

End Publisher.

(* ================================================================== *)
(** * The calendar exporter *)
(* ================================================================== *)

Section Exporter.
Context `{Host}.

(** The settings enable the export: a file name that is a non-empty
    string, and the other settings the exporter reads. *)
Record configured (g : generator)
    (name output_path tzname siteurl lang : string) : Prop := {
  cfg_plugin_events :
    exists pe, PLUGIN_EVENTS (gen_settings g) = Some pe
               ∧ pe !! "ics_fname" = Some (VStr name);
  cfg_name : name <> "";
  cfg_output_path : OUTPUT_PATH (gen_settings g) = Some output_path;
  cfg_timezone : TIMEZONE (gen_settings g) = Some tzname;
  cfg_siteurl : SITEURL (gen_settings g) = Some siteurl;
  cfg_default_lang : DEFAULT_LANG (gen_settings g) = Some lang
}.

(** The events the exporter serializes. *)
Definition selected_events (lang : string) (w : world) : list Event :=
  if bool_decide (localized_events w = ∅) then events w
  else default [] (localized_events w !! VStr lang).

(** The world after the exporter has read the language mapping. *)
Definition after_lookup (lang : string) (w : world) : world :=
  if bool_decide (localized_events w = ∅) then w
  else match localized_events w !! VStr lang with
       | Some _ => w
       | None =>
           mk_world (heap w) (events w)
             (<[VStr lang := []]> (localized_events w))
             (files w) (events_list w)
       end.

Lemma curr_events_selected lang (w : world) :
  curr_events lang w = (after_lookup lang w, Ok (selected_events lang w)).
Proof.
  unfold curr_events, after_lookup, selected_events.
  case_bool_decide; [done|].
  by destruct (localized_events w !! VStr lang).
Qed.

Lemma after_lookup_files lang (w : world) :
  files (after_lookup lang w) = files w.
Proof.
  unfold after_lookup. case_bool_decide; [done|].
  by destruct (localized_events w !! VStr lang).
Qed.

Lemma generate_ical_file_configured g name out tzname siteurl lang tz
    (w : world) :
  configured g name out tzname siteurl lang ->
  pytz_timezone tzname = Ok tz ->
  generate_ical_file g w =
    match ical_events g tz siteurl (selected_events lang w) with
    | Ok comps =>
        on_files (fun fs =>
          write_binary fs (os_path_join out name)
            (to_ical (mk_calendar ical_header comps)))
          (after_lookup lang w)
    | Raise x => (after_lookup lang w, Raise x)
    end.
Proof.
  intros [(pe & Hpe & Hname) Hne Hout Htz Hurl Hlang] Hpytz.
  unfold generate_ical_file.
  rewrite Hpe, Hout, Htz, Hurl, Hlang. simpl.
  rewrite bind_lift. unfold getitem at 1. rewrite Hname.
  rewrite bind_lift. simpl.
  rewrite (bool_decide_eq_false_2 (name = "") Hne). simpl.
  rewrite !bind_lift, Hpytz, !bind_lift.
  rewrite bind_bind_unit, curr_events_selected.
  rewrite bind_lift.
  by destruct (ical_events g tz siteurl (selected_events lang w)).
Qed.

Lemma ical_events_Forall2 g tz siteurl l comps :
  ical_events g tz siteurl l = Ok comps ->
  Forall2 (fun e ie => ical_event g tz siteurl e = Ok ie) l comps.
Proof.
  revert comps. induction l as [|e l IH]; intros comps; simpl.
  - intros [= <-]. constructor.
  - destruct (ical_event g tz siteurl e) as [ie|] eqn:He; simpl; [|done].
    destruct (ical_events g tz siteurl l) as [rest|]; simpl; [|done].
    intros [= <-]. constructor; [done|]. by apply IH.
Qed.

(** C6 (as the code has it). With a calendar file name that is [None]
    or the empty string, the exporter returns normally and leaves the
    world, its file system included, as it was. *)
Theorem export_disabled (w : world) (g : generator) (pe : dict) (f : pyval) :
  PLUGIN_EVENTS (gen_settings g) = Some pe ->
  pe !! "ics_fname" = Some f ->
  truthy f = false ->
  generate_ical_file g w = (w, Ok tt).
Proof.
  intros Hpe Hf Ht. unfold generate_ical_file.
  rewrite Hpe. simpl. rewrite bind_lift. unfold getitem. rewrite Hf.
  rewrite bind_lift. by rewrite Ht.
Qed.

(** C7 (as the code has it). With the export enabled, the calendar
    written holds one component for each selected event, in order, and
    nothing else; the selected events are the list of the default
    language when some language has a list, and the whole unordered
    list otherwise.  In the first case every selected event carries
    the default language, provided the language mapping is the
    partition that [generate_localized_events] builds. *)
Theorem export_selection (w : world) (g : generator)
    (name out tzname siteurl lang : string) (tz : tzinfo)
    (comps : list component) :
  configured g name out tzname siteurl lang ->
  pytz_timezone tzname = Ok tz ->
  ical_events g tz siteurl (selected_events lang w) = Ok comps ->
  selected_events lang w
    = (if bool_decide (localized_events w = ∅) then events w
       else default [] (localized_events w !! VStr lang))
  ∧ Forall2 (fun e ie => ical_event g tz siteurl e = Ok ie)
            (selected_events lang w) comps
  ∧ (let written :=
       write_binary (files w) (os_path_join out name)
         (to_ical (mk_calendar ical_header comps)) in
     files (generate_ical_file g w).1 = written.1
     ∧ (generate_ical_file g w).2 = written.2)
  ∧ (localized_events w <> ∅ -> partitions_tagged w ->
     forall e, e ∈ selected_events lang w ->
       metadata e !! "lang" = Some (VStr lang)).
Proof.
  intros Hcfg Htz Hcomps. split; [done|].
  split; [by apply ical_events_Forall2|]. split.
  - rewrite (generate_ical_file_configured g name out tzname siteurl lang tz)
      by done.
    rewrite Hcomps. unfold on_files. rewrite after_lookup_files.
    by destruct (write_binary _ _ _).
  - intros Hne Htag e. unfold selected_events.
    rewrite (bool_decide_eq_false_2 _ Hne).
    destruct (localized_events w !! VStr lang) as [l|] eqn:Hl; simpl.
    + by apply (Htag (VStr lang) l).
    + intros He. by apply elem_of_nil in He.
Qed.

(** C10. Some language has a list, and no stored event carries the
    default language.  Then the exporter finds no event under the
    default language, leaves an empty list under it in the mapping,
    and writes one calendar: its document fields are [prodid],
    [version] and [METHOD] with the values the code gives them, in
    that order, and it has no component.  The exporter raises only if
    the write itself does. *)
Theorem export_default_language_missing (w : world) (g : generator)
    (name out tzname siteurl lang : string) (tz : tzinfo) :
  configured g name out tzname siteurl lang ->
  pytz_timezone tzname = Ok tz ->
  localized_events w <> ∅ ->
  partitions_within w -> partitions_tagged w ->
  (forall e, e ∈ events w -> metadata e !! "lang" <> Some (VStr lang)) ->
  let document :=
    mk_calendar
      [("prodid", VStr "-//pelican/events//mxm.dk//EN");
       ("version", VStr "2.0");
       ("METHOD", VStr "PUBLISH")]
      [] in
  let written :=
    write_binary (files w) (os_path_join out name) (to_ical document) in
  selected_events lang w = []
  ∧ files (generate_ical_file g w).1 = written.1
  ∧ (generate_ical_file g w).2 = written.2
  ∧ localized_events (generate_ical_file g w).1 !! VStr lang = Some [].
Proof.
  intros Hcfg Htz Hne Hin Htag Hnone document written.
  assert (Hsel : selected_events lang w = []).
  { unfold selected_events. rewrite (bool_decide_eq_false_2 _ Hne).
    destruct (localized_events w !! VStr lang) as [[|e l]|] eqn:Hl;
      simpl; try done.
    exfalso. apply (Hnone e).
    - apply (Hin (VStr lang) (e :: l)); [done|]. by apply elem_of_cons; left.
    - apply (Htag (VStr lang) (e :: l)); [done|]. by apply elem_of_cons; left. }
  split; [done|].
  rewrite (generate_ical_file_configured g name out tzname siteurl lang tz)
    by done.
  rewrite Hsel. simpl. unfold on_files. rewrite after_lookup_files.
  change (mk_calendar ical_header []) with document.
  fold written. destruct written as [fs r]. simpl.
  split; [done|]. split; [done|].
  unfold after_lookup. rewrite (bool_decide_eq_false_2 _ Hne).
  unfold selected_events in Hsel. rewrite (bool_decide_eq_false_2 _ Hne) in Hsel.
  destruct (localized_events w !! VStr lang) as [l|] eqn:Hl; simpl in *.
  - by rewrite Hl, Hsel.
  - by rewrite lookup_insert_eq.
Qed.

End Exporter.

(* ================================================================== *)
(** * Concrete runs *)
(* ================================================================== *)

Module Runs.
Import SmallHost.

Definition talk : dict :=
  {[ "title" := VStr "Talk";
     "event-start" := VStr "2024-01-01 10:00";
     "event-duration" := VStr "2h" ]}.

Definition t_10_00 : datetime := mk_datetime 2024 1 1 10 0 0 0.
Definition t_12_00 : datetime := mk_datetime 2024 1 1 12 0 0 0.

(** Start 2024-01-01 10:00 with duration "2h": the end is 12:00. *)
Lemma end_precedence_witness :
  parse_tstamp talk "event-start" = Ok t_10_00
  ∧ parse_timedelta talk = Ok (mk_timedelta 0 7200 0)
  ∧ datetime_add t_10_00 (mk_timedelta 0 7200 0) = Ok t_12_00
  ∧ exists w', parse_article 0 (world_of [talk]) = (w', Ok tt)
               ∧ resolved w' 0 t_10_00 t_12_00.
Proof.
  assert (parse_tstamp talk "event-start" = Ok t_10_00) as Hs
    by (vm_compute; reflexivity).
  split; [exact Hs|]. split; [vm_compute; reflexivity|].
  split; [vm_compute; reflexivity|].
  destruct (end_precedence (world_of [talk]) 0 t_10_00 Hs) as (_ & Hd & _).
  exact (proj1 (Hd eq_refl (ex_intro _ (VStr "2h") eq_refl))).
Defined.

Lemma resolver_idempotent_witness :
  parse_article 0 (world_of [talk])
  = ((parse_article 0 (world_of [talk])).1, Ok tt)
  ∧ parse_article 0 (parse_article 0 (world_of [talk])).1
    = ((parse_article 0 (world_of [talk])).1, Ok tt).
Proof.
  assert (parse_article 0 (world_of [talk])
          = ((parse_article 0 (world_of [talk])).1, Ok tt)) as Hfirst
    by (vm_compute; reflexivity).
  split; [exact Hfirst|].
  exact (resolver_idempotent (world_of [talk]) _ 0 Hfirst).
Defined.

(** ** Timestamps *)




(** ** Durations *)

Definition with_duration (s : string) : dict :=
  {[ "title" := VStr "Talk"; "event-duration" := VStr s ]}.

Lemma duration_counts_witness :
  Forall2 chunk_denotes (py_split (chars_of "2h 30m")) [(2, Hours); (30, Minutes)]
  ∧ parse_timedelta (with_duration "2h 30m") = Ok (mk_timedelta 0 9000 0).
Proof.
  assert (Forall2 chunk_denotes (py_split (chars_of "2h 30m"))
            [(2, Hours); (30, Minutes)]) as Hchunks.
  { repeat constructor.
    - by exists (chars_of "2").
    - by exists (chars_of "30"). }
  split; [exact Hchunks|].
  refine (proj1 (duration_counts (with_duration "2h 30m") "2h 30m"
                   [(2, Hours); (30, Minutes)] eq_refl Hchunks _)).
  vm_compute. discriminate.
Defined.

(** A unit mentioned twice: the last count stands. *)
Example duration_last_wins :
  parse_timedelta (with_duration "1d 1d") = Ok (mk_timedelta 1 0 0)
  ∧ parse_timedelta (with_duration "3d 1d") = Ok (mk_timedelta 1 0 0).
Proof. split; vm_compute; reflexivity. Qed.

(** A count of days beyond the range of [timedelta]. *)
Lemma duration_out_of_range :
  Forall2 chunk_denotes (py_split (chars_of "1000000000d"))
    [(1000000000, Days)]
  ∧ parse_timedelta (with_duration "1000000000d") = Raise OverflowError.
Proof.
  split; [|vm_compute; reflexivity].
  repeat constructor. by exists (chars_of "1000000000").
Qed.

(** ** The store *)

Definition en_talk : dict :=
  {[ "title" := VStr "Talk";
     "slug" := VStr "talk-en";
     "lang" := VStr "en";
     "date" := VDatetime (mk_datetime 2023 12 1 8 0 0 0);
     "event-start" := VStr "2024-01-01 10:00";
     "event-duration" := VStr "2h" ]}.

Definition de_talk : dict :=
  {[ "title" := VStr "Vortrag";
     "slug" := VStr "talk-de";
     "lang" := VStr "de";
     "date" := VDatetime (mk_datetime 2023 12 1 8 0 0 0);
     "event-start" := VStr "2024-01-01 10:00";
     "event-end" := VStr "2024-01-01 12:00" ]}.

Definition site (ics_fname : option pyval) (plugins : list pyval) : settings :=
  mk_settings ((fun f => {[ "ics_fname" := f ]}) <$> ics_fname)
    (Some "out") (Some "UTC") (Some "") (Some "en") (Some "site")
    (Some plugins).

Definition e_en : Event := mk_Event t_10_00 t_12_00 en_talk 0.
Definition e_de : Event := mk_Event t_10_00 t_12_00 de_talk 1.

(** One resolved content object, offered twice. *)
Definition resolved_world : world :=
  (parse_article 0 (world_of [en_talk])).1.

Definition plain_generator : generator :=
  mk_generator (site (Some (VStr "cal.ics")) []) [0%nat].

Lemma resolved_world_paired c :
  c ∈ generated_content plain_generator -> paired resolved_world c.
Proof.
  intros Hc. apply list_elem_of_singleton in Hc as ->.
  intros _. vm_compute. by eexists.
Qed.

Lemma collect_dedup_reset_witness :
  NoDup (events resolved_world)
  ∧ event_of (heap resolved_world) 0 = Some e_en
  ∧ count_occ Event_eq_dec
      (events (generate_events plain_generator
                 (generate_events plain_generator resolved_world).1).1)
      e_en = 1%nat.
Proof.
  assert (NoDup (events resolved_world)) as Hnd by apply NoDup_nil_2.
  assert (event_of (heap resolved_world) 0 = Some e_en) as Hev
    by (vm_compute; reflexivity).
  split; [exact Hnd|]. split; [exact Hev|].
  exact (proj1 (collect_dedup_reset resolved_world plain_generator 0 e_en
                  Hnd resolved_world_paired
                  (list_elem_of_here 0%nat []) Hev)).
Defined.

(** With the multi-locale plugin active, the second call appends the
    event to the list of its language once more: the unordered list is
    kept free of duplicates, a language's list is not. *)
Example language_list_appended_twice :
  let g := mk_generator (site (Some (VStr "cal.ics")) [VStr "i18n_subsites"])
             [0%nat] in
  let w2 := (generate_events g (generate_events g resolved_world).1).1 in
  events w2 = [e_en] ∧ localized_events w2 !! VStr "en" = Some [e_en; e_en].
Proof. vm_compute. split; reflexivity. Qed.

Lemma resolved_world_inv : store_inv resolved_world.
Proof.
  apply store_inv_parse_article. split; [|split].
  - intros e He. by apply elem_of_nil in He.
  - intros k l e Hl. simpl in Hl. by rewrite lookup_empty in Hl.
  - intros k l e Hl. simpl in Hl. by rewrite lookup_empty in Hl.
Qed.

Lemma store_invariant_witness :
  store_inv resolved_world
  ∧ ((exists e, e ∈ events (generate_events plain_generator resolved_world).1
               ∧ article e = 0%nat)
     <-> (is_Some (annotation (generate_events plain_generator resolved_world).1
                     0 "event_start")
          ∧ is_Some (annotation (generate_events plain_generator resolved_world).1
                       0 "event_end"))).
Proof.
  split; [exact resolved_world_inv|].
  destruct (store_invariant resolved_world plain_generator resolved_world_inv
              resolved_world_paired) as (_ & Hiff & _).
  exact (Hiff 0%nat (list_elem_of_here 0%nat [])).
Defined.

(** ** The exporter *)

(** An empty file name disables the export. *)
Lemma export_disabled_witness :
  truthy (VStr "") = false
  ∧ generate_ical_file (mk_generator (site (Some (VStr "")) []) [0%nat])
      resolved_world
    = (resolved_world, Ok tt).
Proof.
  split; [reflexivity|].
  exact (export_disabled resolved_world
           (mk_generator (site (Some (VStr "")) []) [0%nat])
           {[ "ics_fname" := VStr "" ]} (VStr "") eq_refl eq_refl eq_refl).
Defined.

(** A settings mapping without the file name, or without the plugin's
    own mapping: the exporter raises [KeyError]. *)
Lemma export_absent_setting_raises :
  generate_ical_file (mk_generator (site None []) [0%nat]) resolved_world
  = (resolved_world, Raise (KeyError "PLUGIN_EVENTS"))
  ∧ generate_ical_file
      (mk_generator
         (mk_settings (Some ∅) (Some "out") (Some "UTC") (Some "")
            (Some "en") (Some "site") (Some []))
         [0%nat])
      resolved_world
    = (resolved_world, Raise (KeyError "ics_fname")).
Proof. split; reflexivity. Qed.

(** Two languages, each with its list. *)
Definition two_languages : world :=
  mk_world
    (list_to_map [(0%nat, mk_content en_talk ∅); (1%nat, mk_content de_talk ∅)])
    [e_en; e_de]
    {[ VStr "en" := [e_en]; VStr "de" := [e_de] ]}
    ∅ None.

Lemma plain_generator_configured :
  configured plain_generator "cal.ics" "out" "UTC" "" "en".
Proof.
  split; try reflexivity; [|done].
  eexists. split; reflexivity.
Qed.

Definition en_component : component :=
  mk_component
    [("summary", VStr "Talk"); ("dtstart", VStr ""); ("dtend", VStr "");
     ("dtstamp", VStr ""); ("uid", VStr "talk-en@site");
     ("CLASS", VStr "PUBLIC"); ("DESCRIPTION", VStr "")].

Lemma export_selection_witness :
  ical_events plain_generator tt "" (selected_events "en" two_languages)
  = Ok [en_component]
  ∧ selected_events "en" two_languages = [e_en]
  ∧ files (generate_ical_file plain_generator two_languages).1 !! "out/cal.ics"
    = Some "VCALENDAR(prodid=-//pelican/events//mxm.dk//EN;version=2.0;METHOD=PUBLISH;|talk-en@site;)".
Proof.
  assert (ical_events plain_generator tt ""
            (selected_events "en" two_languages) = Ok [en_component]) as Hc
    by (vm_compute; reflexivity).
  split; [exact Hc|]. split; [vm_compute; reflexivity|].
  destruct (export_selection two_languages plain_generator
              "cal.ics" "out" "UTC" "" "en" tt [en_component]
              plain_generator_configured eq_refl Hc)
    as (_ & _ & [Hfiles _] & _).
  rewrite Hfiles. vm_compute. reflexivity.
Defined.

(** Without the multi-locale plugin the whole list is exported; here it
    holds an English and a German event, and both are in the calendar. *)
Definition both_resolved : world :=
  (parse_article 1 (parse_article 0 (world_of [en_talk; de_talk])).1).1.

Definition both_generator : generator :=
  mk_generator (site (Some (VStr "cal.ics")) []) [0%nat; 1%nat].

Lemma export_mixes_languages :
  let w := (generate_events both_generator both_resolved).1 in
  events w = [e_en; e_de]
  ∧ localized_events w = ∅
  ∧ metadata e_en !! "lang" = Some (VStr "en")
  ∧ metadata e_de !! "lang" = Some (VStr "de")
  ∧ files w !! "out/cal.ics"
    = Some "VCALENDAR(prodid=-//pelican/events//mxm.dk//EN;version=2.0;METHOD=PUBLISH;|talk-en@site;talk-de@site;)".
Proof. vm_compute. repeat split; reflexivity. Qed.

(** German events only, and English as the default language. *)
Definition german_only : world :=
  mk_world (list_to_map [(1%nat, mk_content de_talk ∅)])
    [e_de] {[ VStr "de" := [e_de] ]} ∅ None.

Lemma export_default_language_missing_witness :
  localized_events german_only <> ∅
  ∧ selected_events "en" german_only = []
  ∧ files (generate_ical_file plain_generator german_only).1 !! "out/cal.ics"
    = Some "VCALENDAR(prodid=-//pelican/events//mxm.dk//EN;version=2.0;METHOD=PUBLISH;|)"
  ∧ (generate_ical_file plain_generator german_only).2 = Ok tt
  ∧ localized_events (generate_ical_file plain_generator german_only).1
      !! VStr "en" = Some [].
Proof.
  assert (localized_events german_only <> ∅) as Hne
    by apply map_non_empty_singleton.
  assert (partitions_within german_only) as Hin.
  { intros k l e Hl He. unfold german_only in Hl. simpl in Hl.
    apply lookup_singleton_Some in Hl as [<- <-]. done. }
  assert (partitions_tagged german_only) as Htag.
  { intros k l e Hl He. unfold german_only in Hl. simpl in Hl.
    apply lookup_singleton_Some in Hl as [<- <-].
    apply list_elem_of_singleton in He as ->. reflexivity. }
  assert (forall e, e ∈ events german_only ->
            metadata e !! "lang" <> Some (VStr "en")) as Hnone.
  { intros e He. apply list_elem_of_singleton in He as ->.
    vm_compute. discriminate. }
  destruct (export_default_language_missing german_only plain_generator
              "cal.ics" "out" "UTC" "" "en" tt
              plain_generator_configured eq_refl Hne Hin Htag Hnone)
    as (Hsel & Hfiles & Hres & Hloc).
  split; [exact Hne|]. split; [exact Hsel|].
  split; [rewrite Hfiles; vm_compute; reflexivity|].
  split; [rewrite Hres; reflexivity | exact Hloc].
Defined.

End Runs.

(* ================================================================== *)
(** * The order of datetimes and the time line *)
(* ================================================================== *)

Section CalendarOrder.
Import Calendar.

Lemma days_before_year_mono y y' :
  1 <= y <= y' -> _days_before_year y <= _days_before_year y'.
Proof.
  intros Hy. unfold _days_before_year. Z.div_mod_to_equations. lia.
Qed.

Lemma month_cases m :
  1 <= m <= 12 ->
  m = 1 ∨ m = 2 ∨ m = 3 ∨ m = 4 ∨ m = 5 ∨ m = 6 ∨ m = 7 ∨ m = 8
  ∨ m = 9 ∨ m = 10 ∨ m = 11 ∨ m = 12.
Proof. lia. Qed.

(** The ordinal of a date grows with the date. *)
Lemma ymd2ord_compare y m d y' m' d' :
  valid_date y m d = true -> valid_date y' m' d' = true ->
  (_ymd2ord y m d ?= _ymd2ord y' m' d')
  = lex (y ?= y') (lex (m ?= m') (d ?= d')).
Proof.
  unfold valid_date. intros Hv Hv'.
  assert (1 <= y <= 9999 ∧ 1 <= m <= 12 ∧ 1 <= d <= _days_in_month y m)
    as (Hy & Hm & Hd) by lia.
  assert (1 <= y' <= 9999 ∧ 1 <= m' <= 12 ∧ 1 <= d' <= _days_in_month y' m')
    as (Hy' & Hm' & Hd') by lia.
  clear Hv Hv'.
  assert (Hin : forall y m d, 1 <= m <= 12 -> 1 <= d <= _days_in_month y m ->
            _days_before_year y < _ymd2ord y m d <= _days_before_year (y + 1)).
  { clear. intros y m d Hm Hd. rewrite days_before_year_succ.
    unfold _ymd2ord, _days_before_month, _days_in_month in *.
    destruct (_is_leap y); destruct (month_cases m Hm) as
      [->|[->|[->|[->|[->|[->|[->|[->|[->|[->|[->| ->]]]]]]]]]]];
      simpl in *; lia. }
  pose proof (Hin y m d Hm Hd) as Ha. pose proof (Hin y' m' d' Hm' Hd') as Hb.
  unfold lex. destruct (Z.compare_spec y y') as [->|Hlt|Hgt].
  - clear Ha Hb Hin.
    destruct (Z.compare_spec m m') as [->|Hlt|Hgt].
    + unfold _ymd2ord.
      destruct (Z.compare_spec d d'); [apply Z.compare_eq_iff
        | apply Z.compare_lt_iff | apply Z.compare_gt_iff]; lia.
    + apply Z.compare_lt_iff.
      unfold _ymd2ord, _days_before_month, _days_in_month in *.
      destruct (_is_leap y');
        destruct (month_cases m Hm) as
          [->|[->|[->|[->|[->|[->|[->|[->|[->|[->|[->| ->]]]]]]]]]]];
        destruct (month_cases m' Hm') as
          [->|[->|[->|[->|[->|[->|[->|[->|[->|[->|[->| ->]]]]]]]]]]];
        simpl in *; lia.
    + apply Z.compare_gt_iff.
      unfold _ymd2ord, _days_before_month, _days_in_month in *.
      destruct (_is_leap y');
        destruct (month_cases m Hm) as
          [->|[->|[->|[->|[->|[->|[->|[->|[->|[->|[->| ->]]]]]]]]]]];
        destruct (month_cases m' Hm') as
          [->|[->|[->|[->|[->|[->|[->|[->|[->|[->|[->| ->]]]]]]]]]]];
        simpl in *; lia.
  - apply Z.compare_lt_iff.
    pose proof (days_before_year_mono (y + 1) y' ltac:(lia)). lia.
  - apply Z.compare_gt_iff.
    pose proof (days_before_year_mono (y' + 1) y ltac:(lia)). lia.
Qed.

(** [datetime._cmp] is the order of the instants. *)
Lemma datetime_cmp_instant a b :
  valid_datetime a -> valid_datetime b ->
  datetime_cmp a b = (instant a ?= instant b).
Proof.
  intros (Hda & Hha & Hma & Hsa & Hua) (Hdb & Hhb & Hmb & Hsb & Hub).
  pose proof (ymd2ord_compare _ _ _ _ _ _ Hda Hdb) as Hord.
  unfold datetime_cmp.
  change (lex (year a ?= year b)
            (lex (month a ?= month b)
               (lex (day a ?= day b)
                  (lex (hour a ?= hour b)
                     (lex (minute a ?= minute b)
                        (lex (second a ?= second b)
                           (microsecond a ?= microsecond b)))))))
    with (lex (year a ?= year b)
            (lex (month a ?= month b)
               (lex (day a ?= day b)
                  (lex (hour a ?= hour b)
                     (lex (minute a ?= minute b)
                        (lex (second a ?= second b)
                           (microsecond a ?= microsecond b))))))).
  set (rest := lex (hour a ?= hour b) _).
  assert (lex (year a ?= year b)
            (lex (month a ?= month b) (lex (day a ?= day b) rest))
          = lex (toordinal a ?= toordinal b) rest) as ->.
  { unfold toordinal. rewrite Hord. unfold lex.
    by destruct (year a ?= year b), (month a ?= month b), (day a ?= day b). }
  unfold rest, instant, lex.
  destruct (Z.compare_spec (toordinal a) (toordinal b)) as [Ho|Ho|Ho];
    [rewrite Ho | symmetry; apply Z.compare_lt_iff; lia
     | symmetry; apply Z.compare_gt_iff; lia].
  destruct (Z.compare_spec (hour a) (hour b)) as [Hh|Hh|Hh];
    [rewrite Hh | symmetry; apply Z.compare_lt_iff; lia
     | symmetry; apply Z.compare_gt_iff; lia].
  destruct (Z.compare_spec (minute a) (minute b)) as [Hm|Hm|Hm];
    [rewrite Hm | symmetry; apply Z.compare_lt_iff; lia
     | symmetry; apply Z.compare_gt_iff; lia].
  destruct (Z.compare_spec (second a) (second b)) as [Hs|Hs|Hs];
    [rewrite Hs | symmetry; apply Z.compare_lt_iff; lia
     | symmetry; apply Z.compare_gt_iff; lia].
  destruct (Z.compare_spec (microsecond a) (microsecond b)) as [Hu|Hu|Hu];
    symmetry; [apply Z.compare_eq_iff | apply Z.compare_lt_iff
               | apply Z.compare_gt_iff]; lia.
Qed.

End CalendarOrder.

(* ================================================================== *)
(** * More on the parsers *)
(* ================================================================== *)

Section Chunks.

Local Arguments Chars.isspace : simpl never.

(** [str.split()] returns runs that are not empty and hold no
    whitespace. *)
Lemma split_from_chunks cur s c :
  Forall (fun a => Chars.isspace a = false) cur ->
  c ∈ split_from cur s ->
  c <> [] ∧ Forall (fun a => Chars.isspace a = false) c.
Proof.
  revert cur. induction s as [|a s IH]; intros cur Hcur; simpl.
  - destruct cur as [|b cur]; [by intros ?%elem_of_nil|].
    intros ->%list_elem_of_singleton. split.
    + simpl. intros Heq. by apply app_eq_nil in Heq as [_ ?].
    + by apply Forall_rev.
  - destruct (Chars.isspace a) eqn:Ha.
    + destruct cur as [|b cur]; [by apply IH|].
      intros [->|Hc]%elem_of_cons; [|by apply (IH [])].
      split.
      * simpl. intros Heq. by apply app_eq_nil in Heq as [_ ?].
      * by apply Forall_rev.
    + apply IH. by constructor.
Qed.

Lemma py_split_chunks s c :
  c ∈ py_split s -> c <> [] ∧ Forall (fun a => Chars.isspace a = false) c.
Proof. by apply split_from_chunks. Qed.

(** A string of whitespace has no chunk. *)
Lemma py_split_blank s :
  Forall (fun a => Chars.isspace a = true) s -> py_split s = [].
Proof.
  unfold py_split. induction 1 as [|a s Ha _ IH]; simpl; [done|].
  by rewrite Ha.
Qed.

Lemma TIME_MULTIPLIERS_None c :
  (forall u, c <> suffix u) -> TIME_MULTIPLIERS c = None.
Proof.
  intros Hc. unfold TIME_MULTIPLIERS.
  destruct (Chars.eqb c "w") eqn:Hw;
    [apply eqb_eq in Hw; by destruct (Hc Weeks)|].
  destruct (Chars.eqb c "d") eqn:Hd;
    [apply eqb_eq in Hd; by destruct (Hc Days)|].
  destruct (Chars.eqb c "h") eqn:Hh;
    [apply eqb_eq in Hh; by destruct (Hc Hours)|].
  destruct (Chars.eqb c "m") eqn:Hm;
    [apply eqb_eq in Hm; by destruct (Hc Minutes)|].
  destruct (Chars.eqb c "s") eqn:Hs;
    [apply eqb_eq in Hs; by destruct (Hc Seconds)|].
  done.
Qed.






(** X2. The first chunk of a duration that is not [<int><unit>] decides
    the failure, in an event that has a title: a chunk that does not
    end in one of the five unit letters raises the [RuntimeError] that
    names it, and one that ends in a unit letter after something [int]
    does not read raises the [ValueError] that names it.  Later chunks
    are not looked at. *)
Theorem duration_first_bad_chunk (ev : dict) (s : string)
    (good : list chars) (bad : chars) (rest : list chars)
    (items : list (Z * time_unit)) :
  ev !! "event-duration" = Some (VStr s) ->
  is_Some (ev !! "title") ->
  py_split (chars_of s) = good ++ bad :: rest ->
  Forall2 chunk_denotes good items ->
  ((forall u, last bad <> Some (suffix u)) ->
   parse_timedelta ev
   = Raise (RuntimeError (unknown_time_multiplier (str_of bad))))
  ∧ (forall front u, bad = front ++ [suffix u] -> py_int front = None ->
     parse_timedelta ev = Raise (ValueError (unable_to_parse (str_of bad)))).
Proof.
  intros Hs [title Ht] Hsplit Hgood.
  assert (Hbad : bad <> []).
  { apply (py_split_chunks (chars_of s)). rewrite Hsplit.
    apply elem_of_app; right. by apply elem_of_cons; left. }
  assert (Hloop : forall tdargs,
            parse_chunks ev tdargs (good ++ bad :: rest)
            = (tdargs' <- parse_chunk ev (fold_left store_item items tdargs) bad ;;
               parse_chunks ev tdargs' rest)%res).
  { clear -Hgood. induction Hgood as [|c item good items Hc _ IH];
      intros tdargs; simpl; [done|].
    rewrite (parse_chunk_denotes ev tdargs c item Hc). simpl. apply IH. }
  unfold parse_timedelta, getitem. rewrite Hs. simpl.
  rewrite Hsplit, Hloop. split.
  - intros Hunit. unfold parse_chunk, getitem.
    destruct (rev bad) as [|l front] eqn:Hrev.
    { apply (f_equal (@rev ascii)) in Hrev. by rewrite rev_involutive in Hrev. }
    rewrite TIME_MULTIPLIERS_None; [by rewrite Ht|].
    intros u Hu. apply (Hunit u).
    apply (f_equal (@rev ascii)) in Hrev. rewrite rev_involutive in Hrev.
    rewrite Hrev. simpl. by rewrite last_snoc, Hu.
  - intros front u -> Hint. unfold parse_chunk, getitem.
    rewrite rev_app_distr. simpl.
    by rewrite TIME_MULTIPLIERS_suffix, rev_involutive, Hint, Ht.
Qed.

End Chunks.

(** ** The limit of [int] on the number of digits *)

Section DigitLimit.

Local Arguments Chars.isspace : simpl never.
Local Arguments Chars.int_space : simpl never.
Local Arguments Chars.isdigit : simpl never.
Local Arguments Chars.digit_val : simpl never.
Local Arguments Chars.eqb : simpl never.

(** A run of [n] zeros. *)
Definition zeros (n : nat) : chars := repeat "0"%char n.

Lemma digit_count_app s s' :
  digit_count (s ++ s') = digit_count s + digit_count s'.
Proof. induction s as [|c s IH]; simpl; [done|]. rewrite IH. lia. Qed.

Lemma digit_count_zeros n : digit_count (zeros n) = Z.of_nat n.
Proof.
  induction n as [|n IH]; [done|].
  change (zeros (S n)) with ("0"%char :: zeros n).
  cbn [digit_count]. rewrite IH.
  replace (Chars.isdigit "0") with true by done. lia.
Qed.

(** [int] refuses more than [int_max_str_digits] digits. *)
Lemma py_int_limit s : int_max_str_digits < digit_count s -> py_int s = None.
Proof.
  intros Hlim. unfold py_int.
  by replace (int_max_str_digits <? digit_count s) with true by lia.
Qed.

Lemma int_digits_zeros n b rest :
  int_digits 0 b (zeros (S n) ++ rest) = int_digits 0 true rest.
Proof.
  revert b. induction n as [|n IH]; intros b.
  - done.
  - change (zeros (S (S n)) ++ rest) with ("0"%char :: (zeros (S n) ++ rest)).
    cbn [int_digits]. replace (Chars.digit_val "0") with (Some 0) by done.
    apply IH.
Qed.

(** Zeros before a digit do not change the number read, while they
    are few enough. *)
Lemma py_int_zeros n (d : ascii) v :
  Chars.digit_val d = Some v ->
  Z.of_nat (S n) + 1 <= int_max_str_digits ->
  py_int (zeros (S n) ++ [d]) = Some v.
Proof.
  intros Hd Hlim.
  assert (Hd' : Chars.isdigit d = true).
  { unfold Chars.isdigit. by rewrite Hd. }
  unfold py_int.
  rewrite digit_count_app, digit_count_zeros. cbn [digit_count].
  rewrite Hd'.
  rewrite (proj2 (Z.ltb_ge _ _)) by (rewrite Z.add_0_r; exact Hlim).
  unfold int_literal, strip.
  change (zeros (S n) ++ [d]) with ("0"%char :: (zeros n ++ [d])).
  cbn [lstrip]. replace (Chars.int_space "0") with false by done.
  change ("0"%char :: (zeros n ++ [d])) with (zeros (S n) ++ [d]).
  rewrite rev_app_distr. simpl rev at 2. cbn [app lstrip].
  rewrite (digit_not_int_space d v Hd).
  change (d :: rev (zeros (S n))) with ([d] ++ rev (zeros (S n))).
  rewrite rev_app_distr, rev_involutive. simpl rev.
  change (zeros (S n) ++ [d]) with ("0"%char :: (zeros n ++ [d])).
  cbv beta iota.
  replace (Chars.eqb "0" "-") with false by done.
  replace (Chars.eqb "0" "+") with false by done.
  change ("0"%char :: (zeros n ++ [d])) with (zeros (S n) ++ [d]).
  rewrite int_digits_zeros. cbn [int_digits]. rewrite Hd. simpl.
  f_equal.
Qed.

Lemma zeros_not_space n :
  Forall (fun a => Chars.isspace a = false) (zeros n).
Proof. induction n as [|n IH]; [constructor|]. by constructor. Qed.

(** A string without whitespace is one chunk. *)
Lemma split_from_run cur s :
  Forall (fun a => Chars.isspace a = false) s ->
  cur <> [] ∨ s <> [] ->
  split_from cur s = [rev cur ++ s].
Proof.
  intros Hs. revert cur. induction Hs as [|c s Hc _ IH]; intros cur Hne.
  - destruct cur as [|b cur]; [by destruct Hne|].
    simpl. by rewrite app_nil_r.
  - simpl. rewrite Hc. rewrite IH by (by left).
    simpl. by rewrite <- app_assoc.
Qed.

End DigitLimit.

Section Timestamps.

(** X3. The outcomes of [parse_tstamp] in an event that has a title.
    Without the field it raises the [KeyError] of the field; on a
    value that is not a string, [TypeError]; on a string, one of the
    [ValueError]s of [strptime], or it returns a datetime that the
    [datetime] constructor accepts, on a whole minute. *)
Theorem parse_tstamp_outcomes (ev : dict) (field_name : string) :
  is_Some (ev !! "title") ->
  match ev !! field_name with
  | None => parse_tstamp ev field_name = Raise (KeyError field_name)
  | Some (VStr s) =>
      match parse_tstamp ev field_name with
      | Ok t => valid_datetime t ∧ second t = 0 ∧ microsecond t = 0
      | Raise e => MalformedTimestamp e
      end
  | Some _ => parse_tstamp ev field_name = Raise TypeError
  end.
Proof.
  intros [title Ht]. unfold parse_tstamp, getitem. rewrite Ht.
  destruct (ev !! field_name) as [[| s | |]|]; simpl; try done.
  change "%Y-%m-%d %H:%M" with the_format.
  pose proof (strptime_sound s) as Hsound.
  destruct (Strptime._strptime s the_format) as [t|e]; [|done].
  split; [by apply (accepted_valid (chars_of s))|].
  destruct Hsound as (sY & sm & sd & ws & sH & sM & _ & _ & _ & _ & _ & _ & _
                      & Hsec & Hus & _).
  done.
Qed.

(** X4. In an event without a title, whatever keeps [parse_tstamp] from
    returning a datetime surfaces as the [KeyError] of the title: the
    handler reads the title for its log line before it raises again. *)
Theorem parse_tstamp_untitled (ev : dict) (field_name : string) :
  ev !! "title" = None ->
  (exists t, parse_tstamp ev field_name = Ok t)
  ∨ parse_tstamp ev field_name = Raise (KeyError "title").
Proof.
  intros Ht. unfold parse_tstamp, getitem. rewrite Ht.
  destruct (rbind _ _) as [t|e]; [left; by exists t | by right].
Qed.

(** ** Writing a timestamp *)

(** The decimal digit for [n mod 10]. *)
Definition digit (n : Z) : ascii := ascii_of_N (Z.to_N (48 + n mod 10)).

Definition two_digits (n : Z) : chars := [digit (n / 10); digit n].

Definition four_digits (n : Z) : chars :=
  [digit (n / 1000); digit (n / 100); digit (n / 10); digit n].

(** A datetime written as [YYYY-MM-DD HH:MM], every field padded with
    zeros. *)
Definition show_tstamp (t : datetime) : string :=
  str_of (four_digits (year t) ++ "-"%char :: two_digits (month t)
          ++ "-"%char :: two_digits (day t) ++ " "%char
          :: two_digits (hour t) ++ ":"%char :: two_digits (minute t)).

Lemma digit_val_digit n : Chars.digit_val (digit n) = Some (n mod 10).
Proof.
  assert (0 <= n mod 10 < 10) as Hn by (apply Z.mod_pos_bound; lia).
  unfold Chars.digit_val, Chars.code, digit.
  rewrite N_ascii_embedding by lia.
  rewrite Z2N.id by lia.
  replace ((48 <=? 48 + n mod 10) && (48 + n mod 10 <=? 57)) with true by lia.
  f_equal. lia.
Qed.

Lemma numeral_two_digits n : 0 <= n < 100 -> numeral (two_digits n) n.
Proof.
  intros Hn.
  assert (n = 10 * ((n / 10) mod 10) + n mod 10) as Heq
    by (Z.div_mod_to_equations; lia).
  pose proof (numeral_2 _ _ _ _ (digit_val_digit (n / 10)) (digit_val_digit n))
    as Hnum.
  by rewrite <- Heq in Hnum.
Qed.

Lemma numeral4_four_digits n : 0 <= n < 10000 -> numeral4 (four_digits n) n.
Proof.
  intros Hn.
  assert (n = 1000 * ((n / 1000) mod 10) + 100 * ((n / 100) mod 10)
              + 10 * ((n / 10) mod 10) + n mod 10) as Heq
    by (Z.div_mod_to_equations; lia).
  pose proof (numeral4_intro _ _ _ _ _ _ _ _
                (digit_val_digit (n / 1000)) (digit_val_digit (n / 100))
                (digit_val_digit (n / 10)) (digit_val_digit n)) as Hnum.
  by rewrite <- Heq in Hnum.
Qed.

(** X5. A round trip.  Every datetime on a whole minute that the
    [datetime] constructor accepts has a written form, zero-padded
    [YYYY-MM-DD HH:MM], and [parse_tstamp] reads that form back to the
    same datetime. *)
Theorem timestamp_round_trip (ev : dict) (field_name : string) (t : datetime) :
  valid_datetime t -> second t = 0 -> microsecond t = 0 ->
  ev !! field_name = Some (VStr (show_tstamp t)) ->
  parse_tstamp ev field_name = Ok t.
Proof.
  intros (Hdate & Hh & Hm & _ & _) Hsec Hus Hev.
  unfold parse_tstamp, getitem. rewrite Hev. simpl.
  change "%Y-%m-%d %H:%M" with the_format.
  rewrite (strptime_complete (show_tstamp t) t); [done|].
  assert (1 <= year t <= 9999 ∧ 1 <= month t <= 12 ∧ 1 <= day t <= 31)
    as (Hy & Hmo & Hd).
  { pose proof Hdate as Hv. unfold Calendar.valid_date in Hv.
    assert (Calendar._days_in_month (year t) (month t) <= 31); [|lia].
    unfold Calendar._days_in_month, Calendar._DAYS_IN_MONTH.
    destruct ((month t =? 2) && Calendar._is_leap (year t)); [lia|].
    destruct (month_cases (month t) ltac:(lia)) as
      [->|[->|[->|[->|[->|[->|[->|[->|[->|[->|[->| ->]]]]]]]]]]]; lia. }
  unfold show_tstamp, chars_of, str_of.
  rewrite list_ascii_of_string_of_list_ascii.
  exists (four_digits (year t)), (two_digits (month t)),
    (two_digits (day t)), [" "%char], (two_digits (hour t)),
    (two_digits (minute t)).
  split; [done|].
  split; [apply numeral4_four_digits; lia|].
  split; [split; [apply numeral_two_digits; lia | done]|].
  split; [apply day_numeral; [apply numeral_two_digits; lia | done]|].
  split; [split; [done | by repeat constructor]|].
  split; [split; [apply numeral_two_digits; lia | lia]|].
  split; [split; [apply numeral_two_digits; lia | lia]|].
  done.
Qed.

End Timestamps.

(* ================================================================== *)
(** * More on the resolver *)
(* ================================================================== *)

Section ResolverFacts.
Context `{Host}.

Lemma day_of_instant t :
  valid_datetime t -> day_of (instant t) = toordinal t.
Proof.
  intros (_ & Hh & Hm & Hs & Hus).
  unfold instant, day_of. Z.div_mod_to_equations. lia.
Qed.

(** Adding no time gives the same datetime. *)
Lemma datetime_add_zero t d :
  valid_datetime t -> span_microseconds d = 0 -> datetime_add t d = Ok t.
Proof.
  intros Hv Hd. pose proof (datetime_add_instant t d Hv) as Hadd.
  rewrite Hd, Z.add_0_r in Hadd.
  destruct (datetime_add t d) as [t'|e].
  - destruct Hadd as [Hi Hv']. f_equal. apply datetime_cmp_eq.
    rewrite (datetime_cmp_instant t' t Hv' Hv). by apply Z.compare_eq_iff.
  - destruct Hadd as [_ Hout]. exfalso. apply Hout.
    rewrite (day_of_instant t Hv). destruct Hv as (Hdate & _).
    apply (ymd2ord_range _ _ _ Hdate).
Qed.

Lemma contains_true (md : dict) k : is_Some (md !! k) -> contains md k = true.
Proof. intros. by apply bool_decide_eq_true. Qed.

Lemma contains_false (md : dict) k : md !! k = None -> contains md k = false.
Proof. intros Hk. apply bool_decide_eq_false. rewrite Hk. by intros [? ?]. Qed.

Lemma parse_tstamp_field (md : dict) k t :
  parse_tstamp md k = Ok t -> is_Some (md !! k).
Proof.
  unfold parse_tstamp, getitem. destruct (md !! k); [by eexists|].
  simpl. by destruct (md !! "title").
Qed.

Lemma resolve_start (md : dict) s e :
  resolve md = Ok (s, e) -> parse_tstamp md "event-start" = Ok s.
Proof.
  unfold resolve.
  destruct (parse_tstamp md "event-start") as [s'|]; simpl; [|done].
  destruct (if contains md "event-end" then _ else _); simpl; [|done].
  by intros [= -> _].
Qed.

(** X6. [parse_article] attaches all four annotations or changes
    nothing.  When it returns, either the metadata has no
    ['event-start'] and the world is as it was, or the object carries
    the start and the end under both spellings; when it raises, the
    world is as it was: no annotation is attached before the end is
    known. *)
Theorem parse_article_all_or_nothing (w : world) (c : nat) :
  let md := content_metadata (deref w c) in
  match parse_article c w with
  | (w', Ok _) =>
      (md !! "event-start" = None ∧ w' = w)
      ∨ (is_Some (md !! "event-start")
         ∧ exists s e, parse_tstamp md "event-start" = Ok s
                       ∧ resolved w' c s e)
  | (w', Raise x) => is_Some (md !! "event-start") ∧ w' = w
  end.
Proof.
  intros md. rewrite parse_article_resolve. fold md.
  destruct (md !! "event-start") as [v|] eqn:Hv.
  - rewrite contains_true by (by eexists).
    destruct (resolve md) as [[s e]|x] eqn:Hr.
    + right. split; [by eexists|]. exists s, e. split.
      * by apply (resolve_start md s e).
      * apply attach_annotations.
    + split; [by eexists | done].
  - rewrite contains_false by done. by left.
Qed.

(** X7. What [parse_article] leaves alone, whether it returns or
    raises: the event store, the language mapping, the file system and
    the published listing; every other content object; the metadata of
    its own object, and every attribute of it but the four it sets. *)
Theorem parse_article_frame (w : world) (c : nat) :
  let w' := (parse_article c w).1 in
  events w' = events w
  ∧ localized_events w' = localized_events w
  ∧ files w' = files w
  ∧ events_list w' = events_list w
  ∧ (forall c', c' <> c -> heap w' !! c' = heap w !! c')
  ∧ content_metadata (deref w' c) = content_metadata (deref w c)
  ∧ (forall name,
       name ∉ ["event-start"; "event-end"; "event_start"; "event_end"] ->
       annotation w' c name = annotation w c name).
Proof.
  intros w'. unfold w'. rewrite parse_article_resolve. simpl.
  destruct (contains _ _); [|by repeat split].
  destruct (resolve _) as [[s e]|x]; [|by repeat split].
  simpl. repeat split.
  - intros c' Hc'. by rewrite lookup_insert_ne.
  - apply attach_metadata.
  - intros name Hname. unfold annotation, attach. rewrite deref_insert. simpl.
    rewrite !lookup_insert_ne; [done|..];
      intros <-; apply Hname; repeat constructor.
Qed.

(** X8. A duration of nothing but whitespace, or the empty string, is
    the empty duration: the end the resolver attaches is the start. *)
Theorem blank_duration (w : world) (c : nat) (s : datetime) (text : string) :
  let md := content_metadata (deref w c) in
  parse_tstamp md "event-start" = Ok s ->
  md !! "event-end" = None ->
  md !! "event-duration" = Some (VStr text) ->
  Forall (fun a => Chars.isspace a = true) (chars_of text) ->
  parse_timedelta md = Ok (mk_timedelta 0 0 0)
  ∧ exists w', parse_article c w = (w', Ok tt) ∧ resolved w' c s s.
Proof.
  intros md Hs He Hd Hblank.
  assert (parse_timedelta md = Ok (mk_timedelta 0 0 0)) as Hzero.
  { unfold parse_timedelta, getitem. rewrite Hd. simpl.
    by rewrite (py_split_blank _ Hblank). }
  split; [done|].
  rewrite parse_article_resolve. fold md.
  rewrite (contains_true md "event-start")
    by (by eapply parse_tstamp_field).
  unfold resolve. rewrite Hs. simpl.
  rewrite (contains_false md "event-end") by done.
  rewrite (contains_true md "event-duration") by (by eexists).
  rewrite Hzero. simpl.
  rewrite (datetime_add_zero s); [| by eapply parse_tstamp_valid | done].
  simpl. eexists. split; [done|]. apply attach_annotations.
Qed.

(** X9. The resolver takes a duration of either sign.  The end it
    attaches is after the start when the duration is positive, the
    start itself when the duration is zero, and before the start when
    the duration is negative. *)
Theorem duration_sign (w w' : world) (c : nat) (s : datetime) (d : timedelta) :
  let md := content_metadata (deref w c) in
  parse_tstamp md "event-start" = Ok s ->
  md !! "event-end" = None ->
  parse_timedelta md = Ok d ->
  parse_article c w = (w', Ok tt) ->
  exists e, resolved w' c s e
            ∧ datetime_cmp s e = (0 ?= span_microseconds d).
Proof.
  intros md Hs He Hd. rewrite parse_article_resolve. fold md.
  rewrite (contains_true md "event-start")
    by (by eapply parse_tstamp_field).
  unfold resolve. rewrite Hs. simpl.
  rewrite (contains_false md "event-end") by done.
  assert (is_Some (md !! "event-duration")) as Hdur.
  { unfold parse_timedelta, getitem in Hd.
    destruct (md !! "event-duration"); [by eexists | done]. }
  rewrite (contains_true md "event-duration") by done.
  rewrite Hd. simpl.
  pose proof (parse_tstamp_valid _ _ _ Hs) as Hv.
  pose proof (datetime_add_instant s d Hv) as Hadd.
  destruct (datetime_add s d) as [e|x]; simpl; [|done].
  intros [= <-]. exists e. split; [apply attach_annotations|].
  destruct Hadd as [Hi Hv'].
  rewrite (datetime_cmp_instant s e Hv Hv'), Hi.
  pose proof (Z.add_compare_mono_l (instant s) 0 (span_microseconds d)) as Hc.
  by rewrite Z.add_0_r in Hc.
Qed.

End ResolverFacts.

(* ================================================================== *)
(** * More on the event store *)
(* ================================================================== *)

Section StoreFacts.
Context `{Host}.

(** ** What the collecting loop adds *)

Lemma event_of_article h c e : event_of h c = Some e -> article e = c.
Proof.
  unfold event_of. repeat case_match; try done. by intros [= <-].
Qed.

Lemma collected_app h evs cs :
  exists new,
    (collected h evs cs).1 = evs ++ new
    ∧ NoDup new
    ∧ forall e, e ∈ new ->
        (e ∉ evs) ∧ exists c, c ∈ cs ∧ event_of h c = Some e.
Proof.
  revert evs. induction cs as [|c cs IH]; intros evs; simpl.
  { exists []. rewrite app_nil_r. split; [done|].
    split; [apply NoDup_nil_2|]. intros e He. by apply elem_of_nil in He. }
  assert (Hlift : forall evs',
    (exists new, (collected h evs' cs).1 = evs ++ new ∧ NoDup new
       ∧ forall e, e ∈ new -> (e ∉ evs) ∧ exists c', c' ∈ cs ∧ event_of h c' = Some e) ->
    exists new, (collected h evs' cs).1 = evs ++ new ∧ NoDup new
       ∧ forall e, e ∈ new ->
           (e ∉ evs) ∧ exists c', c' ∈ c :: cs ∧ event_of h c' = Some e).
  { intros evs' (new & Heq & Hnd & Hnew). exists new.
    split; [done|]. split; [done|]. intros e He.
    destruct (Hnew e He) as [Hn (c' & Hc' & Hev)]. split; [done|].
    exists c'. split; [by apply elem_of_cons; right | done]. }
  destruct (content_attrs (h !!! c) !! "event_start") as [s|] eqn:Hs;
    [|apply Hlift, IH].
  destruct (content_attrs (h !!! c) !! "event_end") as [t|] eqn:Ht.
  2:{ exists []. simpl. rewrite app_nil_r. split; [done|].
      split; [apply NoDup_nil_2|]. intros e He. by apply elem_of_nil in He. }
  case_bool_decide as Hin; [apply Hlift, IH|].
  destruct (IH (evs ++ [mk_Event s t (content_metadata (h !!! c)) c]))
    as (new & Heq & Hnd & Hnew).
  exists (mk_Event s t (content_metadata (h !!! c)) c :: new).
  split; [by rewrite Heq, <- app_assoc|]. split.
  - apply NoDup_cons. split; [|done]. intros He.
    destruct (Hnew _ He) as [Hn _]. apply Hn.
    apply elem_of_app; right. by apply list_elem_of_singleton.
  - intros e [->|He]%elem_of_cons.
    + split; [done|]. exists c. split; [by apply elem_of_cons; left|].
      unfold event_of. by rewrite Hs, Ht.
    + destruct (Hnew e He) as [Hn (c' & Hc' & Hev)]. split.
      * intros Hevs. apply Hn. by apply elem_of_app; left.
      * exists c'. split; [by apply elem_of_cons; right | done].
Qed.

(** X10. [generate_events] only appends to the store.  Whether it
    returns or raises, the content objects are as they were, and
    [events] is what it was followed by new events: each of them the
    event of an offered content object, none of them in the store
    before, none of them twice. *)
Theorem events_append_only (w : world) (g : generator) :
  let w' := (generate_events g w).1 in
  heap w' = heap w
  ∧ exists new,
      events w' = events w ++ new
      ∧ NoDup new
      ∧ forall e, e ∈ new ->
          (e ∉ events w)
          ∧ article e ∈ generated_content g
          ∧ event_of (heap w) (article e) = Some e.
Proof.
  intros w'. destruct (generate_events_events g w) as [Hh He].
  split; [done|]. fold w' in He. rewrite He.
  destruct (collected_app (heap w) (events w) (generated_content g))
    as (new & Heq & Hnd & Hnew).
  exists new. split; [done|]. split; [done|]. intros e Hin.
  destruct (Hnew e Hin) as [Hn (c & Hc & Hev)].
  pose proof (event_of_article _ _ _ Hev) as ->. done.
Qed.

Lemma collected_fresh h evs cs :
  NoDup cs ->
  (forall c, c ∈ cs ->
     is_Some (content_attrs (h !!! c) !! "event_start") ->
     is_Some (content_attrs (h !!! c) !! "event_end")) ->
  (forall e, e ∈ evs -> article e ∉ cs) ->
  collected h evs cs = (evs ++ omap (event_of h) cs, Ok tt).
Proof.
  revert evs. induction cs as [|c cs IH]; intros evs Hnd Hp Hevs; simpl.
  { by rewrite app_nil_r. }
  apply NoDup_cons in Hnd as [Hc Hnd].
  assert (Hp' : forall c', c' ∈ cs ->
     is_Some (content_attrs (h !!! c') !! "event_start") ->
     is_Some (content_attrs (h !!! c') !! "event_end")).
  { intros c' Hc'. apply Hp. by apply elem_of_cons; right. }
  unfold event_of at 1.
  destruct (content_attrs (h !!! c) !! "event_start") as [s|] eqn:Hs.
  - destruct (Hp c) as [t Ht]; [by apply elem_of_cons; left | by eexists|].
    rewrite Ht. rewrite bool_decide_eq_false_2.
    + rewrite IH; [by rewrite <- app_assoc | done | done |].
      intros e [He| ->%list_elem_of_singleton]%elem_of_app; simpl; [|done].
      intros Hin. apply (Hevs e He). by apply elem_of_cons; right.
    + intros Hin. apply (Hevs _ Hin). simpl. by apply elem_of_cons; left.
  - apply IH; [done|done|].
    intros e He Hin. apply (Hevs e He). by apply elem_of_cons; right.
Qed.

(** X11. After a reset, [generate_events] stores one event for each
    offered content object that carries the two timestamps, in the
    order the objects are offered, and nothing else.  The objects are
    offered once each and carry their two timestamps together. *)
Theorem collect_after_reset (w : world) (g : generator) :
  NoDup (generated_content g) ->
  (forall c, c ∈ generated_content g -> paired w c) ->
  events (generate_events g (initialize_events g w).1).1
  = omap (event_of (heap w)) (generated_content g).
Proof.
  intros Hnd Hp.
  destruct (generate_events_events g (initialize_events g w).1) as [_ ->].
  simpl. rewrite collected_fresh; [done|done| |].
  - intros c Hc. apply (Hp c Hc).
  - intros e He. by apply elem_of_nil in He.
Qed.

Lemma collected_absorb h evs cs :
  (forall c, c ∈ cs ->
     is_Some (content_attrs (h !!! c) !! "event_start") ->
     is_Some (content_attrs (h !!! c) !! "event_end")) ->
  (forall c e, c ∈ cs -> event_of h c = Some e -> e ∈ evs) ->
  collected h evs cs = (evs, Ok tt).
Proof.
  induction cs as [|c cs IH]; intros Hp Hin; simpl; [done|].
  assert (IH' : collected h evs cs = (evs, Ok tt)).
  { apply IH.
    - intros c' Hc'. apply Hp. by apply elem_of_cons; right.
    - intros c' e Hc'. apply Hin. by apply elem_of_cons; right. }
  destruct (content_attrs (h !!! c) !! "event_start") as [s|] eqn:Hs;
    [|done].
  destruct (Hp c) as [t Ht]; [by apply elem_of_cons; left | by eexists|].
  rewrite Ht. rewrite bool_decide_eq_true_2; [done|].
  apply (Hin c); [by apply elem_of_cons; left|].
  unfold event_of. by rewrite Hs, Ht.
Qed.

(** X12. Collecting is idempotent on the store: a second call of
    [generate_events] with the same generator leaves [events] exactly
    as the first call left it, order included. *)
Theorem collect_twice (w : world) (g : generator) :
  (forall c, c ∈ generated_content g -> paired w c) ->
  events (generate_events g (generate_events g w).1).1
  = events (generate_events g w).1.
Proof.
  intros Hp.
  destruct (generate_events_events g w) as [Hh1 He1].
  destruct (generate_events_events g (generate_events g w).1) as [_ ->].
  rewrite Hh1, He1. rewrite collected_absorb; [done| |].
  - intros c Hc. apply (Hp c Hc).
  - intros c e Hc He.
    apply (collected_complete (heap w) (events w) (generated_content g))
      with (c := c); [|done|done].
    intros c' Hc'. apply (Hp c' Hc').
Qed.

Lemma collected_stop h evs before c after :
  is_Some (content_attrs (h !!! c) !! "event_start") ->
  content_attrs (h !!! c) !! "event_end" = None ->
  (collected h evs before).2 = Ok tt ->
  collected h evs (before ++ c :: after)
  = ((collected h evs before).1, Raise (AttributeError "event_end")).
Proof.
  intros [s Hs] Ht. revert evs.
  induction before as [|c' before IH]; intros evs; simpl.
  - by rewrite Hs, Ht.
  - destruct (content_attrs (h !!! c') !! "event_start"); [|apply IH].
    destruct (content_attrs (h !!! c') !! "event_end"); [apply IH | done].
Qed.

(** X13. [generate_events] asks whether a content object has
    [event_start] and then reads [event_end].  At the first offered
    object that carries the start and not the end it raises
    [AttributeError]: the events of the objects offered before it are
    in the store, and nothing else has happened, no language list, no
    file, no listing. *)
Theorem collect_missing_end (w : world) (g : generator)
    (before : list nat) (c : nat) (after : list nat) :
  generated_content g = before ++ c :: after ->
  (forall c', c' ∈ before -> paired w c') ->
  is_Some (annotation w c "event_start") ->
  annotation w c "event_end" = None ->
  let w' := (generate_events g w).1 in
  (generate_events g w).2 = Raise (AttributeError "event_end")
  ∧ (forall e, e ∈ events w' <->
       e ∈ events w ∨ exists c', c' ∈ before ∧ event_of (heap w) c' = Some e)
  ∧ localized_events w' = localized_events w
  ∧ files w' = files w
  ∧ events_list w' = events_list w.
Proof.
  intros Hg Hp Hs Ht w'. unfold w', generate_events.
  rewrite (bind_bind_unit (collect _)), collect_collected, Hg.
  destruct (collected_complete (heap w) (events w) before) as [Hok Hall].
  { intros c' Hc'. apply (Hp c' Hc'). }
  rewrite (collected_stop (heap w) (events w) before c after Hs Ht Hok).
  simpl. split; [done|]. split; [|done].
  intros e. split.
  - apply collected_origin.
  - intros [He|(c' & Hc' & He)]; [by apply collected_incl|].
    by apply (Hall c').
Qed.

(** X14. From the resolver to the store.  Once [parse_article] has
    returned for a content object with an ['event-start'],
    [generate_events] has in the store the event made of the start the
    field parses to, the end the resolver attached, the metadata of the
    object, and the object itself. *)
Theorem resolved_then_collected (w w1 : world) (g : generator) (c : nat) :
  let md := content_metadata (deref w c) in
  is_Some (md !! "event-start") ->
  parse_article c w = (w1, Ok tt) ->
  c ∈ generated_content g ->
  (forall c', paired w c') ->
  exists s e,
    parse_tstamp md "event-start" = Ok s
    ∧ annotation w1 c "event-end" = Some e
    ∧ mk_Event s e md c ∈ events (generate_events g w1).1.
Proof.
  intros md Hstart Hpa Hc Hp.
  pose proof (paired_parse_article c w Hp) as Hp1. rewrite Hpa in Hp1.
  rewrite parse_article_resolve in Hpa. fold md in Hpa.
  rewrite contains_true in Hpa by done.
  destruct (resolve md) as [[s e]|x] eqn:Hr; [|done].
  injection Hpa as <-.
  exists s, e. split; [by apply (resolve_start md s e)|].
  destruct (attach_annotations c s e w) as (_ & Hend & Hs' & He').
  split; [done|].
  destruct (generate_events_events g (attach c s e w)) as [_ ->].
  apply (collected_complete (heap (attach c s e w)) (events (attach c s e w))
           (generated_content g)) with (c := c); [|done|].
  - intros c' _. apply Hp1.
  - unfold event_of. unfold annotation, deref in Hs', He'.
    rewrite Hs', He'. do 2 f_equal.
    apply (attach_metadata c s e w).
Qed.

(** X15. An article that is no event stays out of the store.  For a
    content object without ['event-start'] in its metadata, and with no
    start attached, [parse_article] does nothing, and [generate_events]
    adds no event for it. *)
Theorem plain_article_not_collected (w : world) (g : generator) (c : nat) :
  content_metadata (deref w c) !! "event-start" = None ->
  annotation w c "event_start" = None ->
  parse_article c w = (w, Ok tt)
  ∧ forall e, e ∈ events (generate_events g w).1 -> article e = c ->
      e ∈ events w.
Proof.
  intros Hmd Hann. split.
  - rewrite parse_article_resolve. simpl. by rewrite contains_false.
  - intros e He Hart.
    destruct (generate_events_events g w) as [_ Hev]. rewrite Hev in He.
    apply collected_origin in He as [He|(c' & Hc' & He)]; [done|].
    pose proof (event_of_article _ _ _ He) as Hc. rewrite Hart in Hc.
    subst c'. unfold event_of in He. unfold annotation, deref in Hann.
    by rewrite Hann in He.
Qed.

End StoreFacts.

(* ================================================================== *)
(** * More on the language lists and the listing *)
(* ================================================================== *)

Section PartitionFacts.
Context `{Host}.

(** The events of [evs] whose metadata carry the language [k], in
    order. *)
Definition of_language (k : pyval) (evs : list Event) : list Event :=
  filter (fun e => metadata e !! "lang" = Some k) evs.

(** The language mapping [loc] after the events [evs] have been
    appended to the lists of their languages. *)
Definition appended (loc loc' : gmap pyval (list Event)) (evs : list Event)
    : Prop :=
  forall k,
    loc' !! k = match of_language k evs with
                | [] => loc !! k
                | e :: l => Some (default [] (loc !! k) ++ e :: l)
                end.

(** The loop of [generate_localized_events]. *)
Definition partition_loop (evs : list Event) : M unit :=
  for_each evs (fun e =>
    match metadata e !! "lang" with
    | Some lang => localized_append lang e
    | None => (_ <- lift (getitem (metadata e) "title") ;; ret tt)%M
    end).

Lemma for_each_app {A} (l1 l2 : list A) (body : A -> M unit) (w : world) :
  for_each (l1 ++ l2) body w
  = bind (for_each l1 body) (fun _ => for_each l2 body) w.
Proof.
  revert w. induction l1 as [|a l1 IH]; intros w; simpl; [done|].
  rewrite bind_assoc, !(bind_bind_unit (body a)).
  destruct (body a w) as [w1 [[]|x]]; [apply IH | done].
Qed.

Lemma partition_loop_appended evs (w : world) :
  (forall e, e ∈ evs -> metadata e !! "lang" = None ->
     is_Some (metadata e !! "title")) ->
  exists loc,
    partition_loop evs w
    = (mk_world (heap w) (events w) loc (files w) (events_list w), Ok tt)
    ∧ appended (localized_events w) loc evs.
Proof.
  unfold partition_loop. revert w.
  induction evs as [|e evs IH]; intros w Ht; simpl.
  { exists (localized_events w). split; [by destruct w | done]. }
  assert (Ht' : forall e', e' ∈ evs -> metadata e' !! "lang" = None ->
            is_Some (metadata e' !! "title")).
  { intros e' He'. apply Ht. by apply elem_of_cons; right. }
  destruct (metadata e !! "lang") as [k0|] eqn:Hk0.
  - unfold localized_append. rewrite bind_modify.
    destruct (IH (mk_world (heap w) (events w)
                    (<[k0 := default [] (localized_events w !! k0) ++ [e]]>
                       (localized_events w))
                    (files w) (events_list w)) Ht') as (loc & Hrun & Hloc).
    exists loc. split; [exact Hrun|]. intros k. rewrite (Hloc k). simpl.
    unfold of_language. rewrite filter_cons.
    destruct (decide (k = k0)) as [->|Hne].
    + rewrite decide_True by done. rewrite lookup_insert_eq. simpl.
      destruct (filter _ evs) as [|e' l]; [done|].
      by rewrite <- app_assoc.
    + rewrite decide_False by (rewrite Hk0; congruence).
      by rewrite lookup_insert_ne.
  - destruct (Ht e) as [title Htitle]; [by apply elem_of_cons; left|done|].
    rewrite bind_assoc, bind_lift. unfold getitem. rewrite Htitle.
    rewrite bind_ret.
    destruct (IH w Ht') as (loc & Hrun & Hloc).
    exists loc. split; [exact Hrun|]. intros k. rewrite (Hloc k).
    unfold of_language. rewrite filter_cons.
    by rewrite decide_False by (by rewrite Hk0).
Qed.

(** With the multi-locale plugin listed and the output directory
    there, or made without an exception, what is left of
    [generate_localized_events] is its loop. *)
Lemma generate_localized_events_loop (g : generator) plugins out fs
    (w : world) :
  PLUGINS (gen_settings g) = Some plugins ->
  VStr "i18n_subsites" ∈ plugins ->
  OUTPUT_PATH (gen_settings g) = Some out ->
  (if os_path_exists (files w) out then (files w, Ok tt)
   else os_makedirs (files w) out) = (fs, Ok tt) ->
  generate_localized_events g w
  = partition_loop (events w)
      (mk_world (heap w) (events w) (localized_events w) fs (events_list w)).
Proof.
  intros Hpl Hin Hout Hdir. unfold generate_localized_events.
  rewrite Hpl, Hout. simpl. rewrite bind_lift.
  rewrite (bool_decide_eq_true_2 _ Hin). rewrite bind_lift, bind_gets.
  destruct (os_path_exists (files w) out); simpl.
  - injection Hdir as <-. rewrite bind_ret, bind_gets. by destruct w.
  - rewrite bind_bind_unit. unfold on_files. rewrite Hdir.
    by rewrite bind_gets.
Qed.

(** X16. With the multi-locale plugin listed, [generate_localized_events]
    appends every stored event that has a language to the list of that
    language, in the order of the store: afterwards the list of a
    language is what it was, followed by the stored events of that
    language, and a language gets a list only if it had one or some
    stored event carries it.  Events without a language are passed
    over; they need a title, for the log line.  The output directory
    is made first if it is not there. *)
Theorem partition_by_language (w : world) (g : generator)
    (plugins : list pyval) (out : string) (fs : filesystem) :
  PLUGINS (gen_settings g) = Some plugins ->
  VStr "i18n_subsites" ∈ plugins ->
  OUTPUT_PATH (gen_settings g) = Some out ->
  (if os_path_exists (files w) out then (files w, Ok tt)
   else os_makedirs (files w) out) = (fs, Ok tt) ->
  (forall e, e ∈ events w -> metadata e !! "lang" = None ->
     is_Some (metadata e !! "title")) ->
  let w' := (generate_localized_events g w).1 in
  (generate_localized_events g w).2 = Ok tt
  ∧ files w' = fs
  ∧ appended (localized_events w) (localized_events w') (events w).
Proof.
  intros Hpl Hin Hout Hdir Ht w'. unfold w'.
  rewrite (generate_localized_events_loop g plugins out fs w) by done.
  destruct (partition_loop_appended (events w)
              (mk_world (heap w) (events w) (localized_events w) fs
                 (events_list w)) Ht) as (loc & -> & Hloc).
  done.
Qed.

(** X17. A stored event with neither a language nor a title stops
    [generate_localized_events] with the [KeyError] of the title: the
    events before it in the store are in the lists of their languages,
    the events after it are in none. *)
Theorem partition_untitled_event (w : world) (g : generator)
    (plugins : list pyval) (out : string) (fs : filesystem)
    (before : list Event) (e : Event) (after : list Event) :
  PLUGINS (gen_settings g) = Some plugins ->
  VStr "i18n_subsites" ∈ plugins ->
  OUTPUT_PATH (gen_settings g) = Some out ->
  (if os_path_exists (files w) out then (files w, Ok tt)
   else os_makedirs (files w) out) = (fs, Ok tt) ->
  events w = before ++ e :: after ->
  (forall e', e' ∈ before -> metadata e' !! "lang" = None ->
     is_Some (metadata e' !! "title")) ->
  metadata e !! "lang" = None ->
  metadata e !! "title" = None ->
  let w' := (generate_localized_events g w).1 in
  (generate_localized_events g w).2 = Raise (KeyError "title")
  ∧ appended (localized_events w) (localized_events w') before.
Proof.
  intros Hpl Hin Hout Hdir Hev Ht Hlang Htitle w'. unfold w'.
  rewrite (generate_localized_events_loop g plugins out fs w) by done.
  rewrite Hev.
  set (w1 := mk_world (heap w) (before ++ e :: after) (localized_events w)
               fs (events_list w)).
  destruct (partition_loop_appended before w1 Ht) as (loc & Hrun & Hloc).
  assert (partition_loop (before ++ e :: after) w1
          = (mk_world (heap w1) (events w1) loc (files w1) (events_list w1),
             Raise (KeyError "title"))) as ->; [|done].
  unfold partition_loop. rewrite for_each_app.
  fold (partition_loop before). rewrite bind_bind_unit, Hrun.
  simpl. rewrite Hlang.
  rewrite bind_assoc, bind_lift. unfold getitem. by rewrite Htitle.
Qed.

End PartitionFacts.

Section ListingFacts.
Context `{Host}.

(** The events of [l] with the sort key [k], in order. *)
Definition with_key (k : datetime * datetime) (l : list Event) : list Event :=
  filter (fun e => key e = k) l.

Lemma key_lt_key a b : key_lt a b = true -> key a <> key b.
Proof.
  unfold key_lt, key_cmp. intros Hlt Heq. rewrite Heq in Hlt.
  rewrite (proj2 (datetime_cmp_eq _ _) eq_refl) in Hlt. simpl in Hlt.
  by rewrite (proj2 (datetime_cmp_eq _ _) eq_refl) in Hlt.
Qed.

Lemma insort_with_key k x l : with_key k (insort x l) = with_key k (x :: l).
Proof.
  unfold with_key. induction l as [|y l IH]; simpl; [done|].
  destruct (key_lt y x) eqn:Hyx; [|done].
  rewrite filter_cons, IH, !filter_cons.
  apply key_lt_key in Hyx.
  destruct (decide (key y = k)) as [Hy|Hy];
    destruct (decide (key x = k)) as [Hx|Hx]; try done.
  congruence.
Qed.

Lemma sort_ascending_with_key k l :
  with_key k (sort_ascending l) = with_key k l.
Proof.
  induction l as [|x l IH]; simpl; [done|].
  rewrite insort_with_key. unfold with_key in *.
  by rewrite !filter_cons, IH.
Qed.

Lemma with_key_rev k l : with_key k (rev l) = rev (with_key k l).
Proof.
  unfold with_key. induction l as [|x l IH]; simpl; [done|].
  rewrite filter_app, IH, filter_cons.
  destruct (decide (key x = k)); simpl.
  - by rewrite filter_cons, decide_True by done.
  - rewrite filter_cons, decide_False by done. simpl. by rewrite app_nil_r.
Qed.

Lemma sorted_reverse_with_key k l :
  with_key k (sorted_reverse l) = with_key k l.
Proof.
  unfold sorted_reverse.
  by rewrite with_key_rev, sort_ascending_with_key, with_key_rev,
    rev_involutive.
Qed.

(** X18. The listing is sorted stably.  In every published list, events
    with the same start and the same end stand in the order they have
    in the list it was made from: the order of the store, or of the
    list of the language. *)
Theorem listing_stable (w : world) (g : generator) (k : datetime * datetime) :
  match events_list (generate_events_list g w).1 with
  | Some (GlobalList l) => with_key k l = with_key k (events w)
  | Some (PerLanguage m) =>
      forall lang l, m !! lang = Some l ->
        exists l0, localized_events w !! lang = Some l0
                   ∧ with_key k l = with_key k l0
  | None => False
  end.
Proof.
  simpl. case_bool_decide.
  - apply sorted_reverse_with_key.
  - intros lang l. rewrite lookup_fmap.
    destruct (localized_events w !! lang) as [l0|]; [|done].
    intros [= <-]. exists l0. split; [done|]. apply sorted_reverse_with_key.
Qed.

End ListingFacts.

(* ================================================================== *)
(** * More on the exporter and on [generate_events] as a whole *)
(* ================================================================== *)

Section ExporterFacts.
Context `{Host}.

(** The values of the properties called [name], in the order they
    were added. *)
Definition property (name : string) (ie : component) : list pyval :=
  (filter (fun p => p.1 = name) (properties ie)).*2.

(** X19. What a component is made of.  An event is serialized only if
    its metadata have a ['date'] that is a datetime, a ['title'] and a
    ['slug'] that is a string, and the settings a [SITENAME].  The
    component has one uid, the slug and the site name around an [@];
    and at most one location: the ['event-location'] of the metadata,
    or without it their ['location']. *)
Theorem component_fields (g : generator) (tz : tzinfo) (siteurl : string)
    (e : Event) (ie : component) :
  ical_event g tz siteurl e = Ok ie ->
  exists t title slug sitename,
    metadata e !! "date" = Some (VDatetime t)
    ∧ metadata e !! "title" = Some title
    ∧ metadata e !! "slug" = Some (VStr slug)
    ∧ SITENAME (gen_settings g) = Some sitename
    ∧ property "uid" ie = [VStr ((slug +:+ "@") +:+ sitename)]
    ∧ property "location" ie
      = match metadata e !! "event-location" with
        | Some v => [v]
        | None =>
            match metadata e !! "location" with
            | Some v => [v]
            | None => []
            end
        end.
Proof.
  unfold ical_event, getitem, setting.
  destruct (localize_astimezone_utc tz (dtstart e)) as [s|]; simpl; [|done].
  destruct (localize_astimezone_utc tz (dtend e)) as [t|]; simpl; [|done].
  destruct (metadata e !! "date") as [[| |date|]|]; simpl; try done.
  destruct (localize_astimezone_utc tz date) as [stamp|]; simpl; [|done].
  destruct (metadata e !! "title") as [title|]; simpl; [|done].
  destruct (striptags title) as [summary|]; simpl; [|done].
  destruct (metadata e !! "slug") as [[|slug| |]|]; simpl; try done.
  destruct (SITENAME (gen_settings g)) as [sitename|]; simpl; [|done].
  destruct (get_summary (article e) siteurl) as [text|]; simpl; [|done].
  destruct (striptags (VStr text)) as [description|]; simpl; [|done].
  intros [= <-]. exists date, title, slug, sitename.
  repeat (split; [done|]). unfold property. cbn [properties].
  destruct (metadata e !! "event-location");
    [|destruct (metadata e !! "location")]; split; reflexivity.
Qed.

Lemma ical_events_raise g tz siteurl l e x :
  e ∈ l -> ical_event g tz siteurl e = Raise x ->
  exists x', ical_events g tz siteurl l = Raise x'.
Proof.
  induction l as [|e' l IH]; intros Hin He; [by apply elem_of_nil in Hin|].
  simpl. destruct (ical_event g tz siteurl e') as [ie|x'] eqn:He';
    simpl; [|by eexists].
  apply elem_of_cons in Hin as [->|Hin]; [congruence|].
  destruct (IH Hin He) as [x' ->]. by eexists.
Qed.

(** X20. One event that cannot be serialized stops the export.  With
    the export enabled, if the component of some selected event cannot
    be made (a missing ['date'], ['title'] or ['slug'], say), the
    exporter raises and the file system is as it was: no calendar is
    written, not even with the other events. *)
Theorem export_aborts_on_bad_event (w : world) (g : generator)
    (name out tzname siteurl lang : string) (tz : tzinfo)
    (e : Event) (x : exn) :
  configured g name out tzname siteurl lang ->
  pytz_timezone tzname = Ok tz ->
  e ∈ selected_events lang w ->
  ical_event g tz siteurl e = Raise x ->
  (exists x', (generate_ical_file g w).2 = Raise x')
  ∧ files (generate_ical_file g w).1 = files w.
Proof.
  intros Hcfg Htz Hin He.
  rewrite (generate_ical_file_configured g name out tzname siteurl lang tz)
    by done.
  destruct (ical_events_raise g tz siteurl _ e x Hin He) as [x' ->].
  simpl. split; [by eexists | apply after_lookup_files].
Qed.

(** X21. What the exporter leaves alone, whether it returns or raises.
    The content objects, [events] and the published listing are as
    they were.  The file system is as it was, or what one write left
    of it, the last step of the exporter, whose result is then the
    result of the exporter.  The language mapping is as it was, or it
    has gained an empty list under the default language, which it had
    no list for while other languages had. *)
Theorem export_frame (w : world) (g : generator) :
  let w' := (generate_ical_file g w).1 in
  heap w' = heap w
  ∧ events w' = events w
  ∧ events_list w' = events_list w
  ∧ (files w' = files w
     ∨ exists path data,
         write_binary (files w) path data
         = (files w', (generate_ical_file g w).2))
  ∧ (localized_events w' = localized_events w
     ∨ exists lang,
         DEFAULT_LANG (gen_settings g) = Some lang
         ∧ localized_events w <> ∅
         ∧ localized_events w !! VStr lang = None
         ∧ localized_events w' = <[VStr lang := []]> (localized_events w)).
Proof.
  intros w'. unfold w'.
  destruct (keeps_generate_ical_file g w) as [Hh He].
  split; [done|]. split; [done|].
  unfold generate_ical_file, setting. cbv zeta.
  rewrite bind_lift.
  destruct (PLUGIN_EVENTS (gen_settings g)) as [pe|];
    [|split; [done|]; split; by left].
  rewrite bind_lift.
  destruct (getitem pe "ics_fname") as [f|];
    [|split; [done|]; split; by left].
  destruct (truthy f); cbn [negb]; [|split; [done|]; split; by left].
  rewrite bind_lift.
  destruct (OUTPUT_PATH (gen_settings g)) as [out|];
    [|split; [done|]; split; by left].
  rewrite bind_lift.
  destruct f as [|name| |]; try (split; [done|]; split; by left).
  rewrite bind_lift.
  destruct (TIMEZONE (gen_settings g)) as [tzname|];
    [|split; [done|]; split; by left].
  rewrite bind_lift.
  destruct (pytz_timezone tzname) as [tz|];
    [|split; [done|]; split; by left].
  rewrite bind_lift.
  destruct (SITEURL (gen_settings g)) as [siteurl|];
    [|split; [done|]; split; by left].
  rewrite bind_lift.
  destruct (DEFAULT_LANG (gen_settings g)) as [lang|];
    [|split; [done|]; split; by left].
  rewrite bind_bind_unit, curr_events_selected, bind_lift.
  assert (Hloc : localized_events (after_lookup lang w) = localized_events w
            ∨ exists lang',
                Some lang = Some lang'
                ∧ localized_events w <> ∅
                ∧ localized_events w !! VStr lang' = None
                ∧ localized_events (after_lookup lang w)
                  = <[VStr lang' := []]> (localized_events w)).
  { unfold after_lookup. case_bool_decide as Hempty; [by left|].
    destruct (localized_events w !! VStr lang) eqn:Hl; [by left|].
    right. by exists lang. }
  assert (Hel : events_list (after_lookup lang w) = events_list w).
  { unfold after_lookup. case_bool_decide; [done|].
    by destruct (localized_events w !! VStr lang). }
  destruct (ical_events g tz siteurl (selected_events lang w)) as [comps|x].
  - unfold on_files. rewrite after_lookup_files.
    destruct (write_binary (files w) (os_path_join out name)
                (to_ical (mk_calendar ical_header comps))) as [fs r] eqn:Hw.
    simpl. split; [done|]. split; [|done].
    right. by eexists _, _.
  - simpl. split; [done|]. split; [|done]. left. apply after_lookup_files.
Qed.

End ExporterFacts.

Section WholeCall.
Context `{Host}.

(** ** Steps that leave the published listing alone *)

Definition keeps_listing {A} (m : M A) : Prop :=
  forall w, events_list (m w).1 = events_list w.

Lemma kl_ret {A} (a : A) : keeps_listing (ret a).
Proof. by intros w. Qed.

Lemma kl_lift {A} (r : result A) : keeps_listing (lift r).
Proof. by intros w. Qed.

Lemma kl_gets {A} (f : world -> A) : keeps_listing (gets f).
Proof. by intros w. Qed.

Lemma kl_bind {A B} (m : M A) (f : A -> M B) :
  keeps_listing m -> (forall a, keeps_listing (f a)) ->
  keeps_listing (bind m f).
Proof.
  intros Hm Hf w. unfold bind. specialize (Hm w).
  destruct (m w) as [w1 [a|e]]; simpl in *; [|done].
  by rewrite (Hf a w1).
Qed.

Lemma kl_for_each {A} (l : list A) (body : A -> M unit) :
  (forall a, keeps_listing (body a)) -> keeps_listing (for_each l body).
Proof.
  intros Hb. induction l as [|a l IH]; simpl.
  - apply kl_ret.
  - apply kl_bind; [apply Hb | by intros _].
Qed.

Lemma kl_on_files f : keeps_listing (on_files f).
Proof. intros w. unfold on_files. by destruct (f (files w)). Qed.

Lemma kl_collect cs : keeps_listing (collect cs).
Proof. intros w. by rewrite collect_collected. Qed.

Lemma kl_generate_localized_events g :
  keeps_listing (generate_localized_events g).
Proof.
  unfold generate_localized_events.
  apply kl_bind; [apply kl_lift|]. intros plugins.
  case_bool_decide; [|apply kl_ret].
  apply kl_bind; [apply kl_lift|]. intros out.
  apply kl_bind; [apply kl_gets|]. intros there.
  apply kl_bind.
  { destruct there; simpl; [apply kl_ret | apply kl_on_files]. }
  intros _. apply kl_bind; [apply kl_gets|]. intros evs.
  apply kl_for_each. intros e.
  destruct (metadata e !! "lang").
  - by intros w.
  - apply kl_bind; [apply kl_lift | intros; apply kl_ret].
Qed.

Lemma kl_curr_events lang : keeps_listing (curr_events lang).
Proof.
  intros w. unfold curr_events. case_bool_decide; [done|].
  by destruct (localized_events w !! VStr lang).
Qed.

Lemma kl_generate_ical_file g : keeps_listing (generate_ical_file g).
Proof.
  unfold generate_ical_file.
  apply kl_bind; [apply kl_lift|]. intros pe.
  apply kl_bind; [apply kl_lift|]. intros f.
  destruct (negb (truthy f)); [apply kl_ret|].
  repeat (apply kl_bind; [apply kl_lift|]; intros ?).
  apply kl_bind; [apply kl_curr_events|]. intros evs.
  apply kl_bind; [apply kl_lift|]. intros comps.
  apply kl_on_files.
Qed.

(** The steps of [generate_events] before the listing. *)
Definition before_listing (g : generator) : M unit :=
  (collect (generated_content g) ;;
   generate_localized_events g ;;
   generate_ical_file g)%M.

Lemma generate_events_before_listing g (w : world) :
  generate_events g w
  = bind (before_listing g) (fun _ => generate_events_list g) w.
Proof.
  unfold generate_events, before_listing, bind.
  destruct (collect (generated_content g) w) as [w1 [[]|x]]; [|done].
  destruct (generate_localized_events g w1) as [w2 [[]|x]]; [|done].
  by destruct (generate_ical_file g w2) as [w3 [[]|x]].
Qed.

Lemma kl_before_listing g : keeps_listing (before_listing g).
Proof.
  unfold before_listing.
  apply kl_bind; [apply kl_collect|]. intros _.
  apply kl_bind; [apply kl_generate_localized_events|]. intros _.
  apply kl_generate_ical_file.
Qed.

(** X22. The listing is published last, and only if nothing before it
    has raised.  When [generate_events] returns, the published listing
    is the sorted view of the store as the call leaves it, the
    language mapping included.  When it raises, the published listing
    is the one from before the call, though the store may have
    changed. *)
Theorem listing_published_last (w : world) (g : generator) :
  let w' := (generate_events g w).1 in
  match (generate_events g w).2 with
  | Ok _ =>
      events_list w'
      = Some (if bool_decide (localized_events w' = ∅)
              then GlobalList (sorted_reverse (events w'))
              else PerLanguage (sorted_reverse <$> localized_events w'))
  | Raise _ => events_list w' = events_list w
  end.
Proof.
  intros w'. unfold w'. rewrite generate_events_before_listing.
  rewrite bind_bind_unit. pose proof (kl_before_listing g w) as Hk.
  destruct (before_listing g w) as [w1 [[]|x]]; simpl in *; done.
Qed.

Lemma export_default_key (g : generator) (pe : dict) (f : pyval)
    (lang : string) (w w1 : world) :
  PLUGIN_EVENTS (gen_settings g) = Some pe ->
  pe !! "ics_fname" = Some f ->
  truthy f = true ->
  DEFAULT_LANG (gen_settings g) = Some lang ->
  generate_ical_file g w = (w1, Ok tt) ->
  localized_events w1 = ∅ ∨ is_Some (localized_events w1 !! VStr lang).
Proof.
  intros Hpe Hf Ht Hlang. unfold generate_ical_file, setting, getitem.
  cbv zeta. rewrite Hpe, Hlang, bind_lift, Hf, bind_lift, Ht. cbn [negb].
  rewrite bind_lift.
  destruct (OUTPUT_PATH (gen_settings g)) as [out|]; [|done].
  rewrite bind_lift. destruct f as [|name| |]; try done.
  rewrite bind_lift.
  destruct (TIMEZONE (gen_settings g)) as [tzname|]; [|done].
  rewrite bind_lift. destruct (pytz_timezone tzname) as [tz|]; [|done].
  rewrite bind_lift.
  destruct (SITEURL (gen_settings g)) as [siteurl|]; [|done].
  rewrite bind_lift.
  rewrite bind_bind_unit, curr_events_selected, bind_lift.
  destruct (ical_events g tz siteurl (selected_events lang w)) as [comps|x];
    [|done].
  unfold on_files. destruct (write_binary _ _ _) as [fs r].
  intros [= <- _]. simpl.
  unfold after_lookup. case_bool_decide as Hempty; [by left|].
  right. destruct (localized_events w !! VStr lang) eqn:Hl; simpl.
  - by rewrite Hl.
  - by rewrite lookup_insert_eq.
Qed.

Lemma generate_events_export g (w : world) :
  (generate_events g w).2 = Ok tt ->
  exists w2 w3,
    generate_ical_file g w2 = (w3, Ok tt)
    ∧ (generate_events g w).1 = (generate_events_list g w3).1.
Proof.
  unfold generate_events. rewrite (bind_bind_unit (collect _)).
  destruct (collect (generated_content g) w) as [w1 [[]|x]]; [|done].
  rewrite (bind_bind_unit (generate_localized_events g)).
  destruct (generate_localized_events g w1) as [w2 [[]|x]]; [|done].
  rewrite (bind_bind_unit (generate_ical_file g)).
  destruct (generate_ical_file g w2) as [w3 [[]|x]] eqn:Hexp; [|done].
  intros _. by exists w2, w3.
Qed.

(** X23. The default language is always listed.  When [generate_events]
    returns with the export enabled and some language has a list, the
    published listing is the one by language, and it has a list for
    the default language: reading the list of the default language for
    the export has put it in the mapping.  That list is empty if no
    stored event carries the default language, the language mapping
    being sound before the call, as it is after a reset. *)
Theorem default_language_listed (w : world) (g : generator)
    (pe : dict) (f : pyval) (lang : string) :
  PLUGIN_EVENTS (gen_settings g) = Some pe ->
  pe !! "ics_fname" = Some f ->
  truthy f = true ->
  DEFAULT_LANG (gen_settings g) = Some lang ->
  (generate_events g w).2 = Ok tt ->
  localized_events (generate_events g w).1 <> ∅ ->
  exists m,
    events_list (generate_events g w).1 = Some (PerLanguage m)
    ∧ is_Some (m !! VStr lang)
    ∧ (partitions_within w -> partitions_tagged w ->
       (forall e, e ∈ events (generate_events g w).1 ->
          metadata e !! "lang" <> Some (VStr lang)) ->
       m !! VStr lang = Some []).
Proof.
  intros Hpe Hf Ht Hlang Hok Hne.
  destruct (generate_events_export g w Hok) as (w2 & w3 & Hexp & Hfinal).
  pose proof (generate_events_partitions g w) as Hparts.
  rewrite Hfinal in Hne, Hparts |- *. simpl in Hne, Hparts |- *.
  rewrite (bool_decide_eq_false_2 _ Hne).
  eexists. split; [done|]. rewrite lookup_fmap.
  destruct (export_default_key g pe f lang w2 w3 Hpe Hf Ht Hlang Hexp)
    as [Hempty|[l Hl]]; [done|].
  rewrite Hl. simpl. split; [by eexists|].
  intros Hin Htag Hnone. destruct (Hparts Hin Htag) as [Hin' Htag'].
  destruct l as [|e l]; [done|]. exfalso. apply (Hnone e).
  - apply (Hin' (VStr lang) (e :: l)); [done|]. by apply elem_of_cons; left.
  - apply (Htag' (VStr lang) (e :: l)); [done|]. by apply elem_of_cons; left.
Qed.

End WholeCall.

(* ================================================================== *)
(** * More invariants *)
(* ================================================================== *)

Section MoreInvariants.
Context `{Host}.

Lemma timedelta_new_normalized d s us m h w t :
  timedelta_new d s us m h w = Ok t ->
  -999999999 <= days t <= 999999999
  ∧ 0 <= seconds t < 86400
  ∧ 0 <= microseconds t < 1000000.
Proof.
  unfold timedelta_new. cbv zeta.
  destruct (999999999 <? _) eqn:Hover; [done|].
  intros [= <-]. simpl. apply Z.ltb_ge in Hover.
  split; [lia|]. split; apply Z.mod_pos_bound; lia.
Qed.

(** X24. A duration that parses is normalized: no more than 999999999
    days either way, from 0 to 86399 seconds, and no microseconds,
    since no unit of a duration is below the second. *)
Theorem parse_timedelta_normalized (ev : dict) (d : timedelta) :
  parse_timedelta ev = Ok d ->
  -999999999 <= days d <= 999999999
  ∧ 0 <= seconds d < 86400
  ∧ microseconds d = 0.
Proof.
  unfold parse_timedelta, getitem.
  destruct (ev !! "event-duration") as [[| s | |]|]; simpl; try done.
  destruct (parse_chunks ev ∅ (py_split (chars_of s))) as [tdargs|x];
    simpl; [|done].
  unfold timedelta_kwargs. intros Hnew.
  destruct (timedelta_new_normalized _ _ _ _ _ _ _ Hnew) as (Hd & Hs & _).
  split; [done|]. split; [done|].
  unfold timedelta_new in Hnew. cbv zeta in Hnew.
  destruct (999999999 <? _); [done|]. by injection Hnew as <-.
Qed.

(** X25. What the resolver attaches are datetimes that the [datetime]
    constructor accepts: the start on a whole minute, and the end on a
    whole minute too, whether it was read from ['event-end'] or is the
    start plus the duration and the duration is a whole number of
    minutes. *)
Theorem annotations_valid (w w' : world) (c : nat) :
  let md := content_metadata (deref w c) in
  is_Some (md !! "event-start") ->
  parse_article c w = (w', Ok tt) ->
  exists s e,
    resolved w' c s e
    ∧ valid_datetime s ∧ valid_datetime e
    ∧ second s = 0 ∧ microsecond s = 0 ∧ microsecond e = 0
    ∧ (is_Some (md !! "event-end") -> second e = 0)
    ∧ (forall d, md !! "event-end" = None -> parse_timedelta md = Ok d ->
       seconds d mod 60 = 0 -> second e = 0).
Proof.
  intros md Hstart. rewrite parse_article_resolve. fold md.
  rewrite contains_true by done. unfold resolve.
  assert (Hwhole : forall k t, parse_tstamp md k = Ok t ->
            valid_datetime t ∧ second t = 0 ∧ microsecond t = 0).
  { intros k t Hp. split; [by eapply parse_tstamp_valid|].
    unfold parse_tstamp, getitem in Hp.
    destruct (md !! k) as [[| text | |]|]; simpl in Hp;
      try (by destruct (md !! "title")).
    change "%Y-%m-%d %H:%M" with the_format in Hp.
    pose proof (strptime_sound text) as Hsound.
    destruct (Strptime._strptime text the_format) as [t'|];
      [|by destruct (md !! "title")].
    injection Hp as ->.
    by destruct Hsound as (sY & sm & sd & ws & sH & sM & _ & _ & _ & _ & _
                           & _ & _ & Hsec & Hus & _). }
  destruct (parse_tstamp md "event-start") as [s|] eqn:Hs; simpl; [|done].
  destruct (Hwhole _ _ Hs) as (Hvs & Hss & Hus).
  destruct (md !! "event-end") as [v|] eqn:Hend.
  - rewrite contains_true by (by eexists).
    destruct (parse_tstamp md "event-end") as [e|] eqn:He; simpl; [|done].
    destruct (Hwhole _ _ He) as (Hve & Hse & Hue).
    intros [= <-]. exists s, e. split; [apply attach_annotations|].
    do 5 (split; [done|]). split; [done|].
    intros d Hnone. discriminate Hnone.
  - rewrite contains_false by done.
    destruct (contains md "event-duration").
    + destruct (parse_timedelta md) as [d|] eqn:Hd; simpl; [|done].
      pose proof (datetime_add_instant s d Hvs) as Hadd.
      destruct (datetime_add s d) as [e|] eqn:He; simpl; [|done].
      destruct Hadd as [Hi Hve].
      destruct (parse_timedelta_normalized md d Hd) as (_ & Hsec & Hmic).
      assert (instant e = instant s + (days d * 86400 + seconds d) * 1000000)
        as Hi' by (rewrite Hi; unfold span_microseconds; lia).
      assert (Hfields : microsecond e = 0
                ∧ (seconds d mod 60 = 0 -> second e = 0)).
      { destruct Hvs as (_ & Hh & Hm & _ & _).
        destruct Hve as (_ & Hh' & Hm' & Hs' & Hus').
        unfold instant in Hi'. rewrite Hss, Hus in Hi'.
        split; [|intros Hmin]; Z.div_mod_to_equations; lia. }
      destruct Hfields as [Hue Hse].
      intros [= <-]. exists s, e. split; [apply attach_annotations|].
      do 5 (split; [done|]). split; [by intros [? ?]|].
      intros d' _ [= <-]. exact Hse.
    + by destruct (getitem md "title").
Qed.

Lemma appended_default loc loc' evs k :
  appended loc loc' evs ->
  default [] (loc' !! k) = default [] (loc !! k) ++ of_language k evs.
Proof.
  intros Happ. rewrite (Happ k).
  destruct (of_language k evs); [by rewrite app_nil_r | done].
Qed.

(** X26. The language lists are not kept free of duplicates.  A second
    [generate_localized_events] over the same store appends every
    stored event that has a language to the list of its language once
    more: the list is then what it was, followed by the stored events
    of the language, twice. *)
Theorem partition_not_deduplicated (w : world) (g : generator)
    (plugins : list pyval) (out : string) (fs fs2 : filesystem) :
  PLUGINS (gen_settings g) = Some plugins ->
  VStr "i18n_subsites" ∈ plugins ->
  OUTPUT_PATH (gen_settings g) = Some out ->
  (if os_path_exists (files w) out then (files w, Ok tt)
   else os_makedirs (files w) out) = (fs, Ok tt) ->
  (if os_path_exists fs out then (fs, Ok tt)
   else os_makedirs fs out) = (fs2, Ok tt) ->
  (forall e, e ∈ events w -> metadata e !! "lang" = None ->
     is_Some (metadata e !! "title")) ->
  let w2 :=
    (generate_localized_events g (generate_localized_events g w).1).1 in
  events w2 = events w
  ∧ forall k,
      default [] (localized_events w2 !! k)
      = default [] (localized_events w !! k)
        ++ of_language k (events w) ++ of_language k (events w).
Proof.
  intros Hpl Hin Hout Hdir Hdir2 Ht w2. unfold w2.
  rewrite (generate_localized_events_loop g plugins out fs w) by done.
  destruct (partition_loop_appended (events w)
              (mk_world (heap w) (events w) (localized_events w) fs
                 (events_list w)) Ht) as (loc & -> & Hloc).
  simpl in *.
  rewrite (generate_localized_events_loop g plugins out fs2) by done.
  simpl.
  destruct (partition_loop_appended (events w)
              (mk_world (heap w) (events w) loc fs2 (events_list w)) Ht)
    as (loc2 & -> & Hloc2).
  simpl in *. split; [done|]. intros k.
  rewrite (appended_default _ _ _ k Hloc2), (appended_default _ _ _ k Hloc).
  by rewrite <- app_assoc.
Qed.

(** X27. In a listing by language, every event stands under its own
    language.  When [generate_events] returns and publishes lists by
    language, each event of the list of a language carries that
    language in its metadata and is in the store; so an event without
    a language is in no published list.  The language mapping is
    assumed sound before the call, as it is after a reset. *)
Theorem listing_by_language_tagged (w : world) (g : generator)
    (m : gmap pyval (list Event)) :
  partitions_within w -> partitions_tagged w ->
  events_list (generate_events g w).1 = Some (PerLanguage m) ->
  (generate_events g w).2 = Ok tt ->
  forall k l e, m !! k = Some l -> e ∈ l ->
    metadata e !! "lang" = Some k ∧ e ∈ events (generate_events g w).1.
Proof.
  intros Hin Htag Hlist Hok k l e Hk He.
  destruct (generate_events_partitions g w Hin Htag) as [Hin' Htag'].
  revert Hlist Hok. rewrite generate_events_before_listing, bind_bind_unit.
  intros Hlist Hok.
  rewrite generate_events_before_listing, bind_bind_unit in Hin', Htag'.
  destruct (before_listing g w) as [w1 [[]|x]]; [|done].
  simpl in *. case_bool_decide; [done|]. injection Hlist as <-.
  rewrite lookup_fmap in Hk.
  destruct (localized_events w1 !! k) as [l0|] eqn:Hl0; [|done].
  injection Hk as <-.
  assert (e ∈ l0) as He0 by (by rewrite <- (sorted_reverse_Permutation l0)).
  split; [by apply (Htag' k l0) | by apply (Hin' k l0)].
Qed.

End MoreInvariants.

(* ================================================================== *)
(** * More concrete runs *)
(* ================================================================== *)

Module MoreRuns.
Import SmallHost Runs.

(** ** Durations and timestamps *)


(** A count of 4301 digits, all but the last zeros, is refused,
    whatever number it writes; with one zero less it is read. *)
Example count_of_4301_digits :
  py_int (zeros 4300 ++ chars_of "1") = None
  ∧ py_int (zeros 4299 ++ chars_of "1") = Some 1.
Proof.
  split.
  - apply py_int_limit. rewrite digit_count_app, digit_count_zeros.
    unfold int_max_str_digits. simpl digit_count. lia.
  - apply (py_int_zeros 4298 "1" 1); [done|].
    unfold int_max_str_digits. lia.
Qed.

Lemma with_duration_lookup s :
  with_duration s !! "event-duration" = Some (VStr s)
  ∧ is_Some (with_duration s !! "title").
Proof.
  unfold with_duration. split.
  - rewrite lookup_insert_ne by done. by rewrite lookup_singleton_eq.
  - rewrite lookup_insert_eq. by eexists.
Qed.

(** In ["2h 5x 1d"] the chunk ["5x"] is the first that is no
    [<int><unit>]; the chunk after it is not looked at.  A chunk of
    4301 digits and a unit letter is none either: its count is not one
    that [int] reads. *)
Lemma duration_first_bad_chunk_witness :
  py_split (chars_of "2h 5x 1d")
  = [chars_of "2h"] ++ chars_of "5x" :: [chars_of "1d"]
  ∧ parse_timedelta (with_duration "2h 5x 1d")
    = Raise (RuntimeError (unknown_time_multiplier "5x"))
  ∧ py_int (zeros 4300 ++ chars_of "1") = None
  ∧ parse_timedelta (with_duration (str_of (zeros 4300 ++ chars_of "1d")))
    = Raise (ValueError
               (unable_to_parse (str_of (zeros 4300 ++ chars_of "1d")))).
Proof.
  assert (py_split (chars_of "2h 5x 1d")
          = [chars_of "2h"] ++ chars_of "5x" :: [chars_of "1d"]) as Hsplit
    by (vm_compute; reflexivity).
  assert (Forall2 chunk_denotes [chars_of "2h"] [(2, Hours)]) as Hgood.
  { repeat constructor. by exists (chars_of "2"). }
  split; [exact Hsplit|]. split.
  { refine (proj1 (duration_first_bad_chunk (with_duration "2h 5x 1d")
                     "2h 5x 1d" [chars_of "2h"] (chars_of "5x")
                     [chars_of "1d"] [(2, Hours)] eq_refl
                     (ex_intro _ (VStr "Talk") eq_refl) Hsplit Hgood) _).
    intros []; vm_compute; discriminate. }
  assert (py_int (zeros 4300 ++ chars_of "1") = None) as Hlong.
  { apply py_int_limit. rewrite digit_count_app, digit_count_zeros.
    unfold int_max_str_digits. simpl digit_count. lia. }
  split; [exact Hlong|].
  set (long := zeros 4300 ++ chars_of "1d").
  destruct (with_duration_lookup (str_of long)) as [Hfield Htitle].
  assert (py_split (chars_of (str_of long)) = [] ++ long :: []) as Hone.
  { unfold chars_of, str_of. rewrite list_ascii_of_string_of_list_ascii.
    unfold py_split. rewrite split_from_run; [done| |by right].
    apply Forall_app. split; [apply zeros_not_space|].
    by repeat constructor. }
  assert (Forall2 chunk_denotes [] []) as Hnone by constructor.
  exact (proj2 (duration_first_bad_chunk (with_duration (str_of long))
                  (str_of long) [] long [] [] Hfield Htitle Hone Hnone)
               (zeros 4300 ++ chars_of "1") Days
               (eq_sym (app_assoc (zeros 4300) (chars_of "1") (chars_of "d")))
               Hlong).
Defined.

Lemma parse_tstamp_outcomes_witness :
  is_Some (talk !! "title")
  ∧ parse_tstamp talk "event-end" = Raise (KeyError "event-end")
  ∧ valid_datetime t_10_00.
Proof.
  assert (is_Some (talk !! "title")) as Ht by (by eexists).
  split; [exact Ht|]. split.
  - exact (parse_tstamp_outcomes talk "event-end" Ht).
  - pose proof (parse_tstamp_outcomes talk "event-start" Ht) as Hout.
    assert (talk !! "event-start" = Some (VStr "2024-01-01 10:00")) as Hs
      by reflexivity.
    assert (parse_tstamp talk "event-start" = Ok t_10_00) as Hp
      by (vm_compute; reflexivity).
    rewrite Hs, Hp in Hout. exact (proj1 Hout).
Defined.

Definition untitled : dict := {[ "event-start" := VStr "soon" ]}.

(** ["soon"] is no timestamp, and the event has no title: the
    [ValueError] of [strptime] is not what the caller sees. *)
Lemma parse_tstamp_untitled_witness :
  untitled !! "title" = None
  ∧ parse_tstamp untitled "event-start" = Raise (KeyError "title").
Proof.
  split; [reflexivity|].
  destruct (parse_tstamp_untitled untitled "event-start" eq_refl)
    as [[t Ht]|Hraise]; [|exact Hraise].
  vm_compute in Ht. discriminate Ht.
Defined.

Lemma t_10_00_valid : valid_datetime t_10_00.
Proof. unfold valid_datetime. simpl. repeat split; (reflexivity || lia). Qed.

Lemma timestamp_round_trip_witness :
  show_tstamp t_10_00 = "2024-01-01 10:00"
  ∧ parse_tstamp talk "event-start" = Ok t_10_00.
Proof.
  split; [vm_compute; reflexivity|].
  exact (timestamp_round_trip talk "event-start" t_10_00 t_10_00_valid
           eq_refl eq_refl eq_refl).
Defined.

(** ** The resolver *)

Definition blank : dict :=
  {[ "title" := VStr "Talk";
     "event-start" := VStr "2024-01-01 10:00";
     "event-duration" := VStr "  " ]}.

Lemma blank_duration_witness :
  parse_timedelta blank = Ok (mk_timedelta 0 0 0)
  ∧ exists w', parse_article 0 (world_of [blank]) = (w', Ok tt)
               ∧ resolved w' 0 t_10_00 t_10_00.
Proof.
  assert (parse_tstamp (content_metadata (deref (world_of [blank]) 0))
            "event-start" = Ok t_10_00) as Hs by (vm_compute; reflexivity).
  assert (Forall (fun a => Chars.isspace a = true) (chars_of "  ")) as Hb
    by (repeat constructor).
  exact (blank_duration (world_of [blank]) 0 t_10_00 "  " Hs eq_refl eq_refl
           Hb).
Defined.

Definition backwards : dict :=
  {[ "title" := VStr "Talk";
     "event-start" := VStr "2024-01-01 10:00";
     "event-duration" := VStr "-2h" ]}.

(** A duration of minus two hours: the end is 08:00, before the
    start. *)
Lemma duration_sign_witness :
  parse_timedelta backwards = Ok (mk_timedelta (-1) 79200 0)
  ∧ exists e, resolved (parse_article 0 (world_of [backwards])).1 0 t_10_00 e
              ∧ datetime_cmp t_10_00 e = Gt.
Proof.
  assert (parse_tstamp (content_metadata (deref (world_of [backwards]) 0))
            "event-start" = Ok t_10_00) as Hs by (vm_compute; reflexivity).
  assert (parse_timedelta (content_metadata (deref (world_of [backwards]) 0))
          = Ok (mk_timedelta (-1) 79200 0)) as Hd by (vm_compute; reflexivity).
  assert (parse_article 0 (world_of [backwards])
          = ((parse_article 0 (world_of [backwards])).1, Ok tt)) as Hpa
    by (vm_compute; reflexivity).
  split; [exact Hd|].
  exact (duration_sign (world_of [backwards]) _ 0 t_10_00 _ Hs eq_refl Hd Hpa).
Defined.

(** ** The store *)

Lemma both_generator_NoDup : NoDup (generated_content both_generator).
Proof.
  apply NoDup_cons. split; [|apply NoDup_singleton].
  intros Hin. apply list_elem_of_singleton in Hin. discriminate Hin.
Qed.

Lemma both_resolved_paired c :
  c ∈ generated_content both_generator -> paired both_resolved c.
Proof.
  intros Hc _. apply elem_of_cons in Hc as [->|Hc].
  - vm_compute. by eexists.
  - apply list_elem_of_singleton in Hc as ->. vm_compute. by eexists.
Qed.

Lemma collect_after_reset_witness :
  events (generate_events both_generator
            (initialize_events both_generator both_resolved).1).1
  = [e_en; e_de].
Proof.
  rewrite (collect_after_reset both_resolved both_generator
             both_generator_NoDup both_resolved_paired).
  vm_compute. reflexivity.
Defined.

Lemma collect_twice_witness :
  events (generate_events plain_generator
            (generate_events plain_generator resolved_world).1).1
  = [e_en].
Proof.
  rewrite (collect_twice resolved_world plain_generator resolved_world_paired).
  vm_compute. reflexivity.
Defined.

(** A content object that carries a start and no end, as the resolver
    never leaves one. *)
Definition half_annotated : world :=
  mk_world {[ 0%nat := mk_content talk {[ "event_start" := t_10_00 ]} ]}
    [] ∅ ∅ None.

Lemma collect_missing_end_witness :
  (generate_events plain_generator half_annotated).2
  = Raise (AttributeError "event_end")
  ∧ events (generate_events plain_generator half_annotated).1 = []
  ∧ events_list (generate_events plain_generator half_annotated).1 = None.
Proof.
  assert (forall c', c' ∈ @nil nat -> paired half_annotated c') as Hp.
  { intros c' Hc'. by apply elem_of_nil in Hc'. }
  destruct (collect_missing_end half_annotated plain_generator [] 0 []
              eq_refl Hp (ex_intro _ t_10_00 eq_refl) eq_refl)
    as (Hraise & _ & _ & _ & Hlist).
  split; [exact Hraise|]. split; [vm_compute; reflexivity | exact Hlist].
Defined.

Lemma fresh_world_paired c' : paired (world_of [en_talk]) c'.
Proof.
  intros [t Ht]. exfalso. unfold annotation, deref, world_of in Ht.
  simpl in Ht. destruct (decide (c' = 0%nat)) as [->|Hne].
  - rewrite lookup_total_insert_eq in Ht. done.
  - rewrite lookup_total_insert_ne in Ht by done. done.
Qed.

Lemma resolved_then_collected_witness :
  exists s e,
    parse_tstamp en_talk "event-start" = Ok s
    ∧ annotation resolved_world 0 "event-end" = Some e
    ∧ mk_Event s e en_talk 0
      ∈ events (generate_events plain_generator resolved_world).1.
Proof.
  assert (parse_article 0 (world_of [en_talk]) = (resolved_world, Ok tt))
    as Hpa by (vm_compute; reflexivity).
  exact (resolved_then_collected (world_of [en_talk]) resolved_world
           plain_generator 0
           (ex_intro _ (VStr "2024-01-01 10:00") eq_refl) Hpa
           (list_elem_of_here 0%nat []) fresh_world_paired).
Defined.

Definition note : dict := {[ "title" := VStr "Note" ]}.

Lemma plain_article_not_collected_witness :
  parse_article 0 (world_of [note]) = (world_of [note], Ok tt)
  ∧ forall e, e ∈ events (generate_events plain_generator (world_of [note])).1 ->
      article e = 0%nat -> e ∈ events (world_of [note]).
Proof.
  exact (plain_article_not_collected (world_of [note]) plain_generator 0
           eq_refl eq_refl).
Defined.

(** ** The language lists *)

Definition i18n_generator : generator :=
  mk_generator (site (Some (VStr "cal.ics")) [VStr "i18n_subsites"])
    [0%nat; 1%nat].

(** Two stored events, no language list yet. *)
Definition collected_world : world :=
  mk_world
    (list_to_map [(0%nat, mk_content en_talk ∅); (1%nat, mk_content de_talk ∅)])
    [e_en; e_de] ∅ ∅ None.

Lemma partition_by_language_witness :
  (generate_localized_events i18n_generator collected_world).2 = Ok tt
  ∧ localized_events (generate_localized_events i18n_generator collected_world).1
      !! VStr "en" = Some [e_en]
  ∧ localized_events (generate_localized_events i18n_generator collected_world).1
      !! VStr "fr" = None.
Proof.
  assert (forall e, e ∈ events collected_world ->
            metadata e !! "lang" = None ->
            is_Some (metadata e !! "title")) as Ht.
  { intros e He _. apply elem_of_cons in He as [->|He].
    - by eexists.
    - apply list_elem_of_singleton in He as ->. by eexists. }
  destruct (partition_by_language collected_world i18n_generator
              [VStr "i18n_subsites"] "out" {[ "out" := "" ]}
              eq_refl (list_elem_of_here _ _) eq_refl eq_refl Ht)
    as (Hok & _ & Happ).
  split; [exact Hok|]. split.
  - exact (Happ (VStr "en")).
  - exact (Happ (VStr "fr")).
Defined.

(** An event without language and without title, between two others. *)
Definition e_anon : Event := mk_Event t_10_00 t_12_00 ∅ 2.

Definition anonymous_world : world :=
  mk_world ∅ [e_en; e_anon; e_de] ∅ ∅ None.

Lemma partition_untitled_event_witness :
  (generate_localized_events i18n_generator anonymous_world).2
  = Raise (KeyError "title")
  ∧ localized_events (generate_localized_events i18n_generator anonymous_world).1
      !! VStr "en" = Some [e_en]
  ∧ localized_events (generate_localized_events i18n_generator anonymous_world).1
      !! VStr "de" = None.
Proof.
  assert (forall e', e' ∈ [e_en] -> metadata e' !! "lang" = None ->
            is_Some (metadata e' !! "title")) as Ht.
  { intros e' He' _. apply list_elem_of_singleton in He' as ->. by eexists. }
  destruct (partition_untitled_event anonymous_world i18n_generator
              [VStr "i18n_subsites"] "out" {[ "out" := "" ]}
              [e_en] e_anon [e_de]
              eq_refl (list_elem_of_here _ _) eq_refl eq_refl eq_refl Ht
              eq_refl eq_refl)
    as (Hraise & Happ).
  split; [exact Hraise|]. split.
  - exact (Happ (VStr "en")).
  - exact (Happ (VStr "de")).
Defined.

(** ** The exporter *)

Lemma component_fields_witness :
  ical_event plain_generator tt "" e_en = Ok en_component
  ∧ property "uid" en_component = [VStr "talk-en@site"]
  ∧ property "location" en_component = [].
Proof.
  assert (ical_event plain_generator tt "" e_en = Ok en_component) as Hie
    by (vm_compute; reflexivity).
  split; [exact Hie|].
  destruct (@component_fields host plain_generator tt "" e_en en_component Hie)
    as (t & title & slug & sitename & _ & _ & Hslug & Hsite & Huid & Hloc).
  split.
  - rewrite Huid. vm_compute in Hslug. vm_compute in Hsite.
    injection Hslug as <-. injection Hsite as <-. reflexivity.
  - exact Hloc.
Defined.

(** An event whose metadata have no ['date']. *)
Definition e_undated : Event :=
  mk_Event t_10_00 t_12_00
    {[ "title" := VStr "Talk"; "slug" := VStr "talk" ]} 3.

Definition undated_world : world :=
  mk_world ∅ [e_en; e_undated] ∅ ∅ None.

Lemma export_aborts_on_bad_event_witness :
  ical_event plain_generator tt "" e_undated = Raise (KeyError "date")
  ∧ (exists x', (generate_ical_file plain_generator undated_world).2 = Raise x')
  ∧ files (generate_ical_file plain_generator undated_world).1 = ∅.
Proof.
  assert (ical_event plain_generator tt "" e_undated = Raise (KeyError "date"))
    as Hbad by (vm_compute; reflexivity).
  split; [exact Hbad|].
  exact (@export_aborts_on_bad_event host undated_world plain_generator
           "cal.ics" "out" "UTC" "" "en" tt e_undated (KeyError "date")
           plain_generator_configured eq_refl
           (list_elem_of_further _ _ _ (list_elem_of_here _ _)) Hbad).
Defined.

(** German events only, English the default language: the listing has
    an English list, and it is empty. *)
Lemma default_language_listed_witness :
  (generate_events plain_generator german_only).2 = Ok tt
  ∧ exists m,
      events_list (generate_events plain_generator german_only).1
      = Some (PerLanguage m)
      ∧ m !! VStr "en" = Some [].
Proof.
  assert ((generate_events plain_generator german_only).2 = Ok tt) as Hok
    by (vm_compute; reflexivity).
  assert (localized_events (generate_events plain_generator german_only).1
          <> ∅) as Hne.
  { intros Hempty. apply (f_equal (fun m => m !! VStr "de")) in Hempty.
    vm_compute in Hempty. discriminate Hempty. }
  assert (partitions_within german_only) as Hin.
  { intros k l e Hl He. unfold german_only in Hl. simpl in Hl.
    apply lookup_singleton_Some in Hl as [<- <-]. exact He. }
  assert (partitions_tagged german_only) as Htag.
  { intros k l e Hl He. unfold german_only in Hl. simpl in Hl.
    apply lookup_singleton_Some in Hl as [<- <-].
    apply list_elem_of_singleton in He as ->. reflexivity. }
  assert (forall e,
            e ∈ events (generate_events plain_generator german_only).1 ->
            metadata e !! "lang" <> Some (VStr "en")) as Hnone.
  { intros e He.
    assert (events (generate_events plain_generator german_only).1 = [e_de])
      as Hev by (vm_compute; reflexivity).
    rewrite Hev in He. apply list_elem_of_singleton in He as ->.
    vm_compute. discriminate. }
  split; [exact Hok|].
  destruct (default_language_listed german_only plain_generator
              {[ "ics_fname" := VStr "cal.ics" ]} (VStr "cal.ics") "en"
              eq_refl eq_refl eq_refl eq_refl Hok Hne)
    as (m & Hlist & _ & Hnil).
  exists m. split; [exact Hlist | exact (Hnil Hin Htag Hnone)].
Defined.

(** ** More invariants *)

Lemma parse_timedelta_normalized_witness :
  parse_timedelta (with_duration "90m") = Ok (mk_timedelta 0 5400 0)
  ∧ 0 <= 5400 < 86400.
Proof.
  assert (parse_timedelta (with_duration "90m") = Ok (mk_timedelta 0 5400 0))
    as Hd by (vm_compute; reflexivity).
  split; [exact Hd|].
  exact (proj1 (proj2 (parse_timedelta_normalized (with_duration "90m") _ Hd))).
Defined.

Lemma annotations_valid_witness :
  exists s e,
    resolved resolved_world 0 s e ∧ valid_datetime s ∧ valid_datetime e.
Proof.
  assert (parse_article 0 (world_of [en_talk]) = (resolved_world, Ok tt))
    as Hpa by (vm_compute; reflexivity).
  destruct (annotations_valid (world_of [en_talk]) resolved_world 0
              (ex_intro _ (VStr "2024-01-01 10:00") eq_refl) Hpa)
    as (s & e & Hr & Hvs & Hve & _).
  exists s, e. split; [exact Hr|]. split; [exact Hvs | exact Hve].
Defined.

(** The second call finds the output directory made by the first. *)
Lemma partition_not_deduplicated_witness :
  default []
    (localized_events
       (generate_localized_events i18n_generator
          (generate_localized_events i18n_generator collected_world).1).1
     !! VStr "en")
  = [e_en; e_en].
Proof.
  assert (forall e, e ∈ events collected_world ->
            metadata e !! "lang" = None ->
            is_Some (metadata e !! "title")) as Ht.
  { intros e He _. apply elem_of_cons in He as [->|He].
    - by eexists.
    - apply list_elem_of_singleton in He as ->. by eexists. }
  exact (proj2 (partition_not_deduplicated collected_world i18n_generator
                  [VStr "i18n_subsites"] "out" {[ "out" := "" ]}
                  {[ "out" := "" ]}
                  eq_refl (list_elem_of_here _ _) eq_refl eq_refl eq_refl Ht)
               (VStr "en")).
Defined.

Lemma two_languages_lists k l :
  localized_events two_languages !! k = Some l ->
  (k = VStr "en" ∧ l = [e_en]) ∨ (k = VStr "de" ∧ l = [e_de]).
Proof.
  unfold two_languages. simpl. intros Hl.
  apply lookup_insert_Some in Hl as [[<- <-]|[_ Hl]]; [by left|].
  apply lookup_singleton_Some in Hl as [<- <-]. by right.
Qed.

Lemma two_languages_within : partitions_within two_languages.
Proof.
  intros k l e Hl He.
  destruct (two_languages_lists k l Hl) as [[-> ->]|[-> ->]];
    apply list_elem_of_singleton in He as ->.
  - apply list_elem_of_here.
  - apply list_elem_of_further, list_elem_of_here.
Qed.

Lemma two_languages_tagged : partitions_tagged two_languages.
Proof.
  intros k l e Hl He.
  destruct (two_languages_lists k l Hl) as [[-> ->]|[-> ->]];
    apply list_elem_of_singleton in He as ->; reflexivity.
Qed.

Lemma listing_by_language_tagged_witness :
  metadata e_de !! "lang" = Some (VStr "de")
  ∧ e_de ∈ events (generate_events plain_generator two_languages).1.
Proof.
  assert (events_list (generate_events plain_generator two_languages).1
          = Some (PerLanguage
                    (sorted_reverse <$> localized_events two_languages)))
    as Hlist by (vm_compute; reflexivity).
  assert ((generate_events plain_generator two_languages).2 = Ok tt) as Hok
    by (vm_compute; reflexivity).
  assert ((sorted_reverse <$> localized_events two_languages) !! VStr "de"
          = Some [e_de]) as Hde by (vm_compute; reflexivity).
  exact (listing_by_language_tagged two_languages plain_generator _
           two_languages_within two_languages_tagged Hlist Hok
           (VStr "de") [e_de] e_de Hde (list_elem_of_here _ _)).
Defined.

End MoreRuns.
